(** * Round Resolution Engine of the slot game

    Shallow embedding of [utils/gameLogic.ts] (symbol generator, per-spin
    predicates, generators of spins and rounds), of the [GameScreen]
    component (round sequencer, outcome classification, continuation
    resolver, session counter, overlay), of the phases of [PremiumModal]
    and of the messages of [DrinkModal] and [ResultScreen].

    Conventions of the embedding.
    - Every call of [Math.random()] becomes an explicit argument, a rational
      number: a double is a rational, and [<], [<=] and [Math.floor] on
      doubles are exact.  A product of doubles is rounded to the nearest
      double ([fmul]).  The products by 4 are exact on doubles, and so are
      the subtractions of the loop of [generateWeightedSymbol] as long as
      the remainder is positive, which is all the loop looks at; both are
      written as exact.
    - The decimal literals of the weight table are doubles.  The literals
      [0.3], [0.2] and [0.5] that a draw is compared with are read at their
      decimal value: the doubles they denote differ from it by less than
      2^-54 and are no multiples of 2^-53, so that the comparison is the
      same on every value [Math.random()] returns.  The literals [0.10] and
      [0.60] of [generateGameRound] are read at the doubles they denote, the
      second of which is a multiple of 2^-53.
    - React state cells ([useState]) are the fields of a record; a handler is
      a function from the state it observes to the state it leaves.  Every
      setter of the component is called with a value (never with an updater
      function), and handlers run one at a time, each one on the state
      committed by the previous one.
    - [setTimeout] callbacks are kept in a list of pending timeouts together
      with the values their closures captured; firing one is an event.
    - The string literals of [GameScreen.tsx] are taken as the file stores
      them.  The file holds a MacRoman rendering of its UTF-8 text, so that
      the literal compared with the reels where a cherry is looked for
      ([cherryLiteral]) is not the cherry of [gameLogic.ts]. *)

From Stdlib Require Import ZArith QArith Qround Qpower Lqa Lia.
From stdpp Require Import base decidable option list strings.

Local Open Scope Z_scope.

(** ** Rational draws *)

Definition Qltb (x y : Q) : bool := negb (Qle_bool y x).

(** ** Doubles *)

Module Binary64.

Local Open Scope Q_scope.

(** The integer part of the binary logarithm of a positive rational. *)
Definition floorLog2 (q : Q) : Z :=
  let k := (Z.log2 (Qnum q) - Z.log2 (Zpos (Qden q)))%Z in
  if Qle_bool (2 ^ k) q then k else (k - 1)%Z.

(** The nearest integer, the even one of two that are equally near. *)
Definition roundHalfEven (m : Q) : Z :=
  let f := Qfloor m in
  match Qcompare (m - inject_Z f) (1 # 2) with
  | Lt => f
  | Gt => (f + 1)%Z
  | Eq => if Z.even f then f else (f + 1)%Z
  end.

(** The double nearest to a positive rational: 53 significant bits, and a
    spacing of 2^-1074 below 2^-1022.  Overflow plays no part here (no
    product of the program reaches 2^7). *)
Definition roundPositive (q : Q) : Q :=
  let e := Z.max (-1074) (floorLog2 q - 52) in
  inject_Z (roundHalfEven (q / 2 ^ e)) * 2 ^ e.

(** Rounding to the nearest double, ties to even. *)
Definition round64 (q : Q) : Q :=
  match Qcompare q 0 with
  | Eq => 0
  | Gt => roundPositive q
  | Lt => - roundPositive (- q)
  end.

(** [x * y] on doubles. *)
Definition fmul (x y : Q) : Q := round64 (x * y).

End Binary64.

Export Binary64.

(** ** utils/gameLogic.ts *)

Module GameLogic.

(** [type Symbol = '🍒' | '🍋' | '🍇' | '💎' | '🔔' | '🌠'] *)
Inductive Symbol : Set := Cherry | Lemon | Grape | Diamond | Bell | Star.

#[global] Instance Symbol_eq_dec : EqDecision Symbol.
Proof. solve_decision. Defined.

(** The string each symbol is, as [types/index.ts] and [gameLogic.ts] write
    it. *)
Definition symbolText (s : Symbol) : string :=
  match s with
  | Cherry => "🍒"
  | Lemon => "🍋"
  | Grape => "🍇"
  | Diamond => "💎"
  | Bell => "🔔"
  | Star => "🌠"
  end.

(** What a reel of the component holds: [null] (before the first spin),
    the placeholder string of [startSpin] (spinning) or a symbol. *)
Inductive Slot : Set :=
| Null
| Placeholder
| Sym (s : Symbol).

#[global] Instance Slot_eq_dec : EqDecision Slot.
Proof. solve_decision. Defined.

Definition SYMBOLS : list Symbol := [Cherry; Lemon; Grape; Diamond; Bell; Star].

(** The object literal [BASE_SYMBOL_WEIGHTS]; [Object.entries] and
    [Object.values] enumerate its string keys in insertion order. *)
Definition BASE_SYMBOL_WEIGHTS : list (Symbol * Q) :=
  [ (Cherry, 1%Q); (Lemon, 95 # 4); (Grape, 95 # 4);
    (Diamond, 95 # 4); (Bell, 95 # 4); (Star, 9 # 2) ].

(** [Object.values(BASE_SYMBOL_WEIGHTS).reduce((a, b) => a + b, 0)] *)
Definition totalWeight : Q :=
  fold_left Qplus (map snd BASE_SYMBOL_WEIGHTS) 0%Q.

(** The [for] loop of [generateWeightedSymbol]: [random -= weight], return
    the symbol as soon as [random <= 0]; [None] when the loop runs off the
    table. *)
Fixpoint scanWeights (entries : list (Symbol * Q)) (random : Q) : option Symbol :=
  match entries with
  | [] => None
  | (symbol, weight) :: rest =>
      let random := (random - weight)%Q in
      if Qle_bool random 0 then Some symbol else scanWeights rest random
  end.

(** The body of [generateWeightedSymbol] after [random] has been drawn. *)
Definition selectSymbol (random : Q) : Symbol :=
  match scanWeights BASE_SYMBOL_WEIGHTS random with
  | Some symbol => symbol
  | None => Lemon (* fallback *)
  end.

(** [generateWeightedSymbol()], [u] being the value of [Math.random()]. *)
Definition generateWeightedSymbol (u : Q) : Symbol :=
  selectSymbol (fmul u totalWeight).

(** [checkSmallYakuMatch(symbols)] *)
Definition checkSmallYakuMatch (symbols : list Slot) : bool :=
  if negb (length symbols =? 3)%nat then false
  else bool_decide (symbols !! 0%nat = symbols !! 1%nat)
       && bool_decide (symbols !! 1%nat = symbols !! 2%nat)
       && bool_decide (symbols !! 0%nat ≠ Some (Sym Cherry))
       && bool_decide (symbols !! 0%nat ≠ Some (Sym Star)).

(** [countCherries(reels)] *)
Definition countCherries (reels : list (list Slot)) : nat :=
  fold_left
    (fun count reel =>
       fold_left (fun count symbol =>
                    if bool_decide (symbol = Sym Cherry) then S count else count)
                 reel count)
    reels 0%nat.

(** [checkPremiumFlag()], [u] being the value of [Math.random()]. *)
Definition checkPremiumFlag (u : Q) : bool := Qltb u 1.

(** [generatePremiumFlag()] *)
Definition generatePremiumFlag : list Slot := [Sym Star; Sym Star; Sym Star].

(** [isPremiumFlag(symbols)] *)
Definition isPremiumFlag (symbols : list Slot) : bool :=
  (length symbols =? 3)%nat && forallb (fun s => bool_decide (s = Sym Star)) symbols.

End GameLogic.

Export GameLogic.

(** ** components/GameScreen.tsx *)

Module GameScreen.

(** The string literal of lines 72 and 103, where the reels are searched
    for a cherry, as the file stores it: U+F8FF, U+00FC, U+00E7, U+00ED. *)
Definition cherryLiteral : string := "üçí".

(** The string literal of line 47, which [startSpin] puts on the reels, as
    the file stores it: U+201A, U+00F9, U+00EC. *)
Definition placeholderLiteral : string := "‚ùì".

(** The JavaScript value a slot is: [None] for [null]. *)
Definition slotText (slot : Slot) : option string :=
  match slot with
  | Null => None
  | Placeholder => Some placeholderLiteral
  | Sym s => Some (symbolText s)
  end.

(** The [useState] cells of the component. *)
Record State : Set := mkState {
  remainingStops : Z;
  continueCount : Z;
  reels : list Slot;
  isSpinning : list bool;
  currentSpinIndex : nat;
  showDrinkModal : bool;
  drinkCount : nat;
  showRushEffect : bool;
  rushNumber : Z;
  allSpinResults : list (list Slot);
  showGameOver : bool;
  showPremiumModal : bool
}.

(** The initial values given to [useState]. *)
Definition initialState : State :=
  {| remainingStops := 9;
     continueCount := 0;
     reels := [Null; Null; Null];
     isSpinning := [false; false; false];
     currentSpinIndex := 0;
     showDrinkModal := false;
     drinkCount := 0;
     showRushEffect := false;
     rushNumber := 0;
     allSpinResults := [];
     showGameOver := false;
     showPremiumModal := false |}.

(** A pending [setTimeout] callback of the component, with the values its
    closure captured. *)
Inductive Timeout : Set :=
| TCheckRound (newAllSpinResults : list (list Slot))
    (* () => checkRoundResult(newAllSpinResults), 300 ms *)
| TNextSpinOrCheck (currentSpinIndex : nat) (newAllSpinResults : list (list Slot))
    (* () => currentSpinIndex < 2 ? startSpin(currentSpinIndex + 1)
                                  : checkRoundResult(newAllSpinResults), 300 ms *)
| TProceed
    (* () => { setShowRushEffect(false); startNewRound(); }, 2 s *)
| TEnd (continueCount : Z).
    (* () => { setShowRushEffect(false); setShowGameOver(false);
               onGameEnd(continueCount); }, 2 s *)

(** components/PremiumModal.tsx: the phase of the modal and the option its
    coin flip selected.  The flashing of the two options is display only. *)
Inductive Phase : Set := Selecting | Blackout | Result.
Inductive PremiumOption : Set := Everyone | Self.

Record PremiumModal : Set := mkPremiumModal {
  phase : Phase;
  selectedOption : option PremiumOption
}.

Definition premiumModalMounted : PremiumModal :=
  {| phase := Selecting; selectedOption := None |}.

(** What the round sequencer does that its collaborators can see, newest
    first in the trace: a round is started ([startNewRound]), a spin is
    started ([startSpin] past its guard), a spin result is saved, the round's
    record is handed to [checkRoundResult], [onGameEnd] is called. *)
Inductive Obs : Set :=
| RoundStarted
| SpinStarted (spinIndex : nat)
| SpinSettled (spinResult : list Slot)
| RoundCompleted (finalSpinResults : list (list Slot))
| SessionTerminated (finalContinueCount : Z).

#[global] Instance Obs_eq_dec : EqDecision Obs.
Proof. solve_decision. Defined.

(** The mounted component with its surroundings: state cells, pending
    timeouts (oldest first), the premium modal while it is rendered, and the
    trace of observations. *)
Record World : Set := mkWorld {
  ui : State;
  timeouts : list Timeout;
  premiumModal : option PremiumModal;
  trace : list Obs
}.

Notation "w |> f" := (f w) (at level 45, left associativity, only parsing).

Definition withUi (f : State -> State) (w : World) : World :=
  {| ui := f (ui w); timeouts := timeouts w;
     premiumModal := premiumModal w; trace := trace w |}.

Definition setRemainingStops (v : Z) : World -> World :=
  withUi (fun s => mkState v (continueCount s) (reels s) (isSpinning s)
    (currentSpinIndex s) (showDrinkModal s) (drinkCount s) (showRushEffect s)
    (rushNumber s) (allSpinResults s) (showGameOver s) (showPremiumModal s)).

Definition setContinueCount (v : Z) : World -> World :=
  withUi (fun s => mkState (remainingStops s) v (reels s) (isSpinning s)
    (currentSpinIndex s) (showDrinkModal s) (drinkCount s) (showRushEffect s)
    (rushNumber s) (allSpinResults s) (showGameOver s) (showPremiumModal s)).

Definition setReels (v : list Slot) : World -> World :=
  withUi (fun s => mkState (remainingStops s) (continueCount s) v (isSpinning s)
    (currentSpinIndex s) (showDrinkModal s) (drinkCount s) (showRushEffect s)
    (rushNumber s) (allSpinResults s) (showGameOver s) (showPremiumModal s)).

Definition setIsSpinning (v : list bool) : World -> World :=
  withUi (fun s => mkState (remainingStops s) (continueCount s) (reels s) v
    (currentSpinIndex s) (showDrinkModal s) (drinkCount s) (showRushEffect s)
    (rushNumber s) (allSpinResults s) (showGameOver s) (showPremiumModal s)).

Definition setCurrentSpinIndex (v : nat) : World -> World :=
  withUi (fun s => mkState (remainingStops s) (continueCount s) (reels s)
    (isSpinning s) v (showDrinkModal s) (drinkCount s) (showRushEffect s)
    (rushNumber s) (allSpinResults s) (showGameOver s) (showPremiumModal s)).

Definition setShowDrinkModal (v : bool) : World -> World :=
  withUi (fun s => mkState (remainingStops s) (continueCount s) (reels s)
    (isSpinning s) (currentSpinIndex s) v (drinkCount s) (showRushEffect s)
    (rushNumber s) (allSpinResults s) (showGameOver s) (showPremiumModal s)).

Definition setDrinkCount (v : nat) : World -> World :=
  withUi (fun s => mkState (remainingStops s) (continueCount s) (reels s)
    (isSpinning s) (currentSpinIndex s) (showDrinkModal s) v (showRushEffect s)
    (rushNumber s) (allSpinResults s) (showGameOver s) (showPremiumModal s)).

Definition setShowRushEffect (v : bool) : World -> World :=
  withUi (fun s => mkState (remainingStops s) (continueCount s) (reels s)
    (isSpinning s) (currentSpinIndex s) (showDrinkModal s) (drinkCount s) v
    (rushNumber s) (allSpinResults s) (showGameOver s) (showPremiumModal s)).

Definition setRushNumber (v : Z) : World -> World :=
  withUi (fun s => mkState (remainingStops s) (continueCount s) (reels s)
    (isSpinning s) (currentSpinIndex s) (showDrinkModal s) (drinkCount s)
    (showRushEffect s) v (allSpinResults s) (showGameOver s) (showPremiumModal s)).

Definition setAllSpinResults (v : list (list Slot)) : World -> World :=
  withUi (fun s => mkState (remainingStops s) (continueCount s) (reels s)
    (isSpinning s) (currentSpinIndex s) (showDrinkModal s) (drinkCount s)
    (showRushEffect s) (rushNumber s) v (showGameOver s) (showPremiumModal s)).

Definition setShowGameOver (v : bool) : World -> World :=
  withUi (fun s => mkState (remainingStops s) (continueCount s) (reels s)
    (isSpinning s) (currentSpinIndex s) (showDrinkModal s) (drinkCount s)
    (showRushEffect s) (rushNumber s) (allSpinResults s) v (showPremiumModal s)).

(** [setShowPremiumModal]: the modal is rendered exactly while the cell is
    true ([{showPremiumModal && <PremiumModal .../>}]), so setting the cell
    mounts a fresh modal or unmounts it. *)
Definition setShowPremiumModal (v : bool) (w : World) : World :=
  {| ui := (let s := ui w in
            mkState (remainingStops s) (continueCount s) (reels s)
              (isSpinning s) (currentSpinIndex s) (showDrinkModal s)
              (drinkCount s) (showRushEffect s) (rushNumber s)
              (allSpinResults s) (showGameOver s) v);
     timeouts := timeouts w;
     premiumModal := if v then Some premiumModalMounted else None;
     trace := trace w |}.

(** [setTimeout(callback, delay)] *)
Definition setTimeout (t : Timeout) (w : World) : World :=
  {| ui := ui w; timeouts := timeouts w ++ [t];
     premiumModal := premiumModal w; trace := trace w |}.

Definition observe (o : Obs) (w : World) : World :=
  {| ui := ui w; timeouts := timeouts w;
     premiumModal := premiumModal w; trace := o :: trace w |}.

(** [startSpin(spinIndex)] *)
Definition startSpin (spinIndex : nat) (w : World) : World :=
  if (3 <=? spinIndex)%nat then w
  else w |> observe (SpinStarted spinIndex)
         |> setCurrentSpinIndex spinIndex
         |> setIsSpinning [true; true; true]
         |> setReels [Placeholder; Placeholder; Placeholder].

(** [startNewRound()] *)
Definition startNewRound (w : World) : World :=
  w |> observe RoundStarted
    |> setAllSpinResults []
    |> setRemainingStops 9
    |> setCurrentSpinIndex 0
    |> setReels [Null; Null; Null]
    |> setIsSpinning [false; false; false]
    |> setShowGameOver false
    |> startSpin 0.

(** [showBlackoutAndProceed()] *)
Definition showBlackoutAndProceed (w : World) : World :=
  let newCount := continueCount (ui w) + 1 in
  w |> setShowRushEffect true
    |> setShowGameOver false
    |> setContinueCount newCount
    |> setRushNumber (newCount + 1)
    |> setTimeout TProceed.

(** [showBlackoutAndEnd()] *)
Definition showBlackoutAndEnd (w : World) : World :=
  w |> setShowRushEffect true
    |> setShowGameOver true
    |> setTimeout (TEnd (continueCount (ui w))).

(** The classification computed by the loop of [checkRoundResult]. *)
Record Classification : Set := mkClassification {
  cherryCount : nat;
  hasSmallYaku : bool;
  hasPremiumFlag : bool
}.

(** One iteration of [for (const spinResult of finalSpinResults)]. *)
Definition classifySpin (c : Classification) (spinResult : list Slot) : Classification :=
  {| cherryCount :=
       (cherryCount c
        + length (filter (fun s => slotText s = Some cherryLiteral) spinResult))%nat;
     hasSmallYaku :=
       if checkSmallYakuMatch spinResult then true else hasSmallYaku c;
     hasPremiumFlag :=
       if isPremiumFlag spinResult then true else hasPremiumFlag c |}.

Definition classify (finalSpinResults : list (list Slot)) : Classification :=
  fold_left classifySpin finalSpinResults
    {| cherryCount := 0; hasSmallYaku := false; hasPremiumFlag := false |}.

(** The four things the [if] chain of [checkRoundResult] can do:
    [setShowPremiumModal(true)]; [setDrinkCount(n); setShowDrinkModal(true)];
    [showBlackoutAndProceed()]; [showBlackoutAndEnd()]. *)
Inductive Outcome : Set :=
| PremiumSubEvent
| ContinueWithBonusReveal (drinks : nat)
| Continue
| Terminate.

(** The [if] chain of [checkRoundResult]; [u] is the value of the one
    [Math.random()] call that the branch taken makes, if it makes one. *)
Definition resolve (continueRate : Q) (c : Classification) (u : Q) : Outcome :=
  if hasPremiumFlag c then PremiumSubEvent
  else if (0 <? cherryCount c)%nat then
    if (3 <=? cherryCount c)%nat then ContinueWithBonusReveal (cherryCount c)
    else if (2 <=? cherryCount c)%nat then
      if Qltb u (3 # 10) then ContinueWithBonusReveal (cherryCount c)
      else Continue
    else Continue
  else if hasSmallYaku c then
    if Qltb u (1 # 5) then ContinueWithBonusReveal 1 else Continue
  else
    if Qltb u continueRate then Continue else Terminate.

(** [checkRoundResult(finalSpinResults)] *)
Definition checkRoundResult (continueRate : Q) (finalSpinResults : list (list Slot))
    (u : Q) (w : World) : World :=
  let w := observe (RoundCompleted finalSpinResults) w in
  match resolve continueRate (classify finalSpinResults) u with
  | PremiumSubEvent => w |> setShowPremiumModal true
  | ContinueWithBonusReveal n => w |> setDrinkCount n |> setShowDrinkModal true
  | Continue => showBlackoutAndProceed w
  | Terminate => showBlackoutAndEnd w
  end.

(** A JavaScript call hands surplus arguments to a callee that declares no
    parameter for them (and never reads [arguments]); they are dropped. *)
Definition callWithSurplus {A B : Type} (callee : A) (surplus : B) : A := callee.

(** [stopReel(reelIndex)], [u] being the value of the [Math.random()] call
    made by the generator.  [isSpinning[reelIndex]] is falsy out of range.
    Both arrays always hold three entries, so that the write
    [newReels[reelIndex] = newSymbol] is in range whenever the guard lets the
    call through. *)
Definition stopReel (continueRate : Q) (reelIndex : nat) (u : Q) (w : World) : World :=
  if negb (default false (isSpinning (ui w) !! reelIndex)) then w
  else
    let newSymbol := callWithSurplus generateWeightedSymbol continueRate u in
    let newReels := <[reelIndex := Sym newSymbol]> (reels (ui w)) in
    let newSpinning := <[reelIndex := false]> (isSpinning (ui w)) in
    let w' := w |> setReels newReels
                |> setIsSpinning newSpinning
                |> setRemainingStops (remainingStops (ui w) - 1) in
    if forallb negb newSpinning then
      let newAllSpinResults := allSpinResults (ui w) ++ [newReels] in
      let w' := w' |> setAllSpinResults newAllSpinResults
                   |> observe (SpinSettled newReels) in
      let hasCherry := bool_decide (Some cherryLiteral ∈ map slotText newReels) in
      let hasSmallYaku := checkSmallYakuMatch newReels in
      if hasCherry || hasSmallYaku then
        w' |> setTimeout (TCheckRound newAllSpinResults)
      else
        w' |> setTimeout (TNextSpinOrCheck (currentSpinIndex (ui w)) newAllSpinResults)
    else w'.

(** [handleDrinkModalClose()] *)
Definition handleDrinkModalClose (w : World) : World :=
  w |> setShowDrinkModal false |> showBlackoutAndProceed.

(** [handlePremiumModalClose()] *)
Definition handlePremiumModalClose (w : World) : World :=
  w |> setShowPremiumModal false |> showBlackoutAndProceed.

(** [handleKeyPress(e)] for the space key: stop the first spinning reel. *)
Definition handleKeyPress (continueRate : Q) (u : Q) (w : World) : World :=
  match list_find (fun spinning => spinning = true) (isSpinning (ui w)) with
  | Some (firstSpinningIndex, _) => stopReel continueRate firstSpinningIndex u w
  | None => w
  end.

(** The body of a pending timeout. *)
Definition runTimeout (continueRate : Q) (t : Timeout) (u : Q) (w : World) : World :=
  match t with
  | TCheckRound newAllSpinResults =>
      checkRoundResult continueRate newAllSpinResults u w
  | TNextSpinOrCheck currentSpinIndex newAllSpinResults =>
      if (currentSpinIndex <? 2)%nat then startSpin (currentSpinIndex + 1) w
      else checkRoundResult continueRate newAllSpinResults u w
  | TProceed =>
      w |> setShowRushEffect false |> startNewRound
  | TEnd continueCount =>
      w |> setShowRushEffect false
        |> setShowGameOver false
        |> observe (SessionTerminated continueCount)
  end.

Definition setPremiumModal (m : PremiumModal) (w : World) : World :=
  {| ui := ui w; timeouts := timeouts w;
     premiumModal := Some m; trace := trace w |}.

(** What can happen to the mounted component. *)
Inductive Event : Set :=
| StopClicked (reelIndex : nat) (u : Q)   (* STOP button of a reel *)
| SpacePressed (u : Q)                    (* keydown of the space key *)
| TimeoutFired (k : nat) (u : Q)          (* the k-th pending timeout fires *)
| DrinkModalClosed                        (* the button of DrinkModal *)
| PremiumBlackout                         (* PremiumModal, after 8.5 s *)
| PremiumResult (u : Q)                   (* PremiumModal, 2 s later *)
| PremiumClosed.                          (* PremiumModal, 3 s later *)

Definition step (continueRate : Q) (w : World) (e : Event) : World :=
  match e with
  | StopClicked reelIndex u => stopReel continueRate reelIndex u w
  | SpacePressed u => handleKeyPress continueRate u w
  | TimeoutFired k u =>
      match timeouts w !! k with
      | Some t =>
          runTimeout continueRate t u
            {| ui := ui w; timeouts := delete k (timeouts w);
               premiumModal := premiumModal w; trace := trace w |}
      | None => w
      end
  | DrinkModalClosed =>
      if showDrinkModal (ui w) then handleDrinkModalClose w else w
  | PremiumBlackout =>
      match premiumModal w with
      | Some {| phase := Selecting; selectedOption := o |} =>
          setPremiumModal {| phase := Blackout; selectedOption := o |} w
      | _ => w
      end
  | PremiumResult u =>
      match premiumModal w with
      | Some {| phase := Blackout |} =>
          let result := if Qltb u (1 # 2) then Everyone else Self in
          setPremiumModal {| phase := Result; selectedOption := Some result |} w
      | _ => w
      end
  | PremiumClosed =>
      match premiumModal w with
      | Some {| phase := Result |} => handlePremiumModalClose w
      | _ => w
      end
  end.

Definition run (continueRate : Q) (w : World) (events : list Event) : World :=
  fold_left (step continueRate) events w.

(** The component right after it is mounted: the [useEffect] with no
    dependencies has called [startNewRound()]. *)
Definition mounted : World :=
  startNewRound
    {| ui := initialState; timeouts := []; premiumModal := None; trace := [] |}.

Inductive reachable (continueRate : Q) : World -> Prop :=
| reachable_mounted : reachable continueRate mounted
| reachable_step w e :
    reachable continueRate w -> reachable continueRate (step continueRate w e).

End GameScreen.

Export GameScreen.

(** ** Notions used to state the properties *)

(** Sum of the first [n] weights of the table. *)
Definition cumulativeWeight (n : nat) : Q :=
  fold_right Qplus 0%Q (map snd (take n BASE_SYMBOL_WEIGHTS)).

(** The test [stopReel] makes on the spin that has just settled:
    [newReels.includes(cherryLiteral) || checkSmallYakuMatch(newReels)]. *)
Definition qualifies (spinResult : list Slot) : bool :=
  bool_decide (Some cherryLiteral ∈ map slotText spinResult)
  || checkSmallYakuMatch spinResult.

(** The outcome classifier as section 4.3 of the specification words it:
    the cherry count is the number of occurrences of the cherry symbol
    across every reel of every recorded spin; the small-yaku flag is set
    when some recorded spin has three identical symbols that are neither
    the cherry nor the premium symbol; the premium flag is set when some
    recorded spin has three premium symbols. *)
Definition smallYakuAsSpecified (spinResult : list Slot) : bool :=
  match spinResult with
  | [a; b; c] =>
      bool_decide (a = b /\ b = c /\ a <> Sym Cherry /\ a <> Sym Star)
  | _ => false
  end.

Definition premiumFlagAsSpecified (spinResult : list Slot) : bool :=
  match spinResult with
  | [a; b; c] => bool_decide (a = Sym Star /\ b = Sym Star /\ c = Sym Star)
  | _ => false
  end.

Definition classifyAsSpecified (roundRecord : list (list Slot)) : Classification :=
  {| cherryCount := length (filter (fun s => s = Sym Cherry) (concat roundRecord));
     hasSmallYaku := existsb smallYakuAsSpecified roundRecord;
     hasPremiumFlag := existsb premiumFlagAsSpecified roundRecord |}.

(** The early-exit test as section 4.2 of the specification words it: the
    classification of the entire accumulated record has a cherry or a small
    yaku. *)
Definition recordQualifies (roundRecord : list (list Slot)) : bool :=
  (0 <? cherryCount (classifyAsSpecified roundRecord))%nat
  || hasSmallYaku (classifyAsSpecified roundRecord).

(** [stopReel] as section 4.2 of the specification words it: once the spin
    has settled, the decision is taken from the classification of the entire
    accumulated record.  Everything else is as in [stopReel]. *)
Definition stopReel_onFullRecord (continueRate : Q) (reelIndex : nat) (u : Q)
    (w : World) : World :=
  if negb (default false (isSpinning (ui w) !! reelIndex)) then w
  else
    let newSymbol := callWithSurplus generateWeightedSymbol continueRate u in
    let newReels := <[reelIndex := Sym newSymbol]> (reels (ui w)) in
    let newSpinning := <[reelIndex := false]> (isSpinning (ui w)) in
    let w' := w |> setReels newReels
                |> setIsSpinning newSpinning
                |> setRemainingStops (remainingStops (ui w) - 1) in
    if forallb negb newSpinning then
      let newAllSpinResults := allSpinResults (ui w) ++ [newReels] in
      let w' := w' |> setAllSpinResults newAllSpinResults
                   |> observe (SpinSettled newReels) in
      if recordQualifies newAllSpinResults then
        w' |> setTimeout (TCheckRound newAllSpinResults)
      else
        w' |> setTimeout (TNextSpinOrCheck (currentSpinIndex (ui w)) newAllSpinResults)
    else w'.

(** The trace cut into rounds, newest round first, each round newest
    observation first; a round begins at its [RoundStarted], which is left
    out of it. *)
Fixpoint rounds (tr : list Obs) : list (list Obs) :=
  match tr with
  | [] => []
  | RoundStarted :: older => [] :: rounds older
  | o :: older =>
      match rounds older with
      | current :: past => (o :: current) :: past
      | [] => []
      end
  end.

Definition isCompletion (o : Obs) : bool :=
  match o with RoundCompleted _ => true | _ => false end.

(** How many times the round was handed to [checkRoundResult]. *)
Definition completions (round : list Obs) : nat :=
  length (List.filter isCompletion round).

(** The spin results saved in a round, oldest first. *)
Fixpoint settledSpins (round : list Obs) : list (list Slot) :=
  match round with
  | [] => []
  | SpinSettled s :: older => settledSpins older ++ [s]
  | _ :: older => settledSpins older
  end.

(** A round in which spin [k] is under way: none of the [k] spins settled
    before it passed the test of [stopReel]. *)
Inductive openRound : nat -> list (list Slot) -> list Obs -> Prop :=
| openRound_first : openRound 0 [] [SpinStarted 0]
| openRound_next k record s round :
    openRound k record round ->
    qualifies s = false ->
    openRound (S k) (record ++ [s]) (SpinStarted (S k) :: SpinSettled s :: round).

(** A round that has been handed to [checkRoundResult]. *)
Definition closedRound (round : list Obs) : Prop :=
  exists k record s before,
    round = RoundCompleted (record ++ [s]) :: SpinSettled s :: before
    /\ openRound k record before /\ (k <= 2)%nat
    /\ (qualifies s = false -> k = 2%nat).

Definition allStopped : list bool := [false; false; false].

(** The states of the component: a spin under way; a spin settled and the
    decision pending on its timeout; the round resolved (a modal open, or the
    blackout before the next round or before the end); the session ended. *)
Definition spinning (w : World) (current : list Obs) : Prop :=
  exists k,
    openRound k (allSpinResults (ui w)) current /\ (k <= 2)%nat
    /\ currentSpinIndex (ui w) = k
    /\ timeouts w = [] /\ premiumModal w = None
    /\ showDrinkModal (ui w) = false
    /\ (exists i, isSpinning (ui w) !! i = Some true).

Definition settled (w : World) (current : list Obs) : Prop :=
  exists k record s before,
    openRound k record before /\ (k <= 2)%nat
    /\ current = SpinSettled s :: before
    /\ isSpinning (ui w) = allStopped
    /\ allSpinResults (ui w) = record ++ [s]
    /\ premiumModal w = None /\ showDrinkModal (ui w) = false
    /\ ((qualifies s = true /\ timeouts w = [TCheckRound (record ++ [s])])
        \/ (qualifies s = false
            /\ timeouts w = [TNextSpinOrCheck k (record ++ [s])])).

Definition resolved (w : World) (current : list Obs) : Prop :=
  closedRound current
  /\ isSpinning (ui w) = allStopped
  /\ ((showDrinkModal (ui w) = true /\ premiumModal w = None /\ timeouts w = [])
      \/ (showDrinkModal (ui w) = false /\ is_Some (premiumModal w)
          /\ timeouts w = [])
      \/ (showDrinkModal (ui w) = false /\ premiumModal w = None
          /\ timeouts w = [TProceed])
      \/ (showDrinkModal (ui w) = false /\ premiumModal w = None
          /\ timeouts w = [TEnd (continueCount (ui w))])).

Definition ended (w : World) (current : list Obs) : Prop :=
  exists round,
    current = SessionTerminated (continueCount (ui w)) :: round
    /\ closedRound round
    /\ isSpinning (ui w) = allStopped
    /\ timeouts w = [] /\ premiumModal w = None
    /\ showDrinkModal (ui w) = false.

(** The invariant of the component. *)
Definition Inv (w : World) : Prop :=
  length (reels (ui w)) = 3%nat
  /\ length (isSpinning (ui w)) = 3%nat
  /\ 0 <= continueCount (ui w)
  /\ exists current past,
       rounds (trace w) = current :: past
       /\ Forall closedRound past
       /\ (spinning w current \/ settled w current
           \/ resolved w current \/ ended w current).

(** A fresh round: what [startNewRound] leaves. *)
Definition freshRound (w : World) : Prop :=
  allSpinResults (ui w) = []
  /\ remainingStops (ui w) = 9
  /\ currentSpinIndex (ui w) = 0%nat
  /\ reels (ui w) = [Placeholder; Placeholder; Placeholder]
  /\ isSpinning (ui w) = [true; true; true]
  /\ exists tr, trace w = SpinStarted 0 :: RoundStarted :: tr.

(** A round is open while a reel spins or the decision on a settled spin is
    pending on its timeout. *)
Definition roundOpen (w : World) : bool :=
  existsb id (isSpinning (ui w))
  || match timeouts w with
     | TCheckRound _ :: _ | TNextSpinOrCheck _ _ :: _ => true
     | _ => false
     end.

(** The schedule that lets a round run to its end: fire the pending timeout
    if there is one, press the space key otherwise, until the round is no
    longer open. *)
Definition nextEvent (w : World) (u : Q) : Event :=
  match timeouts w with
  | [] => SpacePressed u
  | _ :: _ => TimeoutFired 0 u
  end.

Fixpoint playRound (continueRate : Q) (draws : list Q) (w : World) : World :=
  match draws with
  | [] => w
  | u :: draws =>
      if roundOpen w then playRound continueRate draws (step continueRate w (nextEvent w u))
      else w
  end.

(** The pending timeout hands [record] to [checkRoundResult] when it fires. *)
Definition completing (t : Timeout) (record : list (list Slot)) : Prop :=
  t = TCheckRound record
  \/ exists k, (2 <= k)%nat /\ t = TNextSpinOrCheck k record.

(** A state whose third spin has just settled, the first spin having shown
    three premium symbols. *)
Definition premiumRoundSettled : World :=
  run (29 # 100) mounted
    [StopClicked 0 (99 # 100); StopClicked 1 (99 # 100); StopClicked 2 (99 # 100);
     TimeoutFired 0 0;
     StopClicked 0 (1 # 4); StopClicked 1 (1 # 2); StopClicked 2 (3 # 4);
     TimeoutFired 0 0;
     StopClicked 0 (1 # 4); StopClicked 1 (1 # 2); StopClicked 2 (3 # 4)].

Definition premiumRecord : list (list Slot) :=
  [[Sym Star; Sym Star; Sym Star]; [Sym Grape; Sym Diamond; Sym Bell];
   [Sym Grape; Sym Diamond; Sym Bell]].

(** An upper bound on the events a round still needs before it is handed to
    the resolver, under the schedule of [playRound]. *)
Definition stepsLeft (w : World) : nat :=
  match timeouts w with
  | TCheckRound _ :: _ => 1
  | TNextSpinOrCheck k _ :: _ => 4 * (2 - k) + 1
  | _ =>
      if existsb id (isSpinning (ui w))
      then 4 * (2 - currentSpinIndex (ui w))
           + length (List.filter id (isSpinning (ui w))) + 1
      else 0
  end%nat.

(** The shapes a round of a reachable trace can have. *)
Definition roundShape (round : list Obs) : Prop :=
  (exists k record, openRound k record round /\ (k <= 2)%nat)
  \/ (exists k record s before,
        openRound k record before /\ (k <= 2)%nat
        /\ round = SpinSettled s :: before)
  \/ closedRound round
  \/ (exists c before, round = SessionTerminated c :: before /\ closedRound before).

(** ** utils/gameLogic.ts: generated spins and rounds *)

Module Generators.

(** A computation that reads the successive values of [Math.random()]: from
    the position of the next value to a result and the position after it. *)
Definition Rand (A : Type) : Type := nat -> A * nat.

Definition ret {A : Type} (a : A) : Rand A := fun n => (a, n).

Definition bind {A B : Type} (m : Rand A) (f : A -> Rand B) : Rand B :=
  fun n => let (a, n') := m n in f a n'.

#[local] Notation "x <- m ;; k" := (bind m (fun x => k))
  (at level 100, m at next level, right associativity).

(** [array[index]] for a numeric index: [undefined] ([None]) outside the
    array. *)
Definition arrayAt {A : Type} (array : list A) (index : Z) : option A :=
  if index <? 0 then None else array !! Z.to_nat index.

Section RandomSource.

(** The values [Math.random()] returns, in the order of the calls. *)
Variable draws : nat -> Q.

(** [array.sort(() => Math.random() - 0.5)]: the order such a comparator
    gives and the number of values it reads are left to the engine. *)
Variable sortRandomly : list (option Symbol) -> Rand (list (option Symbol)).

(** [Math.random()] *)
Definition random : Rand Q := fun n => (draws n, S n).

(** [generateWeightedSymbol()] on the random source. *)
Definition nextSymbol : Rand Symbol :=
  u <- random ;; ret (generateWeightedSymbol u).

(** The [for] loop of the cherry branch of [generateSpinResult]. *)
Fixpoint fillSpin (cherryCount : nat) (indices : list nat)
    (result : list (option Symbol)) : Rand (list (option Symbol)) :=
  match indices with
  | [] => ret result
  | i :: indices =>
      if (i <? cherryCount)%nat
      then fillSpin cherryCount indices (result ++ [Some Cherry])
      else symbol <- nextSymbol ;;
           fillSpin cherryCount indices (result ++ [Some symbol])
  end.

(** [generateSpinResult(shouldIncludeCherry, shouldMakeSmallYaku)]; an entry
    is [None] where the array holds [undefined]. *)
Definition generateSpinResult (shouldIncludeCherry shouldMakeSmallYaku : bool) :
    Rand (list (option Symbol)) :=
  if shouldIncludeCherry then
    u <- random ;;
    cherryCount <- (if Qltb u (3 # 10) then ret 3%nat
                    else u' <- random ;;
                         ret (if Qltb u' (1 # 2) then 2%nat else 1%nat)) ;;
    result <- fillSpin cherryCount [0; 1; 2]%nat [] ;;
    sortRandomly result
  else if shouldMakeSmallYaku then
    u <- random ;;
    let yakuSymbol :=
      arrayAt (filter (fun s => s <> Cherry) SYMBOLS) (Qfloor (u * 4)) in
    ret [yakuSymbol; yakuSymbol; yakuSymbol]
  else
    s0 <- nextSymbol ;; s1 <- nextSymbol ;; s2 <- nextSymbol ;;
    ret [Some s0; Some s1; Some s2].

(** A loop [for (let i = 0; i < 3; i++) results.push(spin(i))]. *)
Fixpoint pushSpins (spin : nat -> Rand (list (option Symbol))) (indices : list nat)
    (results : list (list (option Symbol))) : Rand (list (list (option Symbol))) :=
  match indices with
  | [] => ret results
  | i :: indices =>
      spinResult <- spin i ;;
      pushSpins spin indices (results ++ [spinResult])
  end.

(** [generateGameRound()]; the literals [0.10] and [0.60] are the doubles
    nearest to 1/10 and to 3/5. *)
Definition generateGameRound : Rand (list (list (option Symbol))) :=
  roll <- random ;;
  if Qltb roll (round64 (1 # 10)) then
    pushSpins (fun i => generateSpinResult (i =? 0)%nat false) [0; 1; 2]%nat []
  else if Qltb roll (round64 (3 # 5)) then
    u <- random ;;
    let yakuSpinIndex := Qfloor (fmul u 3) in
    pushSpins (fun i => generateSpinResult false (Z.of_nat i =? yakuSpinIndex))
      [0; 1; 2]%nat []
  else
    pushSpins (fun _ => generateSpinResult false false) [0; 1; 2]%nat [].

End RandomSource.

(** The slots a generated spin shows when every entry is a symbol. *)
Definition slotsOf (spinResult : list Symbol) : list Slot := map Sym spinResult.

End Generators.

Export Generators.

(** ** Further notions on the component *)

(** A spin result whose three reels all hold a symbol. *)
Definition settledSlots (spinResult : list Slot) : Prop :=
  exists a b c, spinResult = [Sym a; Sym b; Sym c].

(** A record as the sequencer hands it over: settled spins, none of which
    but the last passed the test of [stopReel]. *)
Definition handedOver (record : list (list Slot)) : Prop :=
  exists before s,
    record = before ++ [s]
    /\ Forall (fun s => qualifies s = false) before
    /\ Forall settledSlots record.

Definition timeoutWired (t : Timeout) : Prop :=
  match t with
  | TCheckRound record | TNextSpinOrCheck _ record => handedOver record
  | _ => True
  end.

Definition obsWired (o : Obs) : Prop :=
  match o with
  | SpinSettled s => settledSlots s
  | RoundCompleted record => handedOver record
  | _ => True
  end.

(** What the reels show, and what the record, the timeouts and the trace
    hold. *)
Definition Wired (w : World) : Prop :=
  length (reels (ui w)) = 3%nat
  /\ length (isSpinning (ui w)) = 3%nat
  /\ (forall i, isSpinning (ui w) !! i = Some true ->
                reels (ui w) !! i = Some Placeholder)
  /\ ((exists j, isSpinning (ui w) !! j = Some true) ->
      forall i, isSpinning (ui w) !! i = Some false ->
                exists s, reels (ui w) !! i = Some (Sym s))
  /\ Forall settledSlots (allSpinResults (ui w))
  /\ Forall timeoutWired (timeouts w)
  /\ Forall obsWired (trace w).

(** The reels already stopped in the spin under way. *)
Definition stoppedInSpin (flags : list bool) : nat :=
  if existsb id flags then length (List.filter negb flags) else 0%nat.

(** The remaining-stops counter against the record and the flags. *)
Definition Counted (w : World) : Prop :=
  remainingStops (ui w)
    = 9 - 3 * Z.of_nat (length (allSpinResults (ui w)))
      - Z.of_nat (stoppedInSpin (isSpinning (ui w)))
  /\ (length (allSpinResults (ui w)) <= 3)%nat
  /\ (existsb id (isSpinning (ui w)) = true ->
      (length (allSpinResults (ui w)) <= 2)%nat).

(** The text of the overlay [rush-overlay], when it is rendered. *)
Inductive Overlay : Set :=
| GameOverText
| RushText (rushNumber : Z).

(** [{showRushEffect && (showGameOver ? ... : rushNumber > 0 ? ... : ...)}] *)
Definition rushOverlay (s : State) : option Overlay :=
  if showRushEffect s then
    Some (if showGameOver s then GameOverText
          else if 0 <? rushNumber s then RushText (rushNumber s)
          else GameOverText)
  else None.

Definition isProceed (t : Timeout) : bool :=
  match t with TProceed => true | _ => false end.

(** The overlay against the continue count and the pending restart. *)
Definition RushInv (w : World) : Prop :=
  0 <= continueCount (ui w)
  /\ (showRushEffect (ui w) = true ->
      showGameOver (ui w) = true
      \/ (rushNumber (ui w) = continueCount (ui w) + 1
          /\ 1 <= continueCount (ui w)
          /\ (1 <= length (List.filter isProceed (timeouts w)))%nat)).

Definition isRoundStart (o : Obs) : bool :=
  match o with RoundStarted => true | _ => false end.

(** Rounds started against the continue count and the pending restarts. *)
Definition RoundsInv (w : World) : Prop :=
  Z.of_nat (length (List.filter isRoundStart (trace w)))
  + Z.of_nat (length (List.filter isProceed (timeouts w)))
  = continueCount (ui w) + 1.

(** The modals against the cells that show them. *)
Definition ModalInv (w : World) : Prop :=
  (showPremiumModal (ui w) = true <-> is_Some (premiumModal w))
  /\ (forall m, premiumModal w = Some m ->
        (phase m = Result <-> is_Some (selectedOption m)))
  /\ (showDrinkModal (ui w) = true ->
      (1 <= drinkCount (ui w) <= 3)%nat).

(** What the display cells hold. *)
Definition Shown (w : World) : Prop := RushInv w /\ RoundsInv w /\ ModalInv w.

(** What the drink modal shows against the spin that ended the round. *)
Definition DrinkInv (w : World) : Prop :=
  showDrinkModal (ui w) = true ->
  exists record before s tr,
    trace w = RoundCompleted record :: tr
    /\ record = before ++ [s] /\ settledSlots s
    /\ existsb isPremiumFlag record = false
    /\ checkSmallYakuMatch s = true
    /\ drinkCount (ui w) = 1%nat.

(** The end of the session is reported at most once, and last. *)
Definition endsOnce (tr : list Obs) : Prop :=
  forall c newer older,
    tr = newer ++ SessionTerminated c :: older ->
    newer = [] /\ forall c', SessionTerminated c' ∉ older.

(** A session of one round that ended after three spins. *)
Definition sessionEnded : World :=
  run (29 # 100) mounted
    [StopClicked 0 (1 # 4); StopClicked 1 (1 # 2); StopClicked 2 (3 # 4);
     TimeoutFired 0 0;
     StopClicked 0 (1 # 4); StopClicked 1 (1 # 2); StopClicked 2 (3 # 4);
     TimeoutFired 0 0;
     StopClicked 0 (1 # 4); StopClicked 1 (1 # 2); StopClicked 2 (3 # 4);
     TimeoutFired 0 (29 # 100); TimeoutFired 0 0].

(** A round whose first spin showed three diamonds, with the drink modal
    open. *)
Definition drinkModalOpen : World :=
  run (1 # 2) mounted
    [SpacePressed (1 # 2); SpacePressed (1 # 2); SpacePressed (1 # 2);
     TimeoutFired 0 (1 # 8)].

(** components/DrinkModal.tsx: the message under the glasses,
    [drinkCount === 3 ? ... : ...]. *)
Inductive DrinkMessage : Set := Jackpot | ContinueConfirmed.

Definition drinkMessage (drinkCount : nat) : DrinkMessage :=
  if (drinkCount =? 3)%nat then Jackpot else ContinueConfirmed.

(** components/ResultScreen.tsx: the messages rendered in [result-message],
    one conditional each, in the order of the source. *)
Inductive ResultMessage : Set := TryAgain | PrettyGood | WellDone | Excellent.

Definition resultMessages (continueCount : Z) : list ResultMessage :=
  (if continueCount =? 0 then [TryAgain] else [])
  ++ (if (0 <? continueCount) && (continueCount <=? 5) then [PrettyGood] else [])
  ++ (if (5 <? continueCount) && (continueCount <=? 10) then [WellDone] else [])
  ++ (if 10 <? continueCount then [Excellent] else []).

(** * Properties *)

(** ** Comparisons of draws *)

Lemma Qltb_lt (x y : Q) : Qltb x y = true <-> (x < y)%Q.
Proof.
  unfold Qltb. rewrite negb_true_iff, <- not_true_iff_false, Qle_bool_iff.
  split; [apply Qnot_le_lt | apply Qlt_not_le].
Qed.

Lemma Qltb_ge (x y : Q) : Qltb x y = false <-> (y <= x)%Q.
Proof. unfold Qltb. rewrite negb_false_iff. apply Qle_bool_iff. Qed.

(** ** Rounding to doubles *)

Section Rounding.

Local Open Scope Q_scope.

Lemma two_pow_pos (e : Z) : 0 < 2 ^ e.
Proof. apply Qpower_0_lt. reflexivity. Qed.

Lemma two_pow_plus (a b : Z) : 2 ^ (a + b) == 2 ^ a * 2 ^ b.
Proof. apply Qpower_plus. discriminate. Qed.

Lemma two_pow_inject (n : Z) : (0 <= n)%Z -> inject_Z (2 ^ n) == 2 ^ n.
Proof. intros H. apply (Zpower_Qpower 2 n H). Qed.

Lemma two_pow_le (a b : Z) : (a <= b)%Z -> 2 ^ a <= 2 ^ b.
Proof. intros H. apply Qpower_le_compat_l; [exact H | discriminate]. Qed.

Lemma two_pow_lt_inv (a b : Z) : 2 ^ a < 2 ^ b -> (a < b)%Z.
Proof. intros H. apply (Qpower_lt_compat_l_inv 2); [exact H | reflexivity]. Qed.

Lemma floorLog2_spec (q : Q) :
  0 < q -> 2 ^ floorLog2 q <= q /\ q < 2 ^ (floorLog2 q + 1).
Proof.
  intros Hq. unfold floorLog2.
  destruct q as [n d]. simpl Qnum. simpl Qden.
  assert (0 < n)%Z as Hn by (unfold Qlt in Hq; simpl in Hq; lia).
  pose proof (Z.log2_spec n Hn) as [Ha1 Ha2].
  pose proof (Z.log2_spec (Zpos d) (Pos2Z.is_pos d)) as [Hb1 Hb2].
  pose proof (Z.log2_nonneg n) as Ha0.
  pose proof (Z.log2_nonneg (Zpos d)) as Hb0.
  set (a := Z.log2 n) in *. set (b := Z.log2 (Zpos d)) in *.
  assert (n # d == inject_Z n / inject_Z (Zpos d)) as Hdiv by apply Qmake_Qdiv.
  assert (0 < inject_Z (Zpos d)) as Hd by reflexivity.
  assert (n # d < 2 ^ (a - b + 1)) as Hup.
  { rewrite Hdiv. apply Qlt_shift_div_r; [exact Hd|].
    apply Qlt_le_trans with (2 ^ (a - b + 1) * 2 ^ b).
    - rewrite <- two_pow_plus. replace (a - b + 1 + b)%Z with (Z.succ a) by lia.
      rewrite <- two_pow_inject by lia. rewrite <- Zlt_Qlt. exact Ha2.
    - apply Qmult_le_l; [apply two_pow_pos|].
      rewrite <- two_pow_inject by lia. rewrite <- Zle_Qle. exact Hb1. }
  assert (2 ^ (a - b - 1) <= n # d) as Hlow.
  { rewrite Hdiv. apply Qle_shift_div_l; [exact Hd|].
    apply Qle_trans with (2 ^ (a - b - 1) * 2 ^ (Z.succ b)).
    - apply Qmult_le_l; [apply two_pow_pos|].
      rewrite <- two_pow_inject by lia. rewrite <- Zle_Qle. lia.
    - rewrite <- two_pow_plus. replace (a - b - 1 + Z.succ b)%Z with a by lia.
      rewrite <- two_pow_inject by lia. rewrite <- Zle_Qle. exact Ha1. }
  destruct (Qle_bool (2 ^ (a - b)) (n # d)) eqn:E.
  - apply Qle_bool_iff in E. split; [exact E | exact Hup].
  - split; [exact Hlow|]. replace (a - b - 1 + 1)%Z with (a - b)%Z by lia.
    apply Qnot_le_lt. intros H. apply Qle_bool_iff in H. congruence.
Qed.

Lemma floorLog2_le (x y : Q) : 0 < x -> x <= y -> (floorLog2 x <= floorLog2 y)%Z.
Proof.
  intros Hx Hxy.
  destruct (floorLog2_spec x Hx) as [Hx1 _].
  destruct (floorLog2_spec y (Qlt_le_trans _ _ _ Hx Hxy)) as [_ Hy2].
  assert (2 ^ floorLog2 x < 2 ^ (floorLog2 y + 1)) as H.
  { apply Qle_lt_trans with x; [exact Hx1|].
    apply Qle_lt_trans with y; assumption. }
  apply two_pow_lt_inv in H. lia.
Qed.

Lemma roundHalfEven_bounds (m : Q) :
  (Qfloor m <= roundHalfEven m <= Qfloor m + 1)%Z.
Proof.
  unfold roundHalfEven.
  destruct (Qcompare _ _); [destruct (Z.even _)| |]; lia.
Qed.

Lemma roundHalfEven_le (m : Q) (N : Z) :
  m <= inject_Z N -> (roundHalfEven m <= N)%Z.
Proof.
  intros H. pose proof (Qfloor_resp_le _ _ H) as Hf. rewrite Qfloor_Z in Hf.
  destruct (Z.eq_dec (Qfloor m) N) as [E|E].
  - assert (m - inject_Z (Qfloor m) <= 0) as Hle by (rewrite E; lra).
    unfold roundHalfEven. cbv zeta.
    destruct (Qcompare_spec (m - inject_Z (Qfloor m)) (1 # 2)) as [H1|H1|H1];
      [exfalso; lra | lia | exfalso; lra].
  - pose proof (roundHalfEven_bounds m). lia.
Qed.

Lemma roundHalfEven_ge (m : Q) (N : Z) :
  inject_Z N <= m -> (N <= roundHalfEven m)%Z.
Proof.
  intros H. pose proof (Qfloor_resp_le _ _ H) as Hf. rewrite Qfloor_Z in Hf.
  pose proof (roundHalfEven_bounds m). lia.
Qed.

Lemma roundHalfEven_mono (m m' : Q) :
  m <= m' -> (roundHalfEven m <= roundHalfEven m')%Z.
Proof.
  intros H. pose proof (Qfloor_resp_le _ _ H) as Hf.
  pose proof (roundHalfEven_bounds m) as Hb.
  pose proof (roundHalfEven_bounds m') as Hb'.
  destruct (Z.eq_dec (Qfloor m) (Qfloor m')) as [E|E]; [|lia].
  unfold roundHalfEven in *. cbv zeta in *. rewrite <- E in *.
  destruct (Qcompare_spec (m - inject_Z (Qfloor m)) (1 # 2)) as [H1|H1|H1];
    destruct (Qcompare_spec (m' - inject_Z (Qfloor m)) (1 # 2)) as [H2|H2|H2];
    try lia; try (destruct (Z.even (Qfloor m)); lia); exfalso; lra.
Qed.

Lemma roundPositive_mono (x y : Q) :
  0 < x -> x <= y -> roundPositive x <= roundPositive y.
Proof.
  intros Hx Hxy. assert (0 < y) as Hy by lra.
  unfold roundPositive.
  pose proof (floorLog2_le x y Hx Hxy) as Hl.
  set (ex := Z.max (-1074) (floorLog2 x - 52)).
  set (ey := Z.max (-1074) (floorLog2 y - 52)).
  pose proof (two_pow_pos ex) as Pex. pose proof (two_pow_pos ey) as Pey.
  destruct (Z.eq_dec ex ey) as [E|E].
  - rewrite <- E. apply Qmult_le_compat_r; [|lra].
    rewrite <- Zle_Qle. apply roundHalfEven_mono.
    apply Qmult_le_compat_r; [exact Hxy|].
    apply Qlt_le_weak, Qinv_lt_0_compat, Pex.
  - assert (ex < ey)%Z as Hlt by lia.
    assert (ey = floorLog2 y - 52)%Z as Ey by lia.
    assert (floorLog2 x + 1 <= floorLog2 y)%Z as Hstep by lia.
    destruct (floorLog2_spec x Hx) as [_ Hx2].
    destruct (floorLog2_spec y Hy) as [Hy1 _].
    apply Qle_trans with (2 ^ (ey + 52)).
    + assert (2 ^ (ey + 52) == inject_Z (2 ^ (ey + 52 - ex)) * 2 ^ ex) as HB.
      { rewrite two_pow_inject by lia. rewrite <- two_pow_plus.
        replace (ey + 52 - ex + ex)%Z with (ey + 52)%Z by lia. reflexivity. }
      rewrite HB. apply Qmult_le_compat_r; [|lra].
      rewrite <- Zle_Qle. apply roundHalfEven_le.
      apply Qle_shift_div_r; [exact Pex|]. rewrite <- HB.
      apply Qlt_le_weak, Qlt_le_trans with (2 ^ (floorLog2 x + 1)); [exact Hx2|].
      apply two_pow_le. lia.
    + assert (2 ^ (ey + 52) == inject_Z (2 ^ 52) * 2 ^ ey) as HB.
      { rewrite two_pow_inject by lia. rewrite <- two_pow_plus.
        replace (52 + ey)%Z with (ey + 52)%Z by lia. reflexivity. }
      rewrite HB. apply Qmult_le_compat_r; [|lra].
      rewrite <- Zle_Qle. apply roundHalfEven_ge.
      apply Qle_shift_div_l; [exact Pey|]. rewrite <- HB.
      replace (ey + 52)%Z with (floorLog2 y) by lia. exact Hy1.
Qed.

Lemma roundPositive_nonneg (x : Q) : 0 < x -> 0 <= roundPositive x.
Proof.
  intros Hx. unfold roundPositive.
  apply Qmult_le_0_compat; [|apply Qlt_le_weak, two_pow_pos].
  change 0 with (inject_Z 0). rewrite <- Zle_Qle. apply roundHalfEven_ge.
  apply Qmult_le_0_compat; [lra|].
  apply Qlt_le_weak, Qinv_lt_0_compat, two_pow_pos.
Qed.

Lemma round64_nonneg (x : Q) : 0 <= x -> 0 <= round64 x.
Proof.
  intros Hx. unfold round64.
  destruct (Qcompare_spec x 0) as [H|H|H]; [lra | lra | apply roundPositive_nonneg; exact H].
Qed.

(** Rounding to the nearest double is monotone. *)
Lemma round64_mono (x y : Q) : 0 <= x -> x <= y -> round64 x <= round64 y.
Proof.
  intros Hx Hxy. unfold round64 at 1.
  destruct (Qcompare_spec x 0) as [H|H|H]; [|lra|].
  - apply round64_nonneg. lra.
  - unfold round64. destruct (Qcompare_spec y 0) as [H'|H'|H']; [lra | lra |].
    apply roundPositive_mono; assumption.
Qed.

Lemma round64_le_fixed (x c : Q) :
  0 <= x -> round64 c == c -> x <= c -> round64 x <= c.
Proof.
  intros Hx Hc H. apply Qle_trans with (round64 c).
  - apply round64_mono; assumption.
  - rewrite Hc. apply Qle_refl.
Qed.

Lemma round64_ge_fixed (x c : Q) :
  0 <= c -> round64 c == c -> c <= x -> c <= round64 x.
Proof.
  intros H0 Hc H. apply Qle_trans with (round64 c).
  - rewrite Hc. apply Qle_refl.
  - apply round64_mono; assumption.
Qed.

(** The weights, their partial sums and the factors of the products are
    doubles. *)
Lemma round64_fixed :
  Forall (fun c => round64 c == c) [0; 1; 99 # 4; 97 # 2; 289 # 4; 96; 201 # 2; 3].
Proof. repeat constructor. Qed.

End Rounding.

(** ** Symbol generator *)

Section Generator.

Local Open Scope Q_scope.

(** The loop returns the symbol of the first entry at which the running
    remainder is not positive; the remainder at entry [i] is the draw minus
    the weights of entries [0..i]. *)
Lemma scanWeights_first (entries : list (Symbol * Q)) (random : Q) (symbol : Symbol) :
  scanWeights entries random = Some symbol ->
  exists i weight,
    entries !! i = Some (symbol, weight)
    /\ random - fold_right Qplus 0 (map snd (take (S i) entries)) <= 0
    /\ forall j, (j < i)%nat ->
         0 < random - fold_right Qplus 0 (map snd (take (S j) entries)).
Proof.
  revert random. induction entries as [|[s w] rest IH]; intros random; simpl.
  - discriminate.
  - destruct (Qle_bool (random - w) 0) eqn:E.
    + intros [= <-]. exists 0%nat, w. split; [reflexivity|]. split.
      * apply Qle_bool_iff in E. simpl. lra.
      * intros j Hj. lia.
    + intros Hscan. destruct (IH _ Hscan) as (i & weight & Hi & Hle & Hlt).
      exists (S i), weight. split; [exact Hi|]. split.
      * simpl in *. lra.
      * intros [|j] Hj.
        -- assert (~ random - w <= 0) as Hn
             by (rewrite <- Qle_bool_iff, E; discriminate).
           simpl. lra.
        -- specialize (Hlt j ltac:(lia)). simpl in *. lra.
Qed.

(** The loop runs off a table only when the draw exceeds the sum of all
    its weights. *)
Lemma scanWeights_exhausted (entries : list (Symbol * Q)) (random : Q) :
  entries <> [] ->
  scanWeights entries random = None ->
  fold_right Qplus 0 (map snd entries) < random.
Proof.
  revert random. induction entries as [|[s w] rest IH]; intros random Hne; simpl.
  - congruence.
  - destruct (Qle_bool (random - w) 0) eqn:E; [discriminate|].
    assert (~ random - w <= 0) as Hn by (rewrite <- Qle_bool_iff, E; discriminate).
    destruct rest as [|e rest'].
    + intros _. simpl. lra.
    + intros Hscan. specialize (IH (random - w) ltac:(discriminate) Hscan). lra.
Qed.

Lemma totalWeight_value : totalWeight == 201 # 2.
Proof. reflexivity. Qed.

Lemma cumulativeWeight_all :
  fold_right Qplus 0 (map snd BASE_SYMBOL_WEIGHTS) == totalWeight.
Proof. reflexivity. Qed.

Lemma scanWeights_table_symbol (entries : list (Symbol * Q)) (random : Q) (symbol : Symbol) :
  scanWeights entries random = Some symbol -> symbol ∈ map fst entries.
Proof.
  revert random. induction entries as [|[s w] rest IH]; intros random; simpl.
  - discriminate.
  - destruct (Qle_bool (random - w) 0).
    + intros [= <-]. apply list_elem_of_here.
    + intros H. apply list_elem_of_further. eauto.
Qed.

Lemma selectSymbol_member (random : Q) : selectSymbol random ∈ SYMBOLS.
Proof.
  unfold selectSymbol.
  destruct (scanWeights BASE_SYMBOL_WEIGHTS random) as [symbol|] eqn:E.
  - apply scanWeights_table_symbol in E. exact E.
  - unfold SYMBOLS. apply list_elem_of_further, list_elem_of_here.
Qed.

(** A draw of [Math.random()], scaled, does not exceed the total weight. *)
Lemma scaled_draw_range (u : Q) :
  0 <= u < 1 -> 0 <= fmul u totalWeight <= totalWeight.
Proof.
  intros [H0 H1]. unfold fmul.
  assert (0 <= u * totalWeight <= totalWeight) as [Hp Hle]
    by (rewrite totalWeight_value; split; lra).
  split; [by apply round64_nonneg|].
  assert (round64 totalWeight == totalWeight) as Hfix by reflexivity.
  rewrite <- Hfix at 2. by apply round64_mono.
Qed.

Lemma scaled_draw_selected (u : Q) :
  0 <= u < 1 -> scanWeights BASE_SYMBOL_WEIGHTS (fmul u totalWeight) <> None.
Proof.
  intros Hu E. apply scaled_draw_range in Hu as [_ Hle].
  apply scanWeights_exhausted in E; [|discriminate].
  rewrite cumulativeWeight_all in E. lra.
Qed.

(** C6.  For every draw [random] with [0 <= random <= totalWeight] the
    generator returns the symbol of the first entry of the weight table, in
    table order, at which the draw minus the running cumulative weight is
    not positive.  For every draw whatsoever it returns one of the six
    symbols; when the loop runs off the table (which takes a draw above the
    total weight) the symbol is the fallback, the lemon.  The draw of the
    generator is the product, rounded to a double, of the value of
    [Math.random()] and the total weight; it does not exceed the total
    weight. *)
Theorem generateWeightedSymbol_selects (random : Q) :
  (0 <= random <= totalWeight ->
   exists i symbol weight,
     BASE_SYMBOL_WEIGHTS !! i = Some (symbol, weight)
     /\ selectSymbol random = symbol
     /\ random - cumulativeWeight (S i) <= 0
     /\ forall j, (j < i)%nat -> 0 < random - cumulativeWeight (S j))
  /\ selectSymbol random ∈ SYMBOLS
  /\ (scanWeights BASE_SYMBOL_WEIGHTS random = None ->
      selectSymbol random = Lemon /\ totalWeight < random)
  /\ (forall u, generateWeightedSymbol u = selectSymbol (fmul u totalWeight)
                /\ generateWeightedSymbol u ∈ SYMBOLS
                /\ (0 <= u < 1 ->
                    0 <= fmul u totalWeight <= totalWeight
                    /\ scanWeights BASE_SYMBOL_WEIGHTS (fmul u totalWeight) <> None)).
Proof.
  split; [|split; [|split]].
  - intros [H0 Hlt]. unfold selectSymbol.
    destruct (scanWeights BASE_SYMBOL_WEIGHTS random) as [symbol|] eqn:E.
    + destruct (scanWeights_first _ _ _ E) as (i & weight & Hi & Hle & Hgt).
      exists i, symbol, weight. unfold cumulativeWeight. auto.
    + apply scanWeights_exhausted in E; [|discriminate].
      rewrite cumulativeWeight_all in E. lra.
  - apply selectSymbol_member.
  - intros E. split.
    + unfold selectSymbol. rewrite E. reflexivity.
    + apply scanWeights_exhausted in E; [|discriminate].
      rewrite cumulativeWeight_all in E. exact E.
  - intros u. split; [reflexivity|]. split.
    + apply selectSymbol_member.
    + intros Hu. split; [by apply scaled_draw_range | by apply scaled_draw_selected].
Qed.

Lemma generateWeightedSymbol_selects_witness :
  (0 <= 201 # 4 <= totalWeight)
  /\ exists i symbol weight,
       BASE_SYMBOL_WEIGHTS !! i = Some (symbol, weight)
       /\ selectSymbol (201 # 4) = symbol
       /\ (201 # 4) - cumulativeWeight (S i) <= 0
       /\ forall j, (j < i)%nat -> 0 < (201 # 4) - cumulativeWeight (S j).
Proof.
  assert (0 <= 201 # 4 <= totalWeight) as H.
  { split; discriminate. }
  split; [exact H|].
  exact (proj1 (generateWeightedSymbol_selects (201 # 4)) H).
Defined.

Example selectSymbol_examples :
  selectSymbol 0 = Cherry /\ selectSymbol 1 = Cherry
  /\ selectSymbol (5 # 4) = Lemon /\ selectSymbol (201 # 4) = Diamond
  /\ selectSymbol (96 # 1) = Bell /\ selectSymbol (100 # 1) = Star
  /\ selectSymbol (201 # 2) = Star /\ selectSymbol (101 # 1) = Lemon.
Proof. repeat split; reflexivity. Qed.

(** C10.  For every draw in [0, 1) [checkPremiumFlag] returns true: the draw
    is compared against 1.  A caller that gates the forced premium symbol
    set on it takes the forced branch on every evaluation. *)
Theorem checkPremiumFlag_always (u : Q) :
  0 <= u -> u < 1 ->
  checkPremiumFlag u = true
  /\ forall (A : Type) (forced normal : A),
       (if checkPremiumFlag u then forced else normal) = forced.
Proof.
  intros _ H1.
  assert (checkPremiumFlag u = true) as E by (apply Qltb_lt; exact H1).
  split; [exact E|]. intros A forced normal. rewrite E. reflexivity.
Qed.

Lemma checkPremiumFlag_always_witness :
  checkPremiumFlag (318 # 319) = true
  /\ forall (A : Type) (forced normal : A),
       (if checkPremiumFlag (318 # 319) then forced else normal) = forced.
Proof.
  apply (checkPremiumFlag_always (318 # 319)); [discriminate | reflexivity].
Defined.

End Generator.

(** ** Outcome classifier *)

Lemma checkSmallYakuMatch_spec (symbols : list Slot) :
  checkSmallYakuMatch symbols = true <->
  exists x, symbols = [x; x; x] /\ x <> Sym Cherry /\ x <> Sym Star.
Proof.
  unfold checkSmallYakuMatch. split.
  - destruct symbols as [|a [|b [|c [|d rest]]]]; simpl; try discriminate.
    rewrite !andb_true_iff, !bool_decide_eq_true.
    intros [[[Hab Hbc] Hc] Hs]. simplify_eq.
    exists c. split; [reflexivity|]. split; congruence.
  - intros (x & -> & Hc & Hs). simpl.
    rewrite !andb_true_iff, !bool_decide_eq_true.
    repeat split; congruence.
Qed.

Lemma isPremiumFlag_spec (symbols : list Slot) :
  isPremiumFlag symbols = true <-> symbols = [Sym Star; Sym Star; Sym Star].
Proof.
  unfold isPremiumFlag. split.
  - destruct symbols as [|a [|b [|c [|d rest]]]]; simpl; try discriminate.
    rewrite !andb_true_iff, !bool_decide_eq_true.
    intros (Ha & Hb & Hc & _). congruence.
  - intros ->. reflexivity.
Qed.

(** No value a slot can be is the literal that [stopReel] and
    [checkRoundResult] look for. *)
Lemma cherryLiteral_no_slot (slot : Slot) : slotText slot <> Some cherryLiteral.
Proof. destruct slot as [| |[]]; intros H; vm_compute in H; discriminate H. Qed.

Lemma cherryLiteral_filter (spinResult : list Slot) :
  filter (fun s => slotText s = Some cherryLiteral) spinResult = [].
Proof.
  induction spinResult as [|x spinResult IH]; [reflexivity|].
  rewrite filter_cons. destruct (decide (slotText x = Some cherryLiteral)) as [H|H].
  - by apply cherryLiteral_no_slot in H.
  - exact IH.
Qed.

Lemma cherryLiteral_includes (spinResult : list Slot) :
  bool_decide (Some cherryLiteral ∈ map slotText spinResult) = false.
Proof.
  apply bool_decide_eq_false. intros H.
  apply list_elem_of_fmap in H as (slot & Hs & _).
  symmetry in Hs. by apply cherryLiteral_no_slot in Hs.
Qed.

(** The loop of [checkRoundResult] from any intermediate values of its three
    variables. *)
Lemma classify_from (c : Classification) (record : list (list Slot)) :
  let c' := fold_left classifySpin record c in
  cherryCount c' =
    (cherryCount c
     + length (filter (fun s => slotText s = Some cherryLiteral) (concat record)))%nat
  /\ hasSmallYaku c' = hasSmallYaku c || existsb checkSmallYakuMatch record
  /\ hasPremiumFlag c' = hasPremiumFlag c || existsb isPremiumFlag record.
Proof.
  revert c. induction record as [|spin record IH]; intros c; simpl.
  - rewrite !orb_false_r. repeat split. lia.
  - destruct (IH (classifySpin c spin)) as (Hc & Hy & Hp).
    rewrite Hc, Hy, Hp. simpl. rewrite filter_app, length_app.
    repeat split.
    + lia.
    + destruct (checkSmallYakuMatch spin), (hasSmallYaku c); reflexivity.
    + destruct (isPremiumFlag spin), (hasPremiumFlag c); reflexivity.
Qed.

Lemma classify_cherryCount (record : list (list Slot)) :
  cherryCount (classify record) =
  length (filter (fun s => slotText s = Some cherryLiteral) (concat record)).
Proof. unfold classify. by destruct (classify_from (mkClassification 0 false false) record) as (-> & _ & _). Qed.

Lemma classify_hasSmallYaku (record : list (list Slot)) :
  hasSmallYaku (classify record) = existsb checkSmallYakuMatch record.
Proof. unfold classify. by destruct (classify_from (mkClassification 0 false false) record) as (_ & -> & _). Qed.

Lemma classify_hasPremiumFlag (record : list (list Slot)) :
  hasPremiumFlag (classify record) = existsb isPremiumFlag record.
Proof. unfold classify. by destruct (classify_from (mkClassification 0 false false) record) as (_ & _ & ->). Qed.

(** The loop of [checkRoundResult] finds no cherry in any record. *)
Lemma classify_no_cherry (record : list (list Slot)) :
  cherryCount (classify record) = 0%nat.
Proof. by rewrite classify_cherryCount, cherryLiteral_filter. Qed.

(** [countCherries] of gameLogic.ts, which the component imports without
    calling it, counts the cherries. *)
Lemma countCherries_filter (record : list (list Slot)) :
  countCherries record = length (filter (fun s => s = Sym Cherry) (concat record)).
Proof.
  unfold countCherries.
  assert (forall reel n,
    fold_left (fun count symbol =>
                 if bool_decide (symbol = Sym Cherry) then S count else count)
              reel n
    = (n + length (filter (fun s => s = Sym Cherry) reel))%nat) as Hin.
  { induction reel as [|x reel IH]; intros n; simpl; [lia|].
    rewrite IH, filter_cons. case_bool_decide; case_decide; simpl; try lia; done. }
  assert (forall n,
    fold_left (fun count reel =>
       fold_left (fun count symbol =>
                    if bool_decide (symbol = Sym Cherry) then S count else count)
                 reel count) record n
    = (n + length (filter (fun s => s = Sym Cherry) (concat record)))%nat) as Hout.
  { induction record as [|reel record IH]; intros n; simpl; [lia|].
    rewrite IH, Hin, filter_app, length_app. lia. }
  apply (Hout 0%nat).
Qed.

Lemma existsb_elem_of {A} (f : A -> bool) (l : list A) :
  existsb f l = true <-> exists x, x ∈ l /\ f x = true.
Proof.
  rewrite existsb_exists. split; intros (x & Hx & Hf); exists x; split; auto;
    by apply list_elem_of_In.
Qed.





(** What the classification of the code is on the scenarios of the
    specification: the cherries go uncounted. *)
Example classify_scenarios :
  classify [[Sym Cherry; Sym Grape; Sym Bell]]
    = {| cherryCount := 0; hasSmallYaku := false; hasPremiumFlag := false |}
  /\ classify [[Sym Diamond; Sym Diamond; Sym Diamond]]
    = {| cherryCount := 0; hasSmallYaku := true; hasPremiumFlag := false |}
  /\ classify [[Sym Star; Sym Star; Sym Star]]
    = {| cherryCount := 0; hasSmallYaku := false; hasPremiumFlag := true |}
  /\ classify [[Sym Lemon; Sym Bell; Sym Bell]; [Sym Cherry; Sym Cherry; Sym Cherry]]
    = {| cherryCount := 0; hasSmallYaku := false; hasPremiumFlag := false |}.
Proof. repeat split; vm_compute; reflexivity. Qed.

(** ** Continuation resolver *)

Lemma if_Qltb_cases {A} (x y : Q) (a b : A) :
  a <> b ->
  ((if Qltb x y then a else b) = a <-> (x < y)%Q)
  /\ ((if Qltb x y then a else b) = b <-> (y <= x)%Q).
Proof.
  intros Hab. destruct (Qltb x y) eqn:E.
  - pose proof (proj1 (Qltb_lt x y) E) as Hlt. split; split; intros H; try congruence.
    + exfalso. apply (Qlt_not_le _ _ Hlt H).
  - pose proof (proj1 (Qltb_ge x y) E) as Hge. split; split; intros H; try congruence.
    + exfalso. apply (Qlt_not_le _ _ H Hge).
Qed.

(** C1.  The resolver decides by first match: a premium flag gives the
    premium sub-event; otherwise three or more cherries give the bonus reveal
    unconditionally; otherwise two cherries give the bonus reveal exactly
    when the draw is below 0.3 and the plain continuation otherwise;
    otherwise one cherry gives the plain continuation; otherwise a small yaku
    gives the bonus reveal exactly when the draw is below 0.2 and the plain
    continuation otherwise; otherwise the round continues exactly when the
    draw is below the continue rate and terminates otherwise.  Termination
    therefore needs no cherry, no small yaku and no premium flag. *)
Theorem resolve_priority (continueRate : Q) (c : Classification) (u : Q) :
  let outcome := resolve continueRate c u in
  (hasPremiumFlag c = true -> outcome = PremiumSubEvent)
  /\ (hasPremiumFlag c = false -> (3 <= cherryCount c)%nat ->
      outcome = ContinueWithBonusReveal (cherryCount c))
  /\ (hasPremiumFlag c = false -> cherryCount c = 2%nat ->
      (outcome = ContinueWithBonusReveal 2 <-> (u < 3 # 10)%Q)
      /\ (outcome = Continue <-> (3 # 10 <= u)%Q))
  /\ (hasPremiumFlag c = false -> cherryCount c = 1%nat -> outcome = Continue)
  /\ (hasPremiumFlag c = false -> cherryCount c = 0%nat -> hasSmallYaku c = true ->
      (outcome = ContinueWithBonusReveal 1 <-> (u < 1 # 5)%Q)
      /\ (outcome = Continue <-> (1 # 5 <= u)%Q))
  /\ (hasPremiumFlag c = false -> cherryCount c = 0%nat -> hasSmallYaku c = false ->
      (outcome = Continue <-> (u < continueRate)%Q)
      /\ (outcome = Terminate <-> (continueRate <= u)%Q))
  /\ (outcome = Terminate ->
      cherryCount c = 0%nat /\ hasSmallYaku c = false /\ hasPremiumFlag c = false).
Proof.
  destruct c as [n y p]. unfold resolve. simpl.
  repeat split.
  - intros ->. reflexivity.
  - intros -> Hn. destruct n as [|[|[|n]]]; try lia. reflexivity.
  - subst. simpl in *. by apply if_Qltb_cases.
  - subst. simpl in *. by apply if_Qltb_cases.
  - subst. simpl in *. by apply if_Qltb_cases.
  - subst. simpl in *. by apply if_Qltb_cases.
  - intros -> ->. reflexivity.
  - subst. simpl in *. by apply if_Qltb_cases.
  - subst. simpl in *. by apply if_Qltb_cases.
  - subst. simpl in *. by apply if_Qltb_cases.
  - subst. simpl in *. by apply if_Qltb_cases.
  - subst. simpl in *. by apply if_Qltb_cases.
  - subst. simpl in *. by apply if_Qltb_cases.
  - subst. simpl in *. by apply if_Qltb_cases.
  - subst. simpl in *. by apply if_Qltb_cases.
  - destruct p; [discriminate|]. destruct n as [|[|[|n]]]; simpl; try discriminate;
      [reflexivity | destruct (Qltb u (3 # 10)); discriminate].
  - destruct p; [discriminate|]. destruct n as [|[|[|n]]]; simpl; try discriminate.
    + destruct y; [destruct (Qltb u (1 # 5)); discriminate | reflexivity].
    + destruct (Qltb u (3 # 10)); discriminate.
  - destruct p; [discriminate | reflexivity].
Qed.

(** ** Stopping a reel *)

Lemma spinning_lookup (flags : list bool) (i : nat) :
  default false (flags !! i) = true <-> flags !! i = Some true.
Proof. destruct (flags !! i) as [[|]|]; simpl; split; congruence. Qed.

Lemma stopReel_idle (continueRate : Q) (i : nat) (u : Q) (w : World) :
  isSpinning (ui w) !! i <> Some true -> stopReel continueRate i u w = w.
Proof.
  intros H. unfold stopReel.
  destruct (default false (isSpinning (ui w) !! i)) eqn:E; [|reflexivity].
  apply spinning_lookup in E. contradiction.
Qed.

(** The flags and the reels that a call let through by the guard leaves. *)
Lemma stopReel_arrays (continueRate : Q) (i : nat) (u : Q) (w : World) :
  isSpinning (ui w) !! i = Some true ->
  isSpinning (ui (stopReel continueRate i u w)) = <[i := false]> (isSpinning (ui w))
  /\ reels (ui (stopReel continueRate i u w))
     = <[i := Sym (generateWeightedSymbol u)]> (reels (ui w))
  /\ remainingStops (ui (stopReel continueRate i u w)) = remainingStops (ui w) - 1
  /\ continueCount (ui (stopReel continueRate i u w)) = continueCount (ui w).
Proof.
  intros H. unfold stopReel. rewrite H. simpl.
  destruct (forallb negb _); [destruct (_ || _)|]; simpl; auto.
Qed.

(** C5.  A call of [stopReel] on a reel that is not spinning, whether it has
    been stopped or no spin is under way, returns the state it was given:
    reels, flags, record, remaining stops, continue count, pending timeouts
    and trace are all untouched.  Stopping the same reel twice in a row
    leaves what the first call left: no second symbol, no second entry. *)
Theorem stopReel_not_spinning_noop (continueRate : Q) (i : nat) (u u' : Q) (w : World) :
  (isSpinning (ui w) !! i <> Some true ->
   stopReel continueRate i u w = w
   /\ step continueRate w (StopClicked i u) = w)
  /\ ((forall j, isSpinning (ui w) !! j <> Some true) ->
      forall j, stopReel continueRate j u w = w
                /\ handleKeyPress continueRate u w = w)
  /\ stopReel continueRate i u' (stopReel continueRate i u w)
     = stopReel continueRate i u w.
Proof.
  split; [|split].
  - intros H. split; apply stopReel_idle; exact H.
  - intros H j. split; [apply stopReel_idle, H|].
    unfold handleKeyPress.
    destruct (list_find _ _) as [[k b]|] eqn:E; [|reflexivity].
    apply stopReel_idle, H.
  - destruct (decide (isSpinning (ui w) !! i = Some true)) as [Hs|Hs].
    + apply stopReel_idle.
      destruct (stopReel_arrays continueRate i u w Hs) as (-> & _).
      rewrite list_lookup_insert_eq; [discriminate|].
      by eapply lookup_lt_Some.
    + rewrite (stopReel_idle _ _ u w Hs). by apply stopReel_idle.
Qed.

Lemma stopReel_not_spinning_noop_witness :
  let w := run (7 # 10) mounted [StopClicked 1 (1 # 2)] in
  stopReel (7 # 10) 1 (1 # 3) w = w
  /\ step (7 # 10) w (StopClicked 1 (1 # 3)) = w.
Proof.
  apply (stopReel_not_spinning_noop (7 # 10) 1 (1 # 3) 0
           (run (7 # 10) mounted [StopClicked 1 (1 # 2)])).
  vm_compute. discriminate.
Defined.

(** C9.  The symbol a stopped reel receives is the one the generator makes
    of the draw; the continue rate handed to the generator at the call is
    dropped.  Two sessions with different rates that stop a spinning reel on
    the same draw get the same symbol, whatever their states, and one state
    is taken to the same state under either rate. *)
Theorem stopReel_ignores_continueRate (rate1 rate2 : Q) (i : nat) (u : Q)
    (w1 w2 : World) :
  isSpinning (ui w1) !! i = Some true ->
  isSpinning (ui w2) !! i = Some true ->
  (i < length (reels (ui w1)))%nat ->
  (i < length (reels (ui w2)))%nat ->
  reels (ui (stopReel rate1 i u w1)) !! i = Some (Sym (generateWeightedSymbol u))
  /\ reels (ui (stopReel rate2 i u w2)) !! i = Some (Sym (generateWeightedSymbol u))
  /\ stopReel rate1 i u w1 = stopReel rate2 i u w1
  /\ callWithSurplus generateWeightedSymbol rate1 u
     = callWithSurplus generateWeightedSymbol rate2 u.
Proof.
  intros H1 H2 L1 L2.
  destruct (stopReel_arrays rate1 i u w1 H1) as (_ & -> & _).
  destruct (stopReel_arrays rate2 i u w2 H2) as (_ & -> & _).
  rewrite !list_lookup_insert_eq by assumption.
  repeat split; reflexivity.
Qed.

Lemma stopReel_ignores_continueRate_witness :
  let w1 := mounted in
  let w2 := run (99 # 100) mounted [StopClicked 0 (1 # 2)] in
  reels (ui (stopReel (29 # 100) 2 (3 # 4) w1)) !! 2%nat
    = Some (Sym (generateWeightedSymbol (3 # 4)))
  /\ reels (ui (stopReel (99 # 100) 2 (3 # 4) w2)) !! 2%nat
    = Some (Sym (generateWeightedSymbol (3 # 4)))
  /\ stopReel (29 # 100) 2 (3 # 4) w1 = stopReel (99 # 100) 2 (3 # 4) w1
  /\ callWithSurplus generateWeightedSymbol (29 # 100) (3 # 4)
     = callWithSurplus generateWeightedSymbol (99 # 100) (3 # 4).
Proof.
  apply (stopReel_ignores_continueRate (29 # 100) (99 # 100) 2 (3 # 4) mounted
           (run (99 # 100) mounted [StopClicked 0 (1 # 2)]));
    vm_compute; (reflexivity || lia).
Defined.

(** ** The invariant of the component *)

#[local] Arguments generateWeightedSymbol : simpl never.
#[local] Arguments callWithSurplus : simpl never.
#[local] Arguments qualifies : simpl never.
#[local] Arguments classify : simpl never.
#[local] Arguments resolve : simpl never.

Lemma flags_all_stopped (flags : list bool) :
  length flags = 3%nat -> forallb negb flags = true -> flags = allStopped.
Proof.
  destruct flags as [|a [|b [|c [|d rest]]]]; try discriminate.
  destruct a, b, c; simpl; intros _ H; try discriminate. reflexivity.
Qed.

Lemma flags_some_spinning (flags : list bool) :
  forallb negb flags = false -> exists j, flags !! j = Some true.
Proof.
  induction flags as [|b flags IH]; simpl; [discriminate|].
  destruct b; simpl.
  - intros _. exists 0%nat. reflexivity.
  - intros H. destruct (IH H) as [j Hj]. exists (S j). exact Hj.
Qed.

Lemma allStopped_lookup (i : nat) : allStopped !! i <> Some true.
Proof. destruct i as [|[|[|i]]]; discriminate. Qed.

Lemma rounds_observe (o : Obs) (tr : list Obs) (current : list Obs) (past : list (list Obs)) :
  rounds tr = current :: past ->
  o <> RoundStarted ->
  rounds (o :: tr) = (o :: current) :: past.
Proof. intros H Ho. destruct o; simpl; rewrite ?H; congruence. Qed.

(** Run the setters of a handler: every cell of the state the handler
    leaves is written in terms of the cells of the state it was given. *)
Ltac run_handlers :=
  cbv beta iota zeta delta
    [checkRoundResult showBlackoutAndProceed showBlackoutAndEnd
     handleDrinkModalClose handlePremiumModalClose startNewRound
     setRemainingStops setContinueCount setReels setIsSpinning
     setCurrentSpinIndex setShowDrinkModal setDrinkCount setShowRushEffect
     setRushNumber setAllSpinResults setShowGameOver setShowPremiumModal
     setPremiumModal setTimeout observe withUi
     ui timeouts premiumModal trace
     remainingStops continueCount reels isSpinning currentSpinIndex
     showDrinkModal drinkCount showRushEffect rushNumber allSpinResults
     showGameOver showPremiumModal
     Inv spinning settled resolved ended].

Lemma Inv_mounted : Inv mounted.
Proof.
  unfold Inv. simpl. repeat split; try reflexivity; try lia.
  exists [SpinStarted 0], []. repeat split; [constructor|].
  left. exists 0%nat. simpl. repeat split; try constructor; try lia.
  exists 0%nat. reflexivity.
Qed.

Lemma Inv_intro (w : World) (current : list Obs) (past : list (list Obs)) :
  length (reels (ui w)) = 3%nat ->
  length (isSpinning (ui w)) = 3%nat ->
  0 <= continueCount (ui w) ->
  rounds (trace w) = current :: past ->
  Forall closedRound past ->
  (spinning w current \/ settled w current \/ resolved w current \/ ended w current) ->
  Inv w.
Proof. intros. unfold Inv. eauto 10. Qed.

Lemma Inv_checkRoundResult (continueRate : Q) (u : Q) (w : World)
    (k : nat) (record : list (list Slot)) (s : list Slot)
    (before : list Obs) (past : list (list Obs)) :
  length (reels (ui w)) = 3%nat ->
  length (isSpinning (ui w)) = 3%nat ->
  0 <= continueCount (ui w) ->
  rounds (trace w) = (SpinSettled s :: before) :: past ->
  Forall closedRound past ->
  openRound k record before -> (k <= 2)%nat ->
  (qualifies s = false -> k = 2%nat) ->
  isSpinning (ui w) = allStopped ->
  premiumModal w = None -> showDrinkModal (ui w) = false ->
  timeouts w = [] ->
  Inv (checkRoundResult continueRate (record ++ [s]) u w).
Proof.
  destruct w as [[rs cc rl sp idx sdm dc sre rn asr sgo spm] tos pm tr].
  simpl. intros Lr Ls Hc Hr Hp Ho Hk Hq Hsp Hpm Hdm Hto. subst.
  assert (closedRound (RoundCompleted (record ++ [s]) :: SpinSettled s :: before)) as Hcl.
  { exists k, record, s, before. auto. }
  unfold checkRoundResult.
  destruct (resolve continueRate (classify (record ++ [s])) u);
    (eapply Inv_intro;
     [run_handlers; exact Lr | run_handlers; exact Ls | run_handlers; try exact Hc; lia
     | run_handlers; apply rounds_observe; [exact Hr | discriminate]
     | exact Hp
     | right; right; left; run_handlers; split; [exact Hcl|]; split; [reflexivity|] ]).
  - right; left. eauto.
  - left. auto.
  - right; right; left. auto.
  - right; right; right. auto.
Qed.

(** [stopReel] on a spinning reel, with its setters run. *)
Lemma stopReel_spinning (continueRate : Q) (i : nat) (u : Q) (w : World) :
  isSpinning (ui w) !! i = Some true ->
  let s := ui w in
  let newReels := <[i := Sym (generateWeightedSymbol u)]> (reels s) in
  let newSpinning := <[i := false]> (isSpinning s) in
  let newAllSpinResults := allSpinResults s ++ [newReels] in
  let stopped (record : list (list Slot)) :=
    mkState (remainingStops s - 1) (continueCount s) newReels newSpinning
      (currentSpinIndex s) (showDrinkModal s) (drinkCount s)
      (showRushEffect s) (rushNumber s) record (showGameOver s)
      (showPremiumModal s) in
  stopReel continueRate i u w =
    if forallb negb newSpinning then
      mkWorld (stopped newAllSpinResults)
        (timeouts w ++
           [if qualifies newReels then TCheckRound newAllSpinResults
            else TNextSpinOrCheck (currentSpinIndex s) newAllSpinResults])
        (premiumModal w) (SpinSettled newReels :: trace w)
    else
      mkWorld (stopped (allSpinResults s)) (timeouts w) (premiumModal w) (trace w).
Proof.
  destruct w as [[rs cc rl sp idx sdm dc sre rn asr sgo spm] tos pm tr].
  cbv beta iota zeta delta [ui isSpinning stopReel]. intros ->.
  change (negb (default false (Some true))) with false.
  cbv beta iota zeta delta [callWithSurplus].
  destruct (forallb negb (<[i:=false]> sp)); [|reflexivity].
  change (bool_decide (Some cherryLiteral ∈ map slotText ?r) || checkSmallYakuMatch ?r)
    with (qualifies r).
  destruct (qualifies _); reflexivity.
Qed.

Lemma Inv_stopReel (continueRate : Q) (i : nat) (u : Q) (w : World) :
  Inv w -> Inv (stopReel continueRate i u w).
Proof.
  intros HI.
  destruct (decide (isSpinning (ui w) !! i = Some true)) as [Hs|Hs];
    [|by rewrite stopReel_idle].
  rewrite (stopReel_spinning _ _ _ _ Hs).
  destruct HI as (Lr & Ls & Hc & current & past & Hr & Hp & Hphase).
  destruct Hphase as [Hph|[Hph|[Hph|Hph]]].
  2: { destruct Hph as (? & ? & ? & ? & _ & _ & _ & Hst & _).
       rewrite Hst in Hs. by destruct (allStopped_lookup i). }
  2: { destruct Hph as (_ & Hst & _).
       rewrite Hst in Hs. by destruct (allStopped_lookup i). }
  2: { destruct Hph as (? & _ & _ & Hst & _).
       rewrite Hst in Hs. by destruct (allStopped_lookup i). }
  destruct Hph as (k & Ho & Hk & Hidx & Hto & Hpm & Hdm & _).
  destruct w as [[rs cc rl sp idx sdm dc sre rn asr sgo spm] tos pm tr].
  simpl in *. subst k tos pm sdm.
  set (newReels := <[i := Sym (generateWeightedSymbol u)]> rl).
  set (newSpinning := <[i := false]> sp).
  assert (length newReels = 3%nat) as Lr' by (unfold newReels; by rewrite length_insert).
  assert (length newSpinning = 3%nat) as Ls'
    by (unfold newSpinning; by rewrite length_insert).
  destruct (forallb negb newSpinning) eqn:Eall.
  - apply flags_all_stopped in Eall; [|exact Ls'].
    eapply Inv_intro; simpl; try eassumption.
    + by rewrite Hr.
    + right; left. exists idx, asr, newReels, current.
      unfold settled. simpl.
      repeat (split; [first [assumption | reflexivity]|]).
      destruct (qualifies newReels); auto.
  - apply flags_some_spinning in Eall.
    eapply Inv_intro; simpl; try eassumption.
    left. exists idx. simpl. auto 10.
Qed.

Lemma Inv_handleKeyPress (continueRate : Q) (u : Q) (w : World) :
  Inv w -> Inv (handleKeyPress continueRate u w).
Proof.
  intros HI. unfold handleKeyPress.
  destruct (list_find _ _) as [[j b]|]; [by apply Inv_stopReel | exact HI].
Qed.

Lemma Inv_showBlackoutAndProceed (w : World) (current : list Obs)
    (past : list (list Obs)) :
  length (reels (ui w)) = 3%nat ->
  length (isSpinning (ui w)) = 3%nat ->
  0 <= continueCount (ui w) ->
  rounds (trace w) = current :: past ->
  Forall closedRound past ->
  closedRound current ->
  isSpinning (ui w) = allStopped ->
  showDrinkModal (ui w) = false -> premiumModal w = None -> timeouts w = [] ->
  Inv (showBlackoutAndProceed w).
Proof.
  destruct w as [[rs cc rl sp idx sdm dc sre rn asr sgo spm] tos pm tr].
  simpl. intros Lr Ls Hc Hr Hp Hcl Hst Hdm Hpm Hto. subst.
  eapply Inv_intro; run_handlers; try eassumption; [lia|].
  right; right; left. run_handlers. split; [exact Hcl|]. split; [reflexivity|].
  right; right; left. auto.
Qed.

Lemma Inv_startNewRound (w : World) (current : list Obs) (past : list (list Obs)) :
  0 <= continueCount (ui w) ->
  rounds (trace w) = current :: past ->
  Forall closedRound (current :: past) ->
  showDrinkModal (ui w) = false -> premiumModal w = None -> timeouts w = [] ->
  Inv (startNewRound w).
Proof.
  destruct w as [[rs cc rl sp idx sdm dc sre rn asr sgo spm] tos pm tr].
  simpl. intros Hc Hr Hp Hdm Hpm Hto. subst.
  unfold startNewRound, startSpin. change (3 <=? 0)%nat with false.
  eapply Inv_intro with (current := [SpinStarted 0]) (past := current :: past);
    run_handlers;
    try reflexivity; try eassumption.
  - simpl. by rewrite Hr.
  - left. run_handlers. exists 0%nat.
    split; [constructor|]. split; [lia|].
    repeat (split; [reflexivity|]). exists 0%nat. reflexivity.
Qed.

Lemma Inv_runTimeout (continueRate : Q) (k : nat) (t : Timeout) (u : Q) (w : World) :
  Inv w ->
  timeouts w !! k = Some t ->
  Inv (runTimeout continueRate t u
         {| ui := ui w; timeouts := delete k (timeouts w);
            premiumModal := premiumModal w; trace := trace w |}).
Proof.
  intros (Lr & Ls & Hc & current & past & Hr & Hp & Hphase) Hk.
  destruct Hphase as [Hph|[Hph|[Hph|Hph]]].
  - destruct Hph as (? & _ & _ & _ & Hto & _). rewrite Hto in Hk. discriminate.
  - destruct Hph as (n & record & s & before & Ho & Hn & -> & Hst & Hall & Hpm
                     & Hdm & Hcase).
    destruct Hcase as [[Hq Hto]|[Hq Hto]]; rewrite Hto in *;
      (destruct k as [|k]; [|discriminate]); injection Hk as <-;
      cbv beta iota delta [runTimeout delete list_delete].
    + eapply Inv_checkRoundResult; simpl; eauto. congruence.
    + destruct (n <? 2)%nat eqn:En.
      * apply Nat.ltb_lt in En. unfold startSpin.
        replace (3 <=? n + 1)%nat with false
          by (symmetry; apply Nat.leb_gt; lia).
        destruct w as [[rs cc rl sp idx sdm dc sre rn asr sgo spm] tos pm tr].
        simpl in *. subst.
        eapply Inv_intro; run_handlers; try reflexivity; try eassumption.
        -- simpl. by rewrite Hr.
        -- left. run_handlers. exists (S n). rewrite Nat.add_1_r.
           split; [by constructor|]. split; [lia|].
           repeat (split; [reflexivity|]). exists 0%nat. reflexivity.
      * apply Nat.ltb_ge in En.
        eapply Inv_checkRoundResult; simpl; eauto. intros _. lia.
  - destruct Hph as (Hcl & Hst & Hcase).
    destruct Hcase as [(_ & _ & Hto)|[(_ & _ & Hto)|[(Hdm & Hpm & Hto)|(Hdm & Hpm & Hto)]]];
      rewrite Hto in *; try discriminate;
      (destruct k as [|k]; [|discriminate]); injection Hk as <-;
      cbv beta iota delta [runTimeout delete list_delete].
    + destruct w as [[rs cc rl sp idx sdm dc sre rn asr sgo spm] tos pm tr].
      simpl in *. subst.
      eapply (Inv_startNewRound _ current past); simpl; auto.
    + destruct w as [[rs cc rl sp idx sdm dc sre rn asr sgo spm] tos pm tr].
      simpl in *. subst.
      eapply Inv_intro; run_handlers; try eassumption.
      * simpl. by rewrite Hr.
      * right; right; right. run_handlers. exists current. auto 10.
  - destruct Hph as (? & _ & _ & _ & Hto & _). rewrite Hto in Hk. discriminate.
Qed.

(** While a modal is open the round is resolved and nothing is pending. *)
Lemma Inv_modal_open (w : World) :
  Inv w ->
  showDrinkModal (ui w) = true \/ is_Some (premiumModal w) ->
  exists current past,
    rounds (trace w) = current :: past /\ Forall closedRound past
    /\ closedRound current /\ isSpinning (ui w) = allStopped
    /\ timeouts w = []
    /\ (showDrinkModal (ui w) = true -> premiumModal w = None)
    /\ (is_Some (premiumModal w) -> showDrinkModal (ui w) = false).
Proof.
  intros (Lr & Ls & Hc & current & past & Hr & Hp & Hphase) Hopen.
  exists current, past.
  destruct Hphase as [Hph|[Hph|[Hph|Hph]]].
  - destruct Hph as (? & _ & _ & _ & _ & Hpm & Hdm & _).
    rewrite Hpm, Hdm in Hopen. destruct Hopen as [?|[? ?]]; discriminate.
  - destruct Hph as (? & ? & ? & ? & _ & _ & _ & _ & _ & Hpm & Hdm & _).
    rewrite Hpm, Hdm in Hopen. destruct Hopen as [?|[? ?]]; discriminate.
  - destruct Hph as (Hcl & Hst & Hcase).
    destruct Hcase as [(Hdm & Hpm & Hto)|[(Hdm & Hpm & Hto)|[(Hdm & Hpm & _)|(Hdm & Hpm & _)]]].
    + repeat (split; [assumption|]). split; [auto|].
      rewrite Hpm. intros [? ?]. discriminate.
    + repeat (split; [assumption|]). split; [congruence|auto].
    + rewrite Hpm, Hdm in Hopen. destruct Hopen as [?|[? ?]]; discriminate.
    + rewrite Hpm, Hdm in Hopen. destruct Hopen as [?|[? ?]]; discriminate.
  - destruct Hph as (? & _ & _ & _ & _ & Hpm & Hdm).
    rewrite Hpm, Hdm in Hopen. destruct Hopen as [?|[? ?]]; discriminate.
Qed.

Lemma Inv_setPremiumModal (m : PremiumModal) (w : World) :
  Inv w -> is_Some (premiumModal w) -> Inv (setPremiumModal m w).
Proof.
  intros HI Hm.
  destruct (Inv_modal_open w HI (or_intror Hm))
    as (current & past & Hr & Hp & Hcl & Hst & Hto & _ & Hdm).
  specialize (Hdm Hm).
  destruct HI as (Lr & Ls & Hc & _).
  destruct w as [[rs cc rl sp idx sdm dc sre rn asr sgo spm] tos pm tr].
  simpl in *. subst.
  eapply Inv_intro; run_handlers; try eassumption.
  right; right; left. run_handlers. split; [exact Hcl|]. split; [reflexivity|].
  right; left. eauto.
Qed.

Lemma Inv_step (continueRate : Q) (w : World) (e : Event) :
  Inv w -> Inv (step continueRate w e).
Proof.
  intros HI. destruct e as [i u|u|k u| | |u|]; cbv beta iota delta [step].
  - by apply Inv_stopReel.
  - by apply Inv_handleKeyPress.
  - destruct (timeouts w !! k) eqn:Hk; [by apply Inv_runTimeout | exact HI].
  - destruct (showDrinkModal (ui w)) eqn:Hdm; [|exact HI].
    destruct (Inv_modal_open w HI (or_introl Hdm))
      as (current & past & Hr & Hp & Hcl & Hst & Hto & Hpm & _).
    specialize (Hpm Hdm). destruct HI as (Lr & Ls & Hc & _).
    unfold handleDrinkModalClose.
    destruct w as [[rs cc rl sp idx sdm dc sre rn asr sgo spm] tos pm tr].
    simpl in *. subst.
    eapply (Inv_showBlackoutAndProceed _ current past); simpl; auto.
  - destruct (premiumModal w) as [[[| |] o]|] eqn:Hm; try exact HI.
    apply Inv_setPremiumModal; [exact HI | rewrite Hm; eauto].
  - destruct (premiumModal w) as [[[| |] o]|] eqn:Hm; try exact HI.
    apply Inv_setPremiumModal; [exact HI | rewrite Hm; eauto].
  - destruct (premiumModal w) as [[[| |] o]|] eqn:Hm; try exact HI.
    assert (is_Some (premiumModal w)) as Hsome by (rewrite Hm; eauto).
    destruct (Inv_modal_open w HI (or_intror Hsome))
      as (current & past & Hr & Hp & Hcl & Hst & Hto & _ & Hdm).
    specialize (Hdm Hsome). destruct HI as (Lr & Ls & Hc & _).
    unfold handlePremiumModalClose.
    destruct w as [[rs cc rl sp idx sdm dc sre rn asr sgo spm] tos pm tr].
    simpl in *. subst.
    eapply (Inv_showBlackoutAndProceed _ current past); simpl; auto.
Qed.

Lemma reachable_Inv (continueRate : Q) (w : World) :
  reachable continueRate w -> Inv w.
Proof.
  induction 1 as [|w e _ IH]; [apply Inv_mounted | by apply Inv_step].
Qed.

Lemma reachable_run (continueRate : Q) (w : World) (events : list Event) :
  reachable continueRate w -> reachable continueRate (run continueRate w events).
Proof.
  revert w. induction events as [|e events IH]; intros w H; simpl; [exact H|].
  apply IH. by constructor.
Qed.

(** ** The early-exit decision *)

(** The test of [stopReel] comes down to its second half: the first never
    finds the literal it looks for. *)
Lemma qualifies_smallYaku (s : list Slot) :
  qualifies s = checkSmallYakuMatch s.
Proof. unfold qualifies. by rewrite cherryLiteral_includes. Qed.

Lemma qualifies_true (s : list Slot) :
  qualifies s = true <-> checkSmallYakuMatch s = true.
Proof. by rewrite qualifies_smallYaku. Qed.

Lemma openRound_facts (k : nat) (record : list (list Slot)) (round : list Obs) :
  openRound k record round ->
  length record = k
  /\ Forall (fun s => qualifies s = false) record
  /\ settledSpins round = record
  /\ completions round = 0%nat
  /\ (forall s, SpinSettled s ∈ round -> qualifies s = false)
  /\ (forall c, SessionTerminated c ∉ round).
Proof.
  induction 1 as [|k record s round Ho (Hl & Hq & Hs & Hc & Hn & Ht) Hqs].
  - repeat split; try constructor.
    + intros s Hin. apply list_elem_of_singleton in Hin. discriminate.
    + intros c Hin. apply list_elem_of_singleton in Hin. discriminate.
  - repeat split.
    + rewrite length_app. simpl. lia.
    + apply Forall_app. split; [exact Hq|]. by constructor.
    + simpl. by rewrite Hs.
    + exact Hc.
    + intros s' Hin. rewrite !elem_of_cons in Hin.
      destruct Hin as [?|[[= ->]|?]]; [discriminate| exact Hqs | by apply Hn].
    + intros c Hin. rewrite !elem_of_cons in Hin.
      destruct Hin as [?|[?|?]]; [discriminate|discriminate|by eapply Ht].
Qed.

(** The record that a stop in a reachable state extends holds no qualifying
    spin. *)
Lemma Inv_record_clean (w : World) (i : nat) :
  Inv w -> isSpinning (ui w) !! i = Some true ->
  Forall (fun s => qualifies s = false) (allSpinResults (ui w))
  /\ timeouts w = [].
Proof.
  intros (_ & _ & _ & current & past & _ & _ & Hphase) Hs.
  destruct Hphase as [Hph|[Hph|[Hph|Hph]]].
  - destruct Hph as (k & Ho & _ & _ & Hto & _).
    split; [|exact Hto]. by apply openRound_facts in Ho as (_ & ? & _).
  - destruct Hph as (? & ? & ? & ? & _ & _ & _ & Hst & _).
    rewrite Hst in Hs. by destruct (allStopped_lookup i).
  - destruct Hph as (_ & Hst & _).
    rewrite Hst in Hs. by destruct (allStopped_lookup i).
  - destruct Hph as (? & _ & _ & Hst & _).
    rewrite Hst in Hs. by destruct (allStopped_lookup i).
Qed.

(** C7.  [stopReel] decides the early exit from the spin that has just
    settled, and its test for a cherry never succeeds, while the
    specification decides from the classification of the entire accumulated
    record, which counts the cherries.  The two differ as soon as a spin
    with a cherry and without a small yaku settles: after the first spin
    cherry, diamond, diamond the code leaves the timeout that starts the
    next spin, where the decision of the specification leaves the one that
    completes the round.  On every spin the test of the code is the
    small-yaku test alone. *)
Theorem early_exit_misses_cherry :
  let w := run (7 # 10) mounted [StopClicked 0 0; StopClicked 1 (1 # 2)] in
  let spin := [Sym Cherry; Sym Diamond; Sym Diamond] in
  reachable (7 # 10) w
  /\ reels (ui (stopReel (7 # 10) 2 (1 # 2) w)) = spin
  /\ allSpinResults (ui (stopReel (7 # 10) 2 (1 # 2) w)) = [spin]
  /\ qualifies spin = false
  /\ recordQualifies [spin] = true
  /\ timeouts (stopReel (7 # 10) 2 (1 # 2) w) = [TNextSpinOrCheck 0 [spin]]
  /\ timeouts (stopReel_onFullRecord (7 # 10) 2 (1 # 2) w) = [TCheckRound [spin]]
  /\ stopReel (7 # 10) 2 (1 # 2) w <> stopReel_onFullRecord (7 # 10) 2 (1 # 2) w
  /\ (forall s, qualifies s = checkSmallYakuMatch s).
Proof.
  cbv zeta. split; [apply reachable_run, reachable_mounted|].
  do 6 (split; [vm_compute; reflexivity|]).
  split; [|apply qualifies_smallYaku].
  intros H. apply (f_equal timeouts) in H. vm_compute in H. discriminate H.
Qed.

(** ** Resolution of a round and the session counter *)

Ltac run_events :=
  cbv beta iota zeta delta
    [step run fold_left runTimeout lookup list_lookup delete list_delete app
     checkRoundResult showBlackoutAndProceed showBlackoutAndEnd
     handleDrinkModalClose handlePremiumModalClose startNewRound startSpin
     Nat.leb
     setRemainingStops setContinueCount setReels setIsSpinning
     setCurrentSpinIndex setShowDrinkModal setDrinkCount setShowRushEffect
     setRushNumber setAllSpinResults setShowGameOver setShowPremiumModal
     setPremiumModal setTimeout observe withUi premiumModalMounted
     ui timeouts premiumModal trace phase selectedOption
     remainingStops continueCount reels isSpinning currentSpinIndex
     showDrinkModal drinkCount showRushEffect rushNumber allSpinResults
     showGameOver showPremiumModal freshRound].

Lemma fire_completing (continueRate : Q) (w : World) (t : Timeout)
    (record : list (list Slot)) (u : Q) :
  timeouts w = [t] -> completing t record ->
  step continueRate w (TimeoutFired 0 u)
  = checkRoundResult continueRate record u
      (mkWorld (ui w) [] (premiumModal w) (trace w)).
Proof.
  intros Hto Hc. cbv beta iota delta [step]. rewrite Hto.
  destruct Hc as [[= ->]|(k & Hk & [= ->])];
    cbn [lookup list_lookup runTimeout delete list_delete]; [reflexivity|].
  replace (k <? 2)%nat with false by (symmetry; apply Nat.ltb_ge; exact Hk).
  reflexivity.
Qed.

Lemma checkRoundResult_run (continueRate : Q) (record : list (list Slot)) (u : Q)
    (w : World) :
  let s := ui w in
  let tr := RoundCompleted record :: trace w in
  checkRoundResult continueRate record u w =
  match resolve continueRate (classify record) u with
  | PremiumSubEvent =>
      mkWorld
        (mkState (remainingStops s) (continueCount s) (reels s) (isSpinning s)
           (currentSpinIndex s) (showDrinkModal s) (drinkCount s)
           (showRushEffect s) (rushNumber s) (allSpinResults s)
           (showGameOver s) true)
        (timeouts w) (Some premiumModalMounted) tr
  | ContinueWithBonusReveal n =>
      mkWorld
        (mkState (remainingStops s) (continueCount s) (reels s) (isSpinning s)
           (currentSpinIndex s) true n (showRushEffect s) (rushNumber s)
           (allSpinResults s) (showGameOver s) (showPremiumModal s))
        (timeouts w) (premiumModal w) tr
  | Continue =>
      showBlackoutAndProceed (mkWorld s (timeouts w) (premiumModal w) tr)
  | Terminate =>
      showBlackoutAndEnd (mkWorld s (timeouts w) (premiumModal w) tr)
  end.
Proof.
  destruct w as [[rs cc rl sp idx sdm dc sre rn asr sgo spm] tos pm tr].
  cbv zeta. unfold checkRoundResult.
  destruct (resolve continueRate (classify record) u); reflexivity.
Qed.

(** C8.  The continue count starts at 0 and is never negative.  When the
    pending timeout of a reachable state hands the round to the resolver:
    a plain continuation adds one at once; a bonus reveal adds one when the
    drink modal is closed; the premium sub-event adds one when the premium
    modal closes; in each case the timeout then pending starts a fresh round
    and the count is the old one plus one.  A termination leaves the count
    as it is, and the timeout then pending reports that count through
    [onGameEnd]. *)
Theorem continueCount_law (continueRate : Q) (w : World) (t : Timeout)
    (record : list (list Slot)) (u u1 u2 : Q) :
  reachable continueRate w ->
  timeouts w = [t] ->
  completing t record ->
  let count := continueCount (ui w) in
  let w1 := step continueRate w (TimeoutFired 0 u) in
  continueCount (ui mounted) = 0
  /\ (forall w', reachable continueRate w' -> 0 <= continueCount (ui w'))
  /\ match resolve continueRate (classify record) u with
     | Continue =>
         continueCount (ui w1) = count + 1
         /\ let w2 := step continueRate w1 (TimeoutFired 0 u2) in
            freshRound w2 /\ continueCount (ui w2) = count + 1
     | ContinueWithBonusReveal n =>
         continueCount (ui w1) = count /\ showDrinkModal (ui w1) = true
         /\ let w2 := step continueRate w1 DrinkModalClosed in
            continueCount (ui w2) = count + 1
            /\ let w3 := step continueRate w2 (TimeoutFired 0 u2) in
               freshRound w3 /\ continueCount (ui w3) = count + 1
     | PremiumSubEvent =>
         continueCount (ui w1) = count /\ showPremiumModal (ui w1) = true
         /\ let w2 := run continueRate w1
                        [PremiumBlackout; PremiumResult u1; PremiumClosed] in
            continueCount (ui w2) = count + 1
            /\ let w3 := step continueRate w2 (TimeoutFired 0 u2) in
               freshRound w3 /\ continueCount (ui w3) = count + 1
     | Terminate =>
         continueCount (ui w1) = count /\ timeouts w1 = [TEnd count]
         /\ let w2 := step continueRate w1 (TimeoutFired 0 u2) in
            continueCount (ui w2) = count /\ timeouts w2 = []
            /\ trace w2
               = SessionTerminated count :: RoundCompleted record :: trace w
     end.
Proof.
  intros Hreach Hto Hc.
  cbv zeta. split; [reflexivity|]. split.
  { intros w' Hw'. by apply reachable_Inv in Hw' as (_ & _ & Hcount & _). }
  rewrite (fire_completing _ _ _ _ _ Hto Hc), checkRoundResult_run. cbv zeta.
  destruct (resolve continueRate (classify record) u);
    destruct w as [[rs cc rl sp idx sdm dc sre rn asr sgo spm] tos pm tr];
    run_events; repeat split; eauto.
Qed.

Lemma continueCount_law_witness :
  let w := run (7 # 10) mounted
             [StopClicked 0 (1 # 2); StopClicked 1 (1 # 2); StopClicked 2 (1 # 2)] in
  let record := [[Sym Diamond; Sym Diamond; Sym Diamond]] in
  reachable (7 # 10) w
  /\ timeouts w = [TCheckRound record]
  /\ continueCount (ui (step (7 # 10) w (TimeoutFired 0 (1 # 2)))) = 0 + 1
  /\ freshRound (step (7 # 10) (step (7 # 10) w (TimeoutFired 0 (1 # 2)))
                   (TimeoutFired 0 0)).
Proof.
  cbv zeta.
  assert (reachable (7 # 10)
            (run (7 # 10) mounted
               [StopClicked 0 (1 # 2); StopClicked 1 (1 # 2); StopClicked 2 (1 # 2)]))
    as Hr.
  { apply reachable_run, reachable_mounted. }
  assert (timeouts (run (7 # 10) mounted
            [StopClicked 0 (1 # 2); StopClicked 1 (1 # 2); StopClicked 2 (1 # 2)])
          = [TCheckRound [[Sym Diamond; Sym Diamond; Sym Diamond]]]) as Hto
    by (vm_compute; reflexivity).
  split; [exact Hr|]. split; [exact Hto|].
  pose proof (continueCount_law (7 # 10) _
                (TCheckRound [[Sym Diamond; Sym Diamond; Sym Diamond]])
                [[Sym Diamond; Sym Diamond; Sym Diamond]] (1 # 2) 0 0 Hr Hto
                (or_introl eq_refl)) as H.
  cbv zeta in H. destruct H as (_ & _ & H).
  assert (resolve (7 # 10) (classify [[Sym Diamond; Sym Diamond; Sym Diamond]]) (1 # 2)
          = Continue) as E by (vm_compute; reflexivity).
  rewrite E in H.
  destruct H as (H1 & H2 & _). split; [exact H1 | exact H2].
Defined.

(** C4.  When the record handed to the resolver has the premium flag, the
    outcome is the premium sub-event whatever the continue rate and the
    draw.  The modal selects its result by one draw, "everyone" exactly when
    the draw is below 0.5 and "self" otherwise; when it closes, whichever
    result was selected, the continue count is the old one plus one, no end
    of session is pending or reported, and the timeout then pending starts a
    fresh round. *)
Theorem premium_always_continues (continueRate : Q) (w : World) (t : Timeout)
    (record : list (list Slot)) (u u1 u2 : Q) :
  timeouts w = [t] ->
  completing t record ->
  hasPremiumFlag (classify record) = true ->
  let count := continueCount (ui w) in
  let w1 := step continueRate w (TimeoutFired 0 u) in
  let w2 := run continueRate w1 [PremiumBlackout; PremiumResult u1] in
  let w3 := step continueRate w2 PremiumClosed in
  let w4 := step continueRate w3 (TimeoutFired 0 u2) in
  resolve continueRate (classify record) u = PremiumSubEvent
  /\ showPremiumModal (ui w1) = true
  /\ premiumModal w1 = Some premiumModalMounted
  /\ timeouts w1 = []
  /\ (exists option,
        premiumModal w2 = Some {| phase := Result; selectedOption := Some option |}
        /\ (option = Everyone <-> (u1 < 1 # 2)%Q)
        /\ (option = Self <-> (1 # 2 <= u1)%Q))
  /\ continueCount (ui w3) = count + 1
  /\ timeouts w3 = [TProceed]
  /\ premiumModal w3 = None
  /\ trace w3 = RoundCompleted record :: trace w
  /\ freshRound w4
  /\ continueCount (ui w4) = count + 1
  /\ trace w4 = SpinStarted 0 :: RoundStarted :: RoundCompleted record :: trace w.
Proof.
  intros Hto Hc Hp. cbv zeta.
  assert (resolve continueRate (classify record) u = PremiumSubEvent) as Hres.
  { unfold resolve. by rewrite Hp. }
  split; [exact Hres|].
  rewrite (fire_completing _ _ _ _ _ Hto Hc), checkRoundResult_run. cbv zeta.
  rewrite Hres.
  destruct w as [[rs cc rl sp idx sdm dc sre rn asr sgo spm] tos pm tr].
  run_events. repeat split; eauto.
  eexists. split; [reflexivity|]. by apply if_Qltb_cases.
Qed.

Lemma premium_always_continues_witness :
  timeouts premiumRoundSettled = [TNextSpinOrCheck 2 premiumRecord]
  /\ hasPremiumFlag (classify premiumRecord) = true
  /\ resolve (29 # 100) (classify premiumRecord) (99 # 100) = PremiumSubEvent
  /\ continueCount
       (ui (step (29 # 100)
              (run (29 # 100)
                 (step (29 # 100) premiumRoundSettled (TimeoutFired 0 (99 # 100)))
                 [PremiumBlackout; PremiumResult (3 # 4)])
              PremiumClosed))
     = continueCount (ui premiumRoundSettled) + 1.
Proof.
  assert (timeouts premiumRoundSettled = [TNextSpinOrCheck 2 premiumRecord]) as Hto
    by (vm_compute; reflexivity).
  assert (hasPremiumFlag (classify premiumRecord) = true) as Hp
    by (vm_compute; reflexivity).
  split; [exact Hto|]. split; [exact Hp|].
  pose proof (premium_always_continues (29 # 100) premiumRoundSettled
    (TNextSpinOrCheck 2 premiumRecord) premiumRecord (99 # 100) (3 # 4) 0 Hto
    (or_intror (ex_intro _ 2%nat (conj (le_n 2) eq_refl))) Hp) as H.
  cbv zeta in H. destruct H as (H1 & _ & _ & _ & _ & H6 & _).
  split; [exact H1 | exact H6].
Defined.

(** ** Rounds *)

Lemma Inv_roundShape (w : World) :
  Inv w ->
  exists current past,
    rounds (trace w) = current :: past
    /\ Forall closedRound past
    /\ roundShape current
    /\ (forall s before, current = SpinSettled s :: before -> qualifies s = true ->
        timeouts w = [TCheckRound (settledSpins current)]
        /\ isSpinning (ui w) = allStopped).
Proof.
  intros (_ & _ & _ & current & past & Hr & Hp & Hphase).
  exists current, past. split; [exact Hr|]. split; [exact Hp|].
  destruct Hphase as [Hph|[Hph|[Hph|Hph]]].
  - destruct Hph as (k & Ho & Hk & _). split; [left; eauto|].
    intros s before -> Hq. inversion Ho.
  - destruct Hph as (k & record & s & before & Ho & Hk & -> & Hst & _ & _ & _ & Hcase).
    split; [right; left; eauto 10|].
    intros s' before' [= <- <-] Hq.
    destruct Hcase as [[_ Hto]|[Hq' _]]; [|congruence].
    apply openRound_facts in Ho as (_ & _ & Hs & _).
    simpl. by rewrite Hs.
  - destruct Hph as (Hcl & _). split; [right; right; left; exact Hcl|].
    intros s before -> _. destruct Hcl as (? & ? & ? & ? & [=] & _).
  - destruct Hph as (round & -> & Hcl & _). split; [right; right; right; eauto|].
    intros s before [=].
Qed.

Lemma closedRound_facts (round : list Obs) :
  closedRound round ->
  completions round = 1%nat
  /\ (forall r, RoundCompleted r ∈ round ->
        r = settledSpins round /\ (1 <= length r <= 3)%nat)
  /\ (forall newer s older,
        round = newer ++ SpinSettled s :: older -> qualifies s = true ->
        newer = [RoundCompleted (settledSpins round)])
  /\ (forall c, SessionTerminated c ∉ round).
Proof.
  intros (k & record & s & before & -> & Ho & Hk & Hq).
  destruct (openRound_facts _ _ _ Ho) as (Hl & _ & Hs & Hc & Hn & Ht).
  assert (forall r, RoundCompleted r ∉ before) as Hnc.
  { intros r Hin. unfold completions in Hc.
    assert (RoundCompleted r ∈ List.filter isCompletion before) as Hf.
    { apply list_elem_of_In, filter_In. split; [by apply list_elem_of_In|reflexivity]. }
    destruct (List.filter isCompletion before); [by apply not_elem_of_nil in Hf|].
    discriminate. }
  repeat split.
  - unfold completions in *. simpl. by rewrite Hc.
  - rewrite !elem_of_cons in H. destruct H as [[= ->]|[?|Hin]]; try discriminate.
    + simpl. by rewrite Hs.
    + by destruct (Hnc r).
  - rewrite !elem_of_cons in H. destruct H as [[= ->]|[?|Hin]]; try discriminate.
    + rewrite length_app. simpl. lia.
    + by destruct (Hnc r).
  - rewrite !elem_of_cons in H. destruct H as [[= ->]|[?|Hin]]; try discriminate.
    + rewrite length_app. simpl. lia.
    + by destruct (Hnc r).
  - intros newer s' older Heq Hq'. simpl. rewrite Hs.
    destruct newer as [|n1 [|n2 newer]]; simpl in Heq.
    + discriminate.
    + by injection Heq as <- _ _.
    + injection Heq as _ _ Heq.
      assert (SpinSettled s' ∈ before) as Hin.
      { rewrite Heq. apply elem_of_app. right. apply list_elem_of_here. }
      apply Hn in Hin. congruence.
  - intros c Hin. rewrite !elem_of_cons in Hin.
    destruct Hin as [?|[?|?]]; try discriminate. by eapply Ht.
Qed.

Lemma split_elem_of {A} (l newer older : list A) (x : A) :
  l = newer ++ x :: older -> x ∈ l.
Proof. intros ->. apply elem_of_app. right. apply list_elem_of_here. Qed.

(** What the shape of a round says about it. *)
Lemma roundShape_facts (round : list Obs) :
  roundShape round ->
  (completions round <= 1)%nat
  /\ (forall r, RoundCompleted r ∈ round ->
        r = settledSpins round /\ (1 <= length r <= 3)%nat)
  /\ (forall newer s older,
        round = newer ++ SpinSettled s :: older -> qualifies s = true ->
        newer = []
        \/ newer = [RoundCompleted (settledSpins round)]
        \/ exists c, newer = [SessionTerminated c; RoundCompleted (settledSpins round)]).
Proof.
  intros [(k & record & Ho & Hk)|[(k & record & s & before & Ho & Hk & ->)|[Hcl|(c & before & -> & Hcl)]]].
  - destruct (openRound_facts _ _ _ Ho) as (_ & _ & _ & Hc & Hn & _).
    split; [lia|]. split.
    + intros r Hin. exfalso. unfold completions in Hc.
      assert (RoundCompleted r ∈ List.filter isCompletion round) as Hf.
      { apply list_elem_of_In, filter_In. split; [by apply list_elem_of_In|reflexivity]. }
      destruct (List.filter isCompletion round); [by apply not_elem_of_nil in Hf|].
      discriminate.
    + intros newer s older Heq Hq. apply split_elem_of in Heq.
      apply Hn in Heq. congruence.
  - destruct (openRound_facts _ _ _ Ho) as (_ & _ & _ & Hc & Hn & _).
    split; [unfold completions in *; simpl; lia|]. split.
    + intros r Hin. exfalso. unfold completions in Hc.
      apply elem_of_cons in Hin as [?|Hin]; [discriminate|].
      assert (RoundCompleted r ∈ List.filter isCompletion before) as Hf.
      { apply list_elem_of_In, filter_In. split; [by apply list_elem_of_In|reflexivity]. }
      destruct (List.filter isCompletion before); [by apply not_elem_of_nil in Hf|].
      discriminate.
    + intros newer s' older Heq Hq. destruct newer as [|n1 newer]; [by left|].
      simpl in Heq. injection Heq as _ Heq. apply split_elem_of in Heq.
      apply Hn in Heq. congruence.
  - destruct (closedRound_facts _ Hcl) as (Hc & Hr & Hs & _).
    split; [lia|]. split; [exact Hr|].
    intros newer s older Heq Hq. right; left. eauto.
  - destruct (closedRound_facts _ Hcl) as (Hc & Hr & Hs & _).
    split; [unfold completions in *; simpl; lia|]. split.
    + intros r Hin. apply elem_of_cons in Hin as [?|Hin]; [discriminate|].
      simpl. by apply Hr.
    + intros newer s older Heq Hq. right; right. exists c.
      destruct newer as [|n1 newer]; [discriminate|].
      simpl in Heq. injection Heq as <- Heq. simpl.
      by rewrite (Hs _ _ _ Heq Hq).
Qed.

Lemma rounds_app (obs tr current : list Obs) (past : list (list Obs)) :
  RoundStarted ∉ obs ->
  rounds tr = current :: past ->
  rounds (obs ++ tr) = (obs ++ current) :: past.
Proof.
  intros Hn Hr. induction obs as [|o obs IH]; [exact Hr|].
  rewrite not_elem_of_cons in Hn. destruct Hn as [Ho Hn].
  simpl. apply rounds_observe; [by apply IH | congruence].
Qed.

(** Under the invariant a round is open exactly while a spin is under way or
    the decision on a settled spin is pending. *)
Lemma Inv_round_closed (w : World) :
  Inv w -> roundOpen w = false ->
  exists current past,
    rounds (trace w) = current :: past /\ completions current = 1%nat.
Proof.
  intros (_ & _ & _ & current & past & Hr & _ & Hphase) Hopen.
  exists current, past. split; [exact Hr|].
  unfold roundOpen in Hopen. apply orb_false_iff in Hopen as [Hsp Hto].
  destruct Hphase as [Hph|[Hph|[Hph|Hph]]].
  - destruct Hph as (_ & _ & _ & _ & _ & _ & _ & i & Hi).
    exfalso. apply not_true_iff_false in Hsp. apply Hsp.
    apply existsb_exists. exists true. split; [|reflexivity].
    apply list_elem_of_In, list_elem_of_lookup. eauto.
  - destruct Hph as (? & ? & ? & ? & _ & _ & _ & _ & _ & _ & _ & Hcase).
    destruct Hcase as [[_ H]|[_ H]]; rewrite H in Hto; discriminate.
  - destruct Hph as (Hcl & _). by apply closedRound_facts in Hcl as (? & _).
  - destruct Hph as (round & -> & Hcl & _).
    apply closedRound_facts in Hcl as (Hc & _).
    unfold completions in *. simpl. exact Hc.
Qed.

Lemma stepsLeft_bound (w : World) : Inv w -> (stepsLeft w <= 12)%nat.
Proof.
  intros (_ & Ls & _ & current & past & _ & _ & Hphase). unfold stepsLeft.
  destruct Hphase as [Hph|[Hph|[Hph|Hph]]].
  - destruct Hph as (k & _ & _ & _ & -> & _).
    destruct (isSpinning (ui w)) as [|a [|b [|c [|d rest]]]]; try discriminate.
    destruct a, b, c; simpl; lia.
  - destruct Hph as (? & ? & ? & ? & _ & _ & _ & _ & _ & _ & _ & Hcase).
    destruct Hcase as [[_ ->]|[_ ->]]; lia.
  - destruct Hph as (_ & -> & Hcase).
    destruct Hcase as [(_ & _ & ->)|[(_ & _ & ->)|[(_ & _ & ->)|(_ & _ & ->)]]];
      simpl; lia.
  - destruct Hph as (? & _ & _ & -> & -> & _). simpl. lia.
Qed.

(** One event of the schedule brings an open round nearer to its end and
    starts no new round. *)
Lemma playRound_progress (continueRate : Q) (w : World) (u : Q) :
  Inv w -> roundOpen w = true ->
  let w' := step continueRate w (nextEvent w u) in
  (stepsLeft w' < stepsLeft w)%nat
  /\ exists obs, trace w' = obs ++ trace w /\ RoundStarted ∉ obs.
Proof.
  intros (Lr & Ls & _ & current & past & Hr & _ & Hphase) Hopen. cbv zeta.
  destruct Hphase as [Hph|[Hph|[Hph|Hph]]].
  - destruct Hph as (k & _ & Hk & Hidx & Hto & _ & _ & _).
    unfold nextEvent. rewrite Hto. cbv beta iota delta [step handleKeyPress].
    destruct (list_find _ _) as [[i b]|] eqn:Hfind.
    + apply list_find_Some in Hfind as (Hi & -> & _).
      rewrite (stopReel_spinning _ _ _ _ Hi). cbv zeta.
      destruct w as [[rs cc rl sp idx sdm dc sre rn asr sgo spm] tos pm tr].
      simpl in *. subst.
      destruct sp as [|a [|b [|c [|d rest]]]]; try discriminate.
      destruct a, b, c; destruct i as [|[|[|i]]]; try discriminate; simpl;
        unfold stepsLeft; simpl;
        (split; [try destruct (qualifies _); simpl; lia|]);
        first [ exists []; split; [reflexivity | apply not_elem_of_nil]
              | eexists [_]; split; [reflexivity|];
                intros Hin; apply list_elem_of_singleton in Hin; discriminate ].
    + exfalso. unfold roundOpen in Hopen. rewrite Hto, orb_false_r in Hopen.
      apply existsb_exists in Hopen as (b & Hin & Hb). unfold id in Hb. subst b.
      apply list_elem_of_In, list_elem_of_lookup in Hin as [i Hi].
      eapply list_find_None in Hfind. rewrite Forall_forall in Hfind.
      apply (Hfind true); [|reflexivity].
      apply list_elem_of_lookup. eauto.
  - destruct Hph as (k & record & s & before & _ & Hk & _ & Hst & _ & _ & _ & Hcase).
    unfold nextEvent. cbv beta iota delta [step].
    destruct Hcase as [[_ Hto]|[_ Hto]]; rewrite Hto;
      cbn [lookup list_lookup runTimeout delete list_delete].
    + rewrite checkRoundResult_run. cbv zeta.
      destruct w as [[rs cc rl sp idx sdm dc sre rn asr sgo spm] tos pm tr].
      simpl in *. subst. unfold stepsLeft.
      destruct (resolve _ _ _); run_events; simpl;
        (split; [lia|]); eexists [_]; (split; [reflexivity|]);
        intros Hin; apply list_elem_of_singleton in Hin; discriminate.
    + destruct w as [[rs cc rl sp idx sdm dc sre rn asr sgo spm] tos pm tr].
      simpl in *. subst. unfold stepsLeft.
      destruct (k <? 2)%nat eqn:Ek.
      * apply Nat.ltb_lt in Ek. unfold startSpin.
        replace (3 <=? k + 1)%nat with false by (symmetry; apply Nat.leb_gt; lia).
        run_events. simpl. split; [lia|]. eexists [_]. split; [reflexivity|].
        intros Hin; apply list_elem_of_singleton in Hin; discriminate.
      * rewrite checkRoundResult_run. cbv zeta.
        destruct (resolve _ _ _); run_events; simpl;
          (split; [lia|]); eexists [_]; (split; [reflexivity|]);
          intros Hin; apply list_elem_of_singleton in Hin; discriminate.
  - exfalso. destruct Hph as (_ & Hst & Hcase). unfold roundOpen in Hopen.
    rewrite Hst in Hopen.
    destruct Hcase as [(_ & _ & Hto)|[(_ & _ & Hto)|[(_ & _ & Hto)|(_ & _ & Hto)]]];
      rewrite Hto in Hopen; discriminate.
  - exfalso. destruct Hph as (? & _ & _ & Hst & Hto & _). unfold roundOpen in Hopen.
    rewrite Hst, Hto in Hopen. discriminate.
Qed.

Lemma playRound_closes (continueRate : Q) (draws : list Q) (w : World) :
  Inv w -> (stepsLeft w <= length draws)%nat ->
  let w' := playRound continueRate draws w in
  Inv w' /\ roundOpen w' = false
  /\ exists obs, trace w' = obs ++ trace w /\ RoundStarted ∉ obs.
Proof.
  revert w. induction draws as [|u draws IH]; intros w HI Hlen; cbv zeta.
  - simpl in *. split; [exact HI|]. split.
    + destruct (roundOpen w) eqn:Hopen; [|reflexivity].
      destruct (playRound_progress continueRate w 0 HI Hopen) as [Hlt _]. lia.
    + exists []. split; [reflexivity | apply not_elem_of_nil].
  - simpl. destruct (roundOpen w) eqn:Hopen.
    + destruct (playRound_progress continueRate w u HI Hopen)
        as (Hlt & obs & Htr & Hobs).
      destruct (IH (step continueRate w (nextEvent w u)))
        as (HI' & Hclosed & obs' & Htr' & Hobs').
      * by apply Inv_step.
      * simpl in Hlen. lia.
      * split; [exact HI'|]. split; [exact Hclosed|].
        exists (obs' ++ obs). split.
        -- rewrite Htr', Htr. by rewrite app_assoc.
        -- rewrite elem_of_app. tauto.
    + split; [exact HI|]. split; [exact Hopen|].
      exists []. split; [reflexivity | apply not_elem_of_nil].
Qed.

(** C2.  A spin that holds a cherry and is no small yaku does not end its
    round: the test [stopReel] makes for a cherry never succeeds, so that
    after the first spin cherry, diamond, diamond the pending timeout starts
    the second spin of the same round, which has not been handed to the
    resolver. *)
Theorem cherry_spin_does_not_end_round :
  let spin := [Sym Cherry; Sym Diamond; Sym Diamond] in
  let w := run (7 # 10) mounted
             [StopClicked 0 0; StopClicked 1 (1 # 2); StopClicked 2 (1 # 2)] in
  let w' := step (7 # 10) w (TimeoutFired 0 0) in
  reachable (7 # 10) w'
  /\ trace w = [SpinSettled spin; SpinStarted 0; RoundStarted]
  /\ Sym Cherry ∈ spin
  /\ timeouts w = [TNextSpinOrCheck 0 [spin]]
  /\ trace w' = [SpinStarted 1; SpinSettled spin; SpinStarted 0; RoundStarted]
  /\ isSpinning (ui w') = [true; true; true]
  /\ currentSpinIndex (ui w') = 1%nat
  /\ allSpinResults (ui w') = [spin]
  /\ rounds (trace w') = [[SpinStarted 1; SpinSettled spin; SpinStarted 0]]
  /\ completions [SpinStarted 1; SpinSettled spin; SpinStarted 0] = 0%nat.
Proof.
  cbv zeta. split.
  { apply (reachable_step (7 # 10)), reachable_run, reachable_mounted. }
  split; [vm_compute; reflexivity|].
  split; [apply list_elem_of_here|].
  repeat split; vm_compute; reflexivity.
Qed.

(** X23.  In every trace of the component: each round, finished or current,
    is handed to the resolver at most once, and each finished round exactly
    once; the record handed over is made of the spins settled in the round
    and has one to three entries; once a small yaku has settled, nothing
    happens in its round but the completion (pending on its timeout while
    no reel spins, then done) and possibly the end of the session, so that
    no further spin is started.  Whatever the draws, the schedule that
    stops the spinning reels and fires the pending timeout brings the
    current round to its one completion within twelve events. *)
Theorem rounds_complete_once (continueRate : Q) (w : World) (draws : list Q) :
  reachable continueRate w ->
  (12 <= length draws)%nat ->
  exists current past,
    rounds (trace w) = current :: past
    /\ (completions current <= 1)%nat
    /\ Forall (fun round => completions round = 1%nat) past
    /\ (forall round r,
          round ∈ current :: past -> RoundCompleted r ∈ round ->
          r = settledSpins round /\ (1 <= length r <= 3)%nat)
    /\ (forall round newer s older,
          round ∈ current :: past ->
          round = newer ++ SpinSettled s :: older ->
          checkSmallYakuMatch s = true ->
          (newer = [] /\ timeouts w = [TCheckRound (settledSpins round)]
           /\ isSpinning (ui w) = allStopped)
          \/ newer = [RoundCompleted (settledSpins round)]
          \/ exists c, newer = [SessionTerminated c; RoundCompleted (settledSpins round)])
    /\ (exists current',
          rounds (trace (playRound continueRate draws w)) = current' :: past
          /\ completions current' = 1%nat).
Proof.
  intros Hreach Hlen. apply reachable_Inv in Hreach as HI.
  destruct (Inv_roundShape w HI) as (current & past & Hr & Hp & Hshape & Hpending).
  destruct (roundShape_facts _ Hshape) as (Hc & Hrec & Hexit).
  exists current, past. split; [exact Hr|]. split; [exact Hc|]. split.
  { eapply Forall_impl; [exact Hp|]. intros round Hcl.
    by apply closedRound_facts in Hcl as (? & _). }
  split.
  { intros round r Hin Hcompl. apply elem_of_cons in Hin as [->|Hin]; [by apply Hrec|].
    rewrite Forall_forall in Hp. apply Hp in Hin.
    apply closedRound_facts in Hin as (_ & H & _). by apply H. }
  split.
  { intros round newer s older Hin Heq Hq. apply qualifies_true in Hq.
    apply elem_of_cons in Hin as [->|Hin].
    - destruct (Hexit _ _ _ Heq Hq) as [->|H]; [|by right].
      left. split; [reflexivity|]. by apply (Hpending s older).
    - rewrite Forall_forall in Hp. apply Hp in Hin.
      apply closedRound_facts in Hin as (_ & _ & H & _).
      right; left. by apply (H _ _ _ Heq). }
  pose proof (stepsLeft_bound w HI) as Hb.
  destruct (playRound_closes continueRate draws w HI ltac:(lia))
    as (HI' & Hclosed & obs & Htr & Hobs).
  destruct (Inv_round_closed _ HI' Hclosed) as (current' & past' & Hr' & Hc').
  pose proof (rounds_app _ _ _ _ Hobs Hr) as Hr''. rewrite <- Htr in Hr''.
  rewrite Hr'' in Hr'. injection Hr' as <- <-.
  exists (obs ++ current). split; [exact Hr'' | exact Hc'].
Qed.

Lemma rounds_complete_once_witness :
  reachable (7 # 10) mounted
  /\ (12 <= length (repeat (1 # 2)%Q 12))%nat
  /\ exists current',
       rounds (trace (playRound (7 # 10) (repeat (1 # 2)%Q 12) mounted))
         = [current']
       /\ completions current' = 1%nat.
Proof.
  split; [apply reachable_mounted|]. split; [vm_compute; lia|].
  destruct (rounds_complete_once (7 # 10) mounted (repeat (1 # 2)%Q 12)
              (reachable_mounted _) ltac:(vm_compute; lia))
    as (current & past & Hr & _ & _ & _ & _ & current' & Hr' & Hc').
  injection Hr as _ <-. eauto.
Defined.

(** ** Runs of the component on concrete draws *)

(** A cherry on the first spin goes unnoticed: the pending timeout starts
    the second spin. *)
Example run_cherry_round :
  let w := run (29 # 100) mounted
             [StopClicked 0 0; StopClicked 2 (1 # 2); StopClicked 1 (3 # 4);
              StopClicked 1 0; TimeoutFired 0 (99 # 100)] in
  allSpinResults (ui w) = [[Sym Cherry; Sym Bell; Sym Diamond]]
  /\ continueCount (ui w) = 0
  /\ timeouts w = []
  /\ isSpinning (ui w) = [true; true; true]
  /\ trace w = [SpinStarted 1;
                SpinSettled [Sym Cherry; Sym Bell; Sym Diamond];
                SpinStarted 0; RoundStarted].
Proof. vm_compute. repeat split. Qed.

(** Three spins without a cherry, a small yaku or a premium flag, and a draw
    that is not below the continue rate: the session ends with count 0. *)
Example run_three_spins_end :
  let spin := [StopClicked 0 (1 # 4); StopClicked 1 (1 # 2); StopClicked 2 (3 # 4)] in
  let w := run (29 # 100) mounted
             (spin ++ [TimeoutFired 0 0] ++ spin ++ [TimeoutFired 0 0] ++ spin
              ++ [TimeoutFired 0 (29 # 100); TimeoutFired 0 0]) in
  length (allSpinResults (ui w)) = 3%nat
  /\ remainingStops (ui w) = 0
  /\ continueCount (ui w) = 0
  /\ timeouts w = []
  /\ hd_error (trace w) = Some (SessionTerminated 0).
Proof. vm_compute. repeat split. Qed.

(** A small yaku on the second spin ends the round there; a draw below 0.2
    opens the drink modal, and closing it continues. *)
Example run_small_yaku_bonus :
  let w := run (1 # 2) mounted
             [SpacePressed (1 # 4); SpacePressed (1 # 2); SpacePressed (3 # 4);
              TimeoutFired 0 0;
              SpacePressed (1 # 2); SpacePressed (1 # 2); SpacePressed (1 # 2);
              TimeoutFired 0 (1 # 10)] in
  allSpinResults (ui w)
    = [[Sym Grape; Sym Diamond; Sym Bell]; [Sym Diamond; Sym Diamond; Sym Diamond]]
  /\ showDrinkModal (ui w) = true /\ drinkCount (ui w) = 1%nat
  /\ continueCount (ui w) = 0
  /\ continueCount (ui (step (1 # 2) w DrinkModalClosed)) = 1.
Proof. vm_compute. repeat split. Qed.

(** * Further properties *)

(** ** The draw intervals of the symbols *)

Section Intervals.

Local Open Scope Q_scope.

Ltac decide_scan :=
  repeat match goal with
  | |- context [Qle_bool ?x 0] =>
      let E := fresh "E" in
      destruct (Qle_bool x 0) eqn:E;
      [apply Qle_bool_iff in E
      |apply not_true_iff_false in E; rewrite Qle_bool_iff in E]
  end.

(** The symbol selected for a scaled draw, by the thresholds of the table. *)
Lemma selectSymbol_thresholds (random : Q) :
  (selectSymbol random = Cherry <-> random <= 1)
  /\ (selectSymbol random = Lemon <->
      (1 < random /\ random <= 99 # 4) \/ 201 # 2 < random)
  /\ (selectSymbol random = Grape <-> 99 # 4 < random /\ random <= 97 # 2)
  /\ (selectSymbol random = Diamond <-> 97 # 2 < random /\ random <= 289 # 4)
  /\ (selectSymbol random = Bell <-> 289 # 4 < random /\ random <= 96)
  /\ (selectSymbol random = Star <-> 96 < random /\ random <= 201 # 2).
Proof.
  unfold selectSymbol, BASE_SYMBOL_WEIGHTS. cbn [scanWeights].
  decide_scan; repeat split; intros; try discriminate; try lra;
    try reflexivity;
    repeat match goal with H : _ \/ _ |- _ => destruct H end; lra.
Qed.

(** X1.  For a value [u] of [Math.random()] in [0, 1) the generator decides
    on the product [r] of [u] and the total weight 100.5, rounded to a
    double: it returns the cherry exactly when [r <= 1], the lemon when
    [1 < r <= 24.75], the grape when [24.75 < r <= 48.5], the diamond when
    [48.5 < r <= 72.25], the bell when [72.25 < r <= 96] and the premium
    symbol when [96 < r]; the fallback is never taken.  The rounding is
    monotone and leaves the thresholds where they are, so that each symbol
    is returned on the interval its weight gives it, up to one rounding
    step above each threshold: the exact product [u * 100.5] at or below a
    threshold gives a symbol at or before it, and the exact product at or
    above the double that follows a threshold gives a symbol after it. *)
Theorem generateWeightedSymbol_intervals (u : Q) :
  0 <= u -> u < 1 ->
  let r := fmul u totalWeight in
  let x := u * totalWeight in
  0 <= r <= 201 # 2
  /\ (generateWeightedSymbol u = Cherry <-> r <= 1)
  /\ (generateWeightedSymbol u = Lemon <-> 1 < r /\ r <= 99 # 4)
  /\ (generateWeightedSymbol u = Grape <-> 99 # 4 < r /\ r <= 97 # 2)
  /\ (generateWeightedSymbol u = Diamond <-> 97 # 2 < r /\ r <= 289 # 4)
  /\ (generateWeightedSymbol u = Bell <-> 289 # 4 < r /\ r <= 96)
  /\ (generateWeightedSymbol u = Star <-> 96 < r)
  /\ scanWeights BASE_SYMBOL_WEIGHTS r <> None
  /\ (forall u', u <= u' -> r <= fmul u' totalWeight)
  /\ (forall c, 0 <= c -> round64 c == c ->
        (x <= c -> r <= c) /\ (c <= x -> c <= r))
  /\ (x <= 1 -> generateWeightedSymbol u = Cherry)
  /\ (1 + 2 ^ (-52) <= x -> x <= 99 # 4 -> generateWeightedSymbol u = Lemon)
  /\ ((99 # 4) + 2 ^ (-48) <= x -> x <= 97 # 2 -> generateWeightedSymbol u = Grape)
  /\ ((97 # 2) + 2 ^ (-47) <= x -> x <= 289 # 4 ->
      generateWeightedSymbol u = Diamond)
  /\ ((289 # 4) + 2 ^ (-46) <= x -> x <= 96 -> generateWeightedSymbol u = Bell)
  /\ (96 + 2 ^ (-46) <= x -> generateWeightedSymbol u = Star).
Proof.
  intros H0 H1. cbv zeta.
  assert (0 <= u * totalWeight) as Hx by (rewrite totalWeight_value; lra).
  destruct (scaled_draw_range u (conj H0 H1)) as [Hr0 Hr1'].
  assert (fmul u totalWeight <= 201 # 2) as Hr1
    by (apply Qle_trans with totalWeight; [exact Hr1' | discriminate]).
  pose proof (scaled_draw_selected u (conj H0 H1)) as Hsel.
  assert (forall c, 0 <= c -> round64 c == c ->
            (u * totalWeight <= c -> fmul u totalWeight <= c)
            /\ (c <= u * totalWeight -> c <= fmul u totalWeight)) as Hfix.
  { intros c Hc0 Hc. split; intros H.
    - by apply round64_le_fixed.
    - by apply round64_ge_fixed. }
  assert (forall c c', 0 <= c' -> round64 c' == c' -> c < c' ->
            c' <= u * totalWeight -> c < fmul u totalWeight) as Habove.
  { intros c c' Hc0 Hc Hlt H. apply Qlt_le_trans with c'; [exact Hlt|].
    by apply round64_ge_fixed. }
  unfold generateWeightedSymbol.
  destruct (selectSymbol_thresholds (fmul u totalWeight))
    as (Hc & Hl & Hg & Hd & Hb & Hs).
  split; [split; assumption|].
  split; [exact Hc|].
  split. { rewrite Hl. split; [intros [?|?]; [assumption | lra] | auto]. }
  split; [exact Hg|]. split; [exact Hd|]. split; [exact Hb|].
  split. { rewrite Hs. split; [tauto | auto]. }
  split; [exact Hsel|].
  split.
  { intros u' Hu'. apply round64_mono; [exact Hx|].
    rewrite totalWeight_value. lra. }
  split; [exact Hfix|].
  split.
  { intros H. apply Hc. apply (Hfix 1); [discriminate | reflexivity | exact H]. }
  split.
  { intros Hlo Hhi. apply Hl. left. split.
    - apply (Habove 1 (1 + 2 ^ (-52))); [discriminate | reflexivity | reflexivity | exact Hlo].
    - apply (Hfix (99 # 4)); [discriminate | reflexivity | exact Hhi]. }
  split.
  { intros Hlo Hhi. apply Hg. split.
    - apply (Habove (99 # 4) ((99 # 4) + 2 ^ (-48)));
        [discriminate | reflexivity | reflexivity | exact Hlo].
    - apply (Hfix (97 # 2)); [discriminate | reflexivity | exact Hhi]. }
  split.
  { intros Hlo Hhi. apply Hd. split.
    - apply (Habove (97 # 2) ((97 # 2) + 2 ^ (-47)));
        [discriminate | reflexivity | reflexivity | exact Hlo].
    - apply (Hfix (289 # 4)); [discriminate | reflexivity | exact Hhi]. }
  split.
  { intros Hlo Hhi. apply Hb. split.
    - apply (Habove (289 # 4) ((289 # 4) + 2 ^ (-46)));
        [discriminate | reflexivity | reflexivity | exact Hlo].
    - apply (Hfix 96); [discriminate | reflexivity | exact Hhi]. }
  intros Hlo. apply Hs. split; [|exact Hr1].
  apply (Habove 96 (96 + 2 ^ (-46))); [discriminate | reflexivity | reflexivity | exact Hlo].
Qed.

Lemma generateWeightedSymbol_intervals_witness :
  1 + 2 ^ (-52) <= (1 # 64) * totalWeight
  /\ (1 # 64) * totalWeight <= 99 # 4
  /\ generateWeightedSymbol (1 # 64) = Lemon.
Proof.
  assert (1 + 2 ^ (-52) <= (1 # 64) * totalWeight) as Hlo by discriminate.
  assert ((1 # 64) * totalWeight <= 99 # 4) as Hhi by discriminate.
  split; [exact Hlo|]. split; [exact Hhi|].
  destruct (generateWeightedSymbol_intervals (1 # 64))
    as (_ & _ & _ & _ & _ & _ & _ & _ & _ & _ & _ & Hl & _);
    [discriminate | reflexivity |].
  by apply Hl.
Defined.

(** Just above a threshold the rounding can give the product the value of
    the threshold: this draw, a multiple of 2^-53 above 97/201, gets the
    grape. *)
Example generateWeightedSymbol_at_threshold :
  let u := 4346757849302867 # 9007199254740992 in
  97 # 201 < u /\ fmul u totalWeight == 97 # 2
  /\ generateWeightedSymbol u = Grape.
Proof. cbv zeta. split; [reflexivity|]. split; vm_compute; reflexivity. Qed.

End Intervals.

(** ** Classes of a spin *)

Lemma countCherries_single (symbols : list Slot) :
  countCherries [symbols] = length (filter (fun s => s = Sym Cherry) symbols).
Proof. rewrite countCherries_filter. simpl. by rewrite app_nil_r. Qed.

Lemma filter_cherry_none (symbols : list Slot) :
  Sym Cherry ∉ symbols -> filter (fun s => s = Sym Cherry) symbols = [].
Proof.
  induction symbols as [|x symbols IH]; [reflexivity|].
  rewrite not_elem_of_cons. intros [Hx Hin].
  rewrite filter_cons. destruct (decide (x = Sym Cherry)); [congruence | auto].
Qed.

(** X2.  The three classes of one spin exclude each other: a small yaku
    holds no cherry and is no premium flag, a premium flag holds no cherry
    and is no small yaku.  An array that does not hold exactly three entries
    (the empty one included) is neither. *)
Theorem spin_classes_exclusive (symbols : list Slot) :
  (checkSmallYakuMatch symbols = true ->
   isPremiumFlag symbols = false /\ (Sym Cherry ∉ symbols)
   /\ countCherries [symbols] = 0%nat)
  /\ (isPremiumFlag symbols = true ->
      checkSmallYakuMatch symbols = false /\ (Sym Cherry ∉ symbols)
      /\ countCherries [symbols] = 0%nat)
  /\ (length symbols <> 3%nat ->
      checkSmallYakuMatch symbols = false /\ isPremiumFlag symbols = false).
Proof.
  split; [|split].
  - intros Hy. apply checkSmallYakuMatch_spec in Hy as (x & -> & Hc & Hs).
    assert (Sym Cherry ∉ [x; x; x]) as Hn.
    { rewrite !not_elem_of_cons. repeat split; try congruence. apply not_elem_of_nil. }
    split; [|split; [exact Hn|]].
    + apply not_true_iff_false. intros Hp. apply isPremiumFlag_spec in Hp.
      congruence.
    + by rewrite countCherries_single, filter_cherry_none.
  - intros Hp. apply isPremiumFlag_spec in Hp as ->.
    split; [reflexivity|]. split; [|reflexivity].
    rewrite !not_elem_of_cons. repeat split; try discriminate. apply not_elem_of_nil.
  - intros Hlen. split; apply not_true_iff_false.
    + intros Hy. apply checkSmallYakuMatch_spec in Hy as (x & -> & _). by apply Hlen.
    + intros Hp. apply isPremiumFlag_spec in Hp as ->. by apply Hlen.
Qed.

(** ** The classification of records *)

(** X3.  The classification of two records put one after the other adds
    their cherry counts and joins their flags; the classification of the
    empty record is all zero. *)
Theorem classify_app (record1 record2 : list (list Slot)) :
  cherryCount (classify (record1 ++ record2))
    = (cherryCount (classify record1) + cherryCount (classify record2))%nat
  /\ hasSmallYaku (classify (record1 ++ record2))
     = hasSmallYaku (classify record1) || hasSmallYaku (classify record2)
  /\ hasPremiumFlag (classify (record1 ++ record2))
     = hasPremiumFlag (classify record1) || hasPremiumFlag (classify record2)
  /\ classify [] = {| cherryCount := 0; hasSmallYaku := false; hasPremiumFlag := false |}.
Proof.
  rewrite !classify_cherryCount, !classify_hasSmallYaku, !classify_hasPremiumFlag.
  rewrite concat_app, filter_app, length_app, !existsb_app. auto.
Qed.

Lemma existsb_Permutation {A} (f : A -> bool) (l l' : list A) :
  l ≡ₚ l' -> existsb f l = existsb f l'.
Proof.
  induction 1 as [|x l l' _ IH|x y l|l l' l'' _ IH1 _ IH2]; simpl.
  - reflexivity.
  - by rewrite IH.
  - destruct (f x), (f y); reflexivity.
  - congruence.
Qed.

Lemma concat_Permutation {A} (l l' : list (list A)) :
  l ≡ₚ l' -> concat l ≡ₚ concat l'.
Proof.
  induction 1 as [|x l l' _ IH|x y l|l l' l'' _ IH1 _ IH2]; simpl.
  - reflexivity.
  - by rewrite IH.
  - rewrite !app_assoc. f_equiv. apply Permutation_app_comm.
  - by etransitivity.
Qed.

Lemma checkSmallYakuMatch_Permutation (s s' : list Slot) :
  s ≡ₚ s' -> checkSmallYakuMatch s = checkSmallYakuMatch s'.
Proof.
  assert (forall a b : list Slot, a ≡ₚ b ->
            checkSmallYakuMatch a = true -> checkSmallYakuMatch b = true) as Himp.
  { intros a b Hab Ha. apply checkSmallYakuMatch_spec in Ha as (x & -> & Hc & Hs).
    apply checkSmallYakuMatch_spec. exists x. split; [|auto].
    pose proof (Permutation_length Hab) as Hlen.
    destruct b as [|b0 [|b1 [|b2 [|b3 b]]]]; try discriminate.
    assert (forall y, y ∈ [b0; b1; b2] -> y = x) as Hall.
    { intros y Hy. rewrite <- Hab in Hy. rewrite !elem_of_cons in Hy.
      destruct Hy as [?|[?|[?|Hy]]]; auto. by apply elem_of_nil in Hy. }
    rewrite (Hall b0), (Hall b1), (Hall b2); [reflexivity|..];
      rewrite !elem_of_cons; auto. }
  intros Hp. destruct (checkSmallYakuMatch s) eqn:E.
  - symmetry. by apply (Himp s s').
  - destruct (checkSmallYakuMatch s') eqn:E'; [|reflexivity].
    rewrite (Himp s' s) in E; [discriminate | by symmetry | exact E'].
Qed.

Lemma isPremiumFlag_Permutation (s s' : list Slot) :
  s ≡ₚ s' -> isPremiumFlag s = isPremiumFlag s'.
Proof.
  intros Hp. unfold isPremiumFlag. rewrite (Permutation_length Hp). f_equal.
  induction Hp as [|x l l' _ IH|x y l|l l' l'' _ IH1 _ IH2]; simpl.
  - reflexivity.
  - by rewrite IH.
  - destruct (bool_decide (x = Sym Star)), (bool_decide (y = Sym Star)); reflexivity.
  - congruence.
Qed.

Lemma classification_eq (c c' : Classification) :
  cherryCount c = cherryCount c' -> hasSmallYaku c = hasSmallYaku c' ->
  hasPremiumFlag c = hasPremiumFlag c' -> c = c'.
Proof. destruct c, c'. simpl. congruence. Qed.

(** X4.  The classification depends neither on the order of the spins in
    the record nor on the order of the reels within a spin. *)
Theorem classify_order_independent (record record' : list (list Slot)) :
  (record ≡ₚ record' -> classify record = classify record')
  /\ (Forall2 (fun s s' => s ≡ₚ s') record record' ->
      classify record = classify record').
Proof.
  split.
  - intros Hp. apply classification_eq.
    + rewrite !classify_cherryCount. by rewrite (concat_Permutation _ _ Hp).
    + rewrite !classify_hasSmallYaku. by apply existsb_Permutation.
    + rewrite !classify_hasPremiumFlag. by apply existsb_Permutation.
  - intros H2. apply classification_eq.
    + rewrite !classify_cherryCount.
      induction H2 as [|s s' r r' Hs _ IH]; [reflexivity|].
      simpl. rewrite !filter_app, !length_app, IH. by rewrite Hs.
    + rewrite !classify_hasSmallYaku.
      induction H2 as [|s s' r r' Hs _ IH]; [reflexivity|].
      simpl. by rewrite IH, (checkSmallYakuMatch_Permutation _ _ Hs).
    + rewrite !classify_hasPremiumFlag.
      induction H2 as [|s s' r r' Hs _ IH]; [reflexivity|].
      simpl. by rewrite IH, (isPremiumFlag_Permutation _ _ Hs).
Qed.

(** ** Generated spins and rounds *)

Section GeneratedSpins.

Local Open Scope Q_scope.

Variable draws : nat -> Q.
Variable sortRandomly : list (option Symbol) -> Rand (list (option Symbol)).

Lemma floor_of_scaled_draw (u : Q) (k : Z) :
  (0 < k)%Z -> 0 <= u -> u < 1 -> (0 <= Qfloor (u * inject_Z k) < k)%Z.
Proof.
  intros Hk H0 H1.
  assert (0 < inject_Z k) as Hk'.
  { change (inject_Z 0 < inject_Z k). rewrite <- Zlt_Qlt. exact Hk. }
  split.
  - change 0%Z with (Qfloor 0). apply Qfloor_resp_le.
    apply Qmult_le_0_compat; [exact H0 | by apply Qlt_le_weak].
  - rewrite Zlt_Qlt. eapply Qle_lt_trans; [apply Qfloor_le|].
    rewrite <- (Qmult_1_l (inject_Z k)) at 2.
    apply Qmult_lt_compat_r; assumption.
Qed.

Lemma small_yaku_spin (n : nat) :
  0 <= draws n -> draws n < 1 ->
  exists y,
    generateSpinResult draws sortRandomly false true n
      = ([Some y; Some y; Some y], S n)
    /\ y ∈ [Lemon; Grape; Diamond; Bell]
    /\ arrayAt [Lemon; Grape; Diamond; Bell; Star] (Qfloor (draws n * 4)) = Some y
    /\ checkSmallYakuMatch (slotsOf [y; y; y]) = true
    /\ isPremiumFlag (slotsOf [y; y; y]) = false.
Proof.
  intros H0 H1.
  pose proof (floor_of_scaled_draw (draws n) 4 eq_refl H0 H1) as Hf.
  change (inject_Z 4) with (4 : Q) in Hf.
  unfold generateSpinResult, bind, random, ret.
  change (filter (fun s => s <> Cherry) SYMBOLS)
    with [Lemon; Grape; Diamond; Bell; Star].
  assert (Qfloor (draws n * 4) = 0 \/ Qfloor (draws n * 4) = 1
          \/ Qfloor (draws n * 4) = 2 \/ Qfloor (draws n * 4) = 3)%Z
    as [E|[E|[E|E]]] by lia; rewrite E;
    [exists Lemon | exists Grape | exists Diamond | exists Bell];
    (split; [reflexivity|]); (split; [|repeat split; reflexivity]);
    rewrite !elem_of_cons; auto.
Qed.

(** X5.  A forced small yaku, on a value of [Math.random()] in [0, 1), is
    three copies of one symbol among lemon, grape, diamond and bell (the
    index never reaches the premium symbol, fifth entry of the filtered
    array); it reads one value and passes [checkSmallYakuMatch]. *)
Theorem generateSpinResult_small_yaku (n : nat) :
  0 <= draws n -> draws n < 1 ->
  exists y,
    generateSpinResult draws sortRandomly false true n
      = ([Some y; Some y; Some y], S n)
    /\ y ∈ [Lemon; Grape; Diamond; Bell]
    /\ arrayAt [Lemon; Grape; Diamond; Bell; Star] (Qfloor (draws n * 4)) = Some y
    /\ checkSmallYakuMatch (slotsOf [y; y; y]) = true
    /\ isPremiumFlag (slotsOf [y; y; y]) = false.
Proof. apply small_yaku_spin. Qed.

Hypothesis sortRandomly_permutes : forall l n, (sortRandomly l n).1 ≡ₚ l.

(** The spin of the cherry branch before it is sorted. *)
Lemma generateSpinResult_cherry_unsorted (b : bool) (n : nat) :
  exists n',
    generateSpinResult draws sortRandomly true b n
    = sortRandomly
        (if Qltb (draws n) (3 # 10) then [Some Cherry; Some Cherry; Some Cherry]
         else if Qltb (draws (S n)) (1 # 2)
              then [Some Cherry; Some Cherry;
                    Some (generateWeightedSymbol (draws (S (S n))))]
              else [Some Cherry;
                    Some (generateWeightedSymbol (draws (S (S n))));
                    Some (generateWeightedSymbol (draws (S (S (S n)))))])
        n'.
Proof.
  unfold generateSpinResult, bind, random, ret.
  destruct (Qltb (draws n) (3 # 10)).
  - eexists. reflexivity.
  - destruct (Qltb (draws (S n)) (1 # 2)); eexists; reflexivity.
Qed.

Lemma cherry_spin (b : bool) (n : nat) :
  let spin := (generateSpinResult draws sortRandomly true b n).1 in
  let g2 := generateWeightedSymbol (draws (S (S n))) in
  let g3 := generateWeightedSymbol (draws (S (S (S n)))) in
  exists symbols,
    spin = map Some symbols
    /\ symbols ≡ₚ (if Qltb (draws n) (3 # 10) then [Cherry; Cherry; Cherry]
                   else if Qltb (draws (S n)) (1 # 2) then [Cherry; Cherry; g2]
                   else [Cherry; g2; g3])
    /\ length symbols = 3%nat
    /\ Cherry ∈ symbols
    /\ (1 <= countCherries [slotsOf symbols])%nat
    /\ generateSpinResult draws sortRandomly true b n
       = generateSpinResult draws sortRandomly true (negb b) n.
Proof.
  cbv zeta.
  destruct (generateSpinResult_cherry_unsorted b n) as [n' E].
  set (unsorted :=
         if Qltb (draws n) (3 # 10) then [Cherry; Cherry; Cherry]
         else if Qltb (draws (S n)) (1 # 2)
              then [Cherry; Cherry; generateWeightedSymbol (draws (S (S n)))]
              else [Cherry; generateWeightedSymbol (draws (S (S n)));
                    generateWeightedSymbol (draws (S (S (S n))))]).
  assert ((generateSpinResult draws sortRandomly true b n).1
          ≡ₚ map Some unsorted) as Hperm.
  { rewrite E, sortRandomly_permutes. unfold unsorted.
    destruct (Qltb (draws n) (3 # 10)); [reflexivity|].
    destruct (Qltb (draws (S n)) (1 # 2)); reflexivity. }
  apply Permutation_map_inv in Hperm as (symbols & Hs & Hp).
  exists symbols. split; [exact Hs|]. symmetry in Hp. split; [exact Hp|].
  assert (length unsorted = 3%nat /\ Cherry ∈ unsorted) as [Hl Hc].
  { unfold unsorted. destruct (Qltb (draws n) (3 # 10));
      [|destruct (Qltb (draws (S n)) (1 # 2))]; (split; [reflexivity|]);
      apply list_elem_of_here. }
  split; [by rewrite Hp|]. split; [by rewrite Hp|]. split.
  - rewrite countCherries_single.
    assert (Sym Cherry ∈ slotsOf symbols) as Hin.
    { unfold slotsOf. apply list_elem_of_fmap. exists Cherry.
      split; [reflexivity|]. by rewrite Hp. }
    destruct (filter (fun s => s = Sym Cherry) (slotsOf symbols)) eqn:Ef; [|simpl; lia].
    assert (Sym Cherry ∈ filter (fun s => s = Sym Cherry) (slotsOf symbols)) as Hf
      by (apply list_elem_of_filter; auto).
    rewrite Ef in Hf. by apply elem_of_nil in Hf.
  - reflexivity.
Qed.

(** X6.  A spin with forced cherries holds, in some order, three cherries
    when the first value read is below 0.3, else two cherries and one
    generated symbol when the second value is below 0.5, else one cherry and
    two generated symbols.  It always has three entries, all of them
    symbols, at least one of them a cherry; the small-yaku flag is not
    looked at. *)
Theorem generateSpinResult_cherry (b : bool) (n : nat) :
  let spin := (generateSpinResult draws sortRandomly true b n).1 in
  let g2 := generateWeightedSymbol (draws (S (S n))) in
  let g3 := generateWeightedSymbol (draws (S (S (S n)))) in
  exists symbols,
    spin = map Some symbols
    /\ symbols ≡ₚ (if Qltb (draws n) (3 # 10) then [Cherry; Cherry; Cherry]
                   else if Qltb (draws (S n)) (1 # 2) then [Cherry; Cherry; g2]
                   else [Cherry; g2; g3])
    /\ length symbols = 3%nat
    /\ Cherry ∈ symbols
    /\ (1 <= countCherries [slotsOf symbols])%nat
    /\ generateSpinResult draws sortRandomly true b n
       = generateSpinResult draws sortRandomly true (negb b) n.
Proof. apply cherry_spin. Qed.

Hypothesis draws_in_range : forall n, 0 <= draws n /\ draws n < 1.

Lemma pushSpins_three (spin : nat -> Rand (list (option Symbol))) (n : nat) :
  exists n1 n2,
    (pushSpins spin [0; 1; 2]%nat [] n).1
    = [(spin 0%nat n).1; (spin 1%nat n1).1; (spin 2%nat n2).1].
Proof.
  exists (spin 0%nat n).2, (spin 1%nat (spin 0%nat n).2).2.
  unfold pushSpins, bind, ret.
  destruct (spin 0%nat n) as [r0 n1]. simpl.
  destruct (spin 1%nat n1) as [r1 n2]. simpl.
  destruct (spin 2%nat n2) as [r2 n3]. reflexivity.
Qed.

(** Whatever its flags, a generated spin holds three symbols. *)
Lemma generated_spin (c y : bool) (n : nat) :
  exists symbols,
    (generateSpinResult draws sortRandomly c y n).1 = map Some symbols
    /\ length symbols = 3%nat
    /\ (c = true -> Cherry ∈ symbols)
    /\ (c = false -> y = true -> checkSmallYakuMatch (slotsOf symbols) = true).
Proof.
  destruct c.
  - destruct (cherry_spin y n) as (symbols & Hs & _ & Hl & Hc & _).
    exists symbols. repeat split; auto. discriminate.
  - destruct y.
    + destruct (draws_in_range n) as [H0 H1].
      destruct (small_yaku_spin n H0 H1) as (s & E & _ & _ & Hy & _).
      exists [s; s; s]. rewrite E. repeat split; auto. discriminate.
    + eexists [_; _; _]. unfold generateSpinResult, bind, nextSymbol, random, ret.
      simpl. repeat split; discriminate.
Qed.

(** The index of the small yaku, for a value of [Math.random()], a
    multiple of 2^-53 below 1: the product by 3, rounded, stays below 3. *)
Lemma floor_of_rounded_triple (u : Q) :
  0 <= u -> u <= 1 - 2 ^ (-53) -> (0 <= Qfloor (fmul u 3) <= 2)%Z.
Proof.
  intros H0 H1. unfold fmul.
  assert (0 <= u * 3) as Hx by (apply Qmult_le_0_compat; [exact H0 | discriminate]).
  split.
  - change 0%Z with (Qfloor 0). apply Qfloor_resp_le. by apply round64_nonneg.
  - assert (round64 (u * 3) < 3) as Hlt.
    { apply Qle_lt_trans with (round64 ((1 - 2 ^ (-53)) * 3)).
      - apply round64_mono; [exact Hx|].
        apply Qmult_le_compat_r; [exact H1 | discriminate].
      - vm_compute. reflexivity. }
    assert (Qfloor (round64 (u * 3)) < 3)%Z; [|lia].
    rewrite Zlt_Qlt. eapply Qle_lt_trans; [apply Qfloor_le | exact Hlt].
Qed.

(** X7.  A generated round is three spins of three symbols.  When the roll
    is below the double written [0.10] the first spin holds a cherry.  When
    it is not, and is below the double written [0.60] (which lies below
    3/5), the spin whose index is the floor of the rounded product of 3 and
    the next value is a small yaku, that value being at most 1 - 2^-53 as
    every value of [Math.random()] is.  When the roll is at or above the
    double written [0.60], the three spins are made of the symbols
    generated from the next nine values. *)
Theorem generateGameRound_shape (n : nat) :
  exists s0 s1 s2,
    (generateGameRound draws sortRandomly n).1
      = [map Some s0; map Some s1; map Some s2]
    /\ length s0 = 3%nat /\ length s1 = 3%nat /\ length s2 = 3%nat
    /\ (draws n < round64 (1 # 10) ->
        Cherry ∈ s0 /\ (1 <= countCherries (map slotsOf [s0; s1; s2]))%nat)
    /\ (round64 (1 # 10) <= draws n -> draws n < round64 (3 # 5) ->
        draws (S n) <= 1 - 2 ^ (-53) ->
        exists spin,
          [s0; s1; s2] !! Z.to_nat (Qfloor (fmul (draws (S n)) 3)) = Some spin
          /\ checkSmallYakuMatch (slotsOf spin) = true)
    /\ (round64 (3 # 5) <= draws n ->
        let g (k : nat) := generateWeightedSymbol (draws (k + n)) in
        s0 = [g 1; g 2; g 3]%nat /\ s1 = [g 4; g 5; g 6]%nat
        /\ s2 = [g 7; g 8; g 9]%nat).
Proof.
  unfold generateGameRound, bind, random, ret.
  destruct (Qltb (draws n) (round64 (1 # 10))) eqn:E1.
  - destruct (pushSpins_three
                (fun i => generateSpinResult draws sortRandomly (i =? 0)%nat false) (S n))
      as (n1 & n2 & ->). cbv beta. cbn [Nat.eqb].
    destruct (generated_spin true false (S n)) as (s0 & -> & L0 & C0 & _).
    destruct (generated_spin false false n1) as (s1 & -> & L1 & _).
    destruct (generated_spin false false n2) as (s2 & -> & L2 & _).
    apply Qltb_lt in E1.
    exists s0, s1, s2. split; [reflexivity|].
    split; [exact L0|]. split; [exact L1|]. split; [exact L2|]. split; [|split].
    + intros _. split; [by apply C0|].
      rewrite countCherries_filter. simpl.
      assert (Sym Cherry ∈ filter (fun s => s = Sym Cherry)
                (slotsOf s0 ++ slotsOf s1 ++ slotsOf s2 ++ [])) as Hf.
      { apply list_elem_of_filter. split; [reflexivity|].
        apply elem_of_app. left. apply list_elem_of_fmap. eauto. }
      destruct (filter _ _); [by apply elem_of_nil in Hf | simpl; lia].
    + intros Hge. exfalso. apply (Qlt_not_le _ _ E1 Hge).
    + intros Hge. exfalso. apply (Qlt_not_le _ _ E1).
      apply Qle_trans with (round64 (3 # 5)); [discriminate | exact Hge].
  - apply Qltb_ge in E1.
    destruct (Qltb (draws n) (round64 (3 # 5))) eqn:E2.
    + destruct (pushSpins_three
                  (fun i => generateSpinResult draws sortRandomly false
                              (Z.of_nat i =? Qfloor (fmul (draws (S n)) 3))%Z) (S (S n)))
        as (n1 & n2 & ->). cbv beta.
      apply Qltb_lt in E2.
      set (f := Qfloor (fmul (draws (S n)) 3)) in *.
      destruct (generated_spin false (Z.of_nat 0 =? f)%Z (S (S n)))
        as (s0 & -> & L0 & _ & Y0).
      destruct (generated_spin false (Z.of_nat 1 =? f)%Z n1)
        as (s1 & -> & L1 & _ & Y1).
      destruct (generated_spin false (Z.of_nat 2 =? f)%Z n2)
        as (s2 & -> & L2 & _ & Y2).
      exists s0, s1, s2. split; [reflexivity|].
      split; [exact L0|]. split; [exact L1|]. split; [exact L2|]. split; [|split].
      * intros Hlt. exfalso. apply (Qlt_not_le _ _ Hlt E1).
      * intros _ _ Hgrid.
        destruct (draws_in_range (S n)) as [H0 _].
        pose proof (floor_of_rounded_triple (draws (S n)) H0 Hgrid) as Hf.
        fold f in Hf.
        assert (f = 0 \/ f = 1 \/ f = 2)%Z as [Ef|[Ef|Ef]] by lia; rewrite Ef in *.
        -- exists s0. split; [reflexivity | by apply Y0].
        -- exists s1. split; [reflexivity | by apply Y1].
        -- exists s2. split; [reflexivity | by apply Y2].
      * intros Hge. exfalso. apply (Qlt_not_le _ _ E2 Hge).
    + apply Qltb_ge in E2.
      eexists [_; _; _], [_; _; _], [_; _; _].
      split; [reflexivity|]. do 3 (split; [reflexivity|]). split; [|split].
      * intros Hlt. exfalso. apply (Qlt_not_le _ _ Hlt E1).
      * intros _ Hlt. exfalso. apply (Qlt_not_le _ _ Hlt E2).
      * intros _. cbv zeta. repeat split.
Qed.

End GeneratedSpins.

Lemma generateSpinResult_small_yaku_witness :
  exists y,
    generateSpinResult (fun _ => 1 # 2) (fun l => ret l) false true 0%nat
      = ([Some y; Some y; Some y], 1%nat)
    /\ y ∈ [Lemon; Grape; Diamond; Bell]
    /\ arrayAt [Lemon; Grape; Diamond; Bell; Star] (Qfloor ((1 # 2) * 4)) = Some y
    /\ checkSmallYakuMatch (slotsOf [y; y; y]) = true
    /\ isPremiumFlag (slotsOf [y; y; y]) = false.
Proof.
  apply (generateSpinResult_small_yaku (fun _ => 1 # 2) (fun l => ret l) 0%nat);
    [discriminate | reflexivity].
Defined.

Lemma generateSpinResult_cherry_witness :
  exists symbols,
    (generateSpinResult (fun _ => 2 # 5) (fun l => ret l) true false 0%nat).1
      = map Some symbols
    /\ symbols ≡ₚ [Cherry; Cherry; Grape]
    /\ length symbols = 3%nat.
Proof.
  destruct (generateSpinResult_cherry (fun _ => 2 # 5) (fun l => ret l)
              (fun l n => Permutation_refl l) false 0%nat)
    as (symbols & Hs & Hp & Hl & _).
  exists symbols. split; [exact Hs|]. split; [exact Hp | exact Hl].
Defined.

Lemma generateGameRound_shape_witness :
  exists s0 s1 s2,
    (generateGameRound (fun _ => 1 # 4) (fun l => ret l) 0%nat).1
      = [map Some s0; map Some s1; map Some s2]
    /\ length s0 = 3%nat /\ length s1 = 3%nat /\ length s2 = 3%nat
    /\ exists spin,
         [s0; s1; s2] !! Z.to_nat (Qfloor (fmul (1 # 4) 3)) = Some spin
         /\ checkSmallYakuMatch (slotsOf spin) = true.
Proof.
  destruct (generateGameRound_shape (fun _ => 1 # 4) (fun l => ret l)
              (fun l n => Permutation_refl l)
              (fun _ => conj (Qlt_le_weak 0 (1 # 4) eq_refl)
                             (eq_refl : (1 # 4 < 1)%Q))
              0%nat)
    as (s0 & s1 & s2 & Hr & L0 & L1 & L2 & _ & Hy & _).
  exists s0, s1, s2. repeat (split; [assumption|]).
  apply Hy; [vm_compute; discriminate | vm_compute; reflexivity
            | vm_compute; discriminate].
Defined.

(** The doubles written [0.10] and [0.60], and what the round generator does
    at the latter, which is the multiple 5404319552844595 of 2^-53: the roll
    is not below it, and no small yaku is forced. *)
Example generateGameRound_literals :
  (round64 (1 # 10) == 3602879701896397 # 36028797018963968)%Q
  /\ (round64 (3 # 5) == 5404319552844595 # 9007199254740992)%Q
  /\ (round64 (3 # 5) < 3 # 5)%Q
  /\ Qltb (round64 (3 # 5)) (round64 (3 # 5)) = false
  /\ (fmul (6004799503160661 # 9007199254740992) 3 == 2)%Q.
Proof. repeat split; vm_compute; reflexivity. Qed.

(** ** Stops of different reels *)

Lemma other_reel_still_spinning (flags : list bool) (i j : nat) :
  i <> j -> flags !! i = Some true -> forallb negb (<[j := false]> flags) = false.
Proof.
  intros Hij Hi. apply not_true_iff_false. intros Hall.
  rewrite forallb_forall in Hall.
  specialize (Hall true). simpl in Hall.
  assert (In true (<[j := false]> flags)) as Hin; [|by specialize (Hall Hin)].
  apply list_elem_of_In, list_elem_of_lookup. exists i.
  by rewrite list_lookup_insert_ne.
Qed.

(** X8.  Stops of two different reels commute: whichever is made first,
    the component ends in the same state (same reels, flags, remaining
    stops, record, pending timeout and trace). *)
Theorem stopReel_commute (continueRate : Q) (i j : nat) (u v : Q) (w : World) :
  i <> j ->
  stopReel continueRate i u (stopReel continueRate j v w)
  = stopReel continueRate j v (stopReel continueRate i u w).
Proof.
  intros Hij.
  destruct (decide (isSpinning (ui w) !! i = Some true)) as [Hi|Hi];
    destruct (decide (isSpinning (ui w) !! j = Some true)) as [Hj|Hj].
  - assert (isSpinning (ui (stopReel continueRate j v w)) !! i = Some true) as Hi'.
    { destruct (stopReel_arrays continueRate j v w Hj) as (-> & _).
      by rewrite list_lookup_insert_ne. }
    assert (isSpinning (ui (stopReel continueRate i u w)) !! j = Some true) as Hj'.
    { destruct (stopReel_arrays continueRate i u w Hi) as (-> & _).
      by rewrite list_lookup_insert_ne. }
    rewrite (stopReel_spinning _ _ _ _ Hi'), (stopReel_spinning _ _ _ _ Hj').
    rewrite (stopReel_spinning _ _ _ _ Hi), (stopReel_spinning _ _ _ _ Hj).
    cbv zeta.
    rewrite (other_reel_still_spinning _ i j Hij Hi).
    rewrite (other_reel_still_spinning _ j i (not_eq_sym Hij) Hj).
    cbn [ui timeouts premiumModal trace remainingStops continueCount reels
         isSpinning currentSpinIndex showDrinkModal drinkCount showRushEffect
         rushNumber allSpinResults showGameOver showPremiumModal].
    rewrite (list_insert_insert_ne (isSpinning (ui w)) i j false false Hij).
    rewrite (list_insert_insert_ne (reels (ui w)) i j _ _ Hij).
    reflexivity.
  - rewrite (stopReel_idle _ j v w Hj).
    symmetry. apply stopReel_idle.
    destruct (stopReel_arrays continueRate i u w Hi) as (-> & _).
    by rewrite list_lookup_insert_ne.
  - rewrite (stopReel_idle _ i u w Hi).
    apply stopReel_idle.
    destruct (stopReel_arrays continueRate j v w Hj) as (-> & _).
    by rewrite list_lookup_insert_ne.
  - by rewrite (stopReel_idle _ i u w Hi), (stopReel_idle _ j v w Hj),
      (stopReel_idle _ i u w Hi).
Qed.

Lemma stopReel_commute_witness :
  stopReel (7 # 10) 0 (1 # 2) (stopReel (7 # 10) 2 (1 # 4) mounted)
  = stopReel (7 # 10) 2 (1 # 4) (stopReel (7 # 10) 0 (1 # 2) mounted).
Proof. apply (stopReel_commute (7 # 10) 0 2 (1 # 2) (1 # 4) mounted). lia. Defined.

(** ** What the reels, the record and the trace hold *)

Lemma Wired_frame (w w' : World) :
  reels (ui w') = reels (ui w) ->
  isSpinning (ui w') = isSpinning (ui w) ->
  allSpinResults (ui w') = allSpinResults (ui w) ->
  Forall timeoutWired (timeouts w') ->
  Forall obsWired (trace w') ->
  Wired w -> Wired w'.
Proof.
  intros Hr Hs Ha Ht Ho (L1 & L2 & H3 & H4 & H5 & _ & _).
  unfold Wired. rewrite Hr, Hs, Ha. auto 10.
Qed.

Lemma Wired_mounted : Wired mounted.
Proof.
  unfold Wired. simpl. repeat split; auto.
  - intros [|[|[|i]]]; simpl; intros [=]; reflexivity.
  - intros _ [|[|[|i]]]; simpl; intros [=].
  - repeat constructor.
Qed.

Lemma checkRoundResult_fields (continueRate : Q) (record : list (list Slot)) (u : Q)
    (w : World) :
  let w' := checkRoundResult continueRate record u w in
  reels (ui w') = reels (ui w)
  /\ isSpinning (ui w') = isSpinning (ui w)
  /\ allSpinResults (ui w') = allSpinResults (ui w)
  /\ remainingStops (ui w') = remainingStops (ui w)
  /\ currentSpinIndex (ui w') = currentSpinIndex (ui w)
  /\ trace w' = RoundCompleted record :: trace w
  /\ (exists added, timeouts w' = timeouts w ++ added
                    /\ (added = [] \/ added = [TProceed]
                        \/ added = [TEnd (continueCount (ui w))])).
Proof.
  cbv zeta. rewrite checkRoundResult_run. cbv zeta.
  destruct w as [[rs cc rl sp idx sdm dc sre rn asr sgo spm] tos pm tr].
  destruct (resolve _ _ _); run_handlers; do 6 (split; [reflexivity|]);
    first [ exists []; split; [by rewrite app_nil_r | auto]
          | eexists; split; [reflexivity | auto] ].
Qed.

Lemma Wired_checkRoundResult (continueRate : Q) (record : list (list Slot)) (u : Q)
    (w : World) :
  handedOver record -> Wired w -> Wired (checkRoundResult continueRate record u w).
Proof.
  intros Hrec HW.
  destruct (checkRoundResult_fields continueRate record u w)
    as (Hr & Hs & Ha & _ & _ & Ht & added & Hto & Hadded).
  apply (Wired_frame w); auto.
  - rewrite Hto. apply Forall_app. split; [apply HW|].
    destruct Hadded as [-> | [-> | ->]]; repeat constructor.
  - rewrite Ht. constructor; [exact Hrec | apply HW].
Qed.

Lemma Wired_showBlackoutAndProceed (w : World) :
  Wired w -> Wired (showBlackoutAndProceed w).
Proof.
  intros HW. apply (Wired_frame w); try apply HW;
    destruct w as [[rs cc rl sp idx sdm dc sre rn asr sgo spm] tos pm tr];
    try reflexivity.
  run_handlers. apply Forall_app. split; [apply HW | repeat constructor].
Qed.

Lemma Wired_startSpin (k : nat) (w : World) :
  Wired w -> Wired (startSpin k w).
Proof.
  intros HW. unfold startSpin. destruct (3 <=? k)%nat; [exact HW|].
  destruct HW as (_ & _ & _ & _ & H5 & H6 & H7).
  destruct w as [[rs cc rl sp idx sdm dc sre rn asr sgo spm] tos pm tr].
  unfold Wired. run_handlers. simpl in *.
  repeat split; auto.
  - intros [|[|[|i]]]; simpl; intros [=]; reflexivity.
  - intros _ [|[|[|i]]]; simpl; intros [=].
  - constructor; [exact I | exact H7].
Qed.

Lemma Wired_stopReel (continueRate : Q) (i : nat) (u : Q) (w : World) :
  Inv w -> Wired w -> Wired (stopReel continueRate i u w).
Proof.
  intros HI HW.
  destruct (decide (isSpinning (ui w) !! i = Some true)) as [Hs|Hs];
    [|by rewrite stopReel_idle].
  destruct (Inv_record_clean w i HI Hs) as [Hclean _].
  rewrite (stopReel_spinning _ _ _ _ Hs). cbv zeta.
  destruct HW as (L1 & L2 & H3 & H4 & H5 & H6 & H7).
  destruct w as [[rs cc rl sp idx sdm dc sre rn asr sgo spm] tos pm tr].
  simpl in *.
  destruct rl as [|r0 [|r1 [|r2 [|r3 rl]]]]; try discriminate.
  destruct sp as [|b0 [|b1 [|b2 [|b3 sp]]]]; try discriminate.
  pose proof (H3 0%nat) as H30. pose proof (H3 1%nat) as H31.
  pose proof (H3 2%nat) as H32.
  assert (exists j, [b0; b1; b2] !! j = Some true) as Hsome by eauto.
  pose proof (H4 Hsome 0%nat) as H40. pose proof (H4 Hsome 1%nat) as H41.
  pose proof (H4 Hsome 2%nat) as H42. clear H3 H4 Hsome.
  destruct i as [|[|[|i]]]; try discriminate; injection Hs as ->;
    destruct_all bool; simpl in *;
    repeat match goal with
    | H : Some true = Some true -> _ |- _ => specialize (H eq_refl)
    | H : Some false = Some false -> _ |- _ => specialize (H eq_refl)
    | H : Some _ = Some Placeholder |- _ => injection H as ->
    | H : exists s, Some _ = Some (Sym s) |- _ =>
        let s := fresh "s" in destruct H as [s [= ->]]
    end;
    unfold Wired; simpl;
    (split; [reflexivity|]); (split; [reflexivity|]);
    (split; [intros [|[|[|?]]]; simpl; intros [=]; reflexivity|]);
    (split; [intros [j Hj] [|[|[|?]]]; simpl; intros [=]; eauto;
             destruct j as [|[|[|?]]]; discriminate|]);
    try (split; [exact H5|]; split; [exact H6 | exact H7]);
    (split; [apply Forall_app; split; [exact H5|]; repeat constructor;
             eexists _, _, _; reflexivity|]);
    (split; [apply Forall_app; split; [exact H6|]; repeat constructor;
             destruct (qualifies _); simpl;
             (eexists asr, _; split; [reflexivity|]; split; [exact Hclean|];
              apply Forall_app; split; [exact H5|]; repeat constructor;
              eexists _, _, _; reflexivity)|]);
    (constructor; [eexists _, _, _; reflexivity | exact H7]).
Qed.

Lemma Wired_runTimeout (continueRate : Q) (k : nat) (t : Timeout) (u : Q) (w : World) :
  Wired w ->
  timeouts w !! k = Some t ->
  Wired (runTimeout continueRate t u
           {| ui := ui w; timeouts := delete k (timeouts w);
              premiumModal := premiumModal w; trace := trace w |}).
Proof.
  intros HW Hk.
  assert (timeoutWired t) as Ht.
  { destruct HW as (_ & _ & _ & _ & _ & H6 & _).
    rewrite Forall_forall in H6. apply H6. apply list_elem_of_lookup. eauto. }
  assert (Wired {| ui := ui w; timeouts := delete k (timeouts w);
                   premiumModal := premiumModal w; trace := trace w |}) as HW'.
  { apply (Wired_frame w); try reflexivity; try apply HW.
    simpl. apply Forall_delete, HW. }
  destruct t as [record|n record| |c]; cbn [runTimeout].
  - by apply Wired_checkRoundResult.
  - destruct (n <? 2)%nat; [by apply Wired_startSpin | by apply Wired_checkRoundResult].
  - set (w0 := {| ui := ui w; timeouts := delete k (timeouts w);
                  premiumModal := premiumModal w; trace := trace w |}) in *.
    unfold startNewRound.
    apply Wired_startSpin.
    destruct HW' as (_ & _ & _ & _ & _ & H6 & H7).
    destruct w0 as [[rs cc rl sp idx sdm dc sre rn asr sgo spm] tos pm tr].
    unfold Wired. run_handlers. simpl in *.
    repeat split; auto;
      try (intros [|[|[|i]]]; simpl; intros [=]);
      try (intros [[|[|[|j]]] [=]]);
      try (constructor; [exact I | exact H7]).
  - apply (Wired_frame w); try apply HW;
      destruct w as [[rs cc rl sp idx sdm dc sre rn asr sgo spm] tos pm tr];
      try reflexivity.
    + simpl. apply Forall_delete, HW.
    + run_handlers. constructor; [exact I | apply HW].
Qed.

Lemma Wired_step (continueRate : Q) (w : World) (e : Event) :
  Inv w -> Wired w -> Wired (step continueRate w e).
Proof.
  intros HI HW. destruct e as [i u|u|k u| | |u|]; cbv beta iota delta [step].
  - by apply Wired_stopReel.
  - unfold handleKeyPress.
    destruct (list_find _ _) as [[j b]|]; [by apply Wired_stopReel | exact HW].
  - destruct (timeouts w !! k) eqn:Hk; [by apply Wired_runTimeout | exact HW].
  - destruct (showDrinkModal (ui w)); [|exact HW].
    unfold handleDrinkModalClose. apply Wired_showBlackoutAndProceed.
    apply (Wired_frame w); try apply HW;
      destruct w as [[rs cc rl sp idx sdm dc sre rn asr sgo spm] tos pm tr];
      reflexivity.
  - destruct (premiumModal w) as [[[| |] o]|]; try exact HW;
      apply (Wired_frame w); try apply HW; reflexivity.
  - destruct (premiumModal w) as [[[| |] o]|]; try exact HW;
      apply (Wired_frame w); try apply HW; reflexivity.
  - destruct (premiumModal w) as [[[| |] o]|]; try exact HW.
    unfold handlePremiumModalClose. apply Wired_showBlackoutAndProceed.
    apply (Wired_frame w); try apply HW;
      destruct w as [[rs cc rl sp idx sdm dc sre rn asr sgo spm] tos pm tr];
      reflexivity.
Qed.

Lemma reachable_Wired (continueRate : Q) (w : World) :
  reachable continueRate w -> Wired w.
Proof.
  induction 1 as [|w e Hr IH]; [apply Wired_mounted|].
  apply Wired_step; [by apply (reachable_Inv continueRate) | exact IH].
Qed.

(** X9.  In every reachable state a spinning reel shows the placeholder
    and, while a spin is under way, a stopped reel shows the symbol it was
    given; every spin in the record, every spin reported as settled and
    every spin of a record handed to the resolver is made of three symbols,
    never of [null] or of the placeholder. *)
Theorem reels_and_record_wired (continueRate : Q) (w : World) :
  reachable continueRate w ->
  length (reels (ui w)) = 3%nat /\ length (isSpinning (ui w)) = 3%nat
  /\ (forall i, isSpinning (ui w) !! i = Some true ->
                reels (ui w) !! i = Some Placeholder)
  /\ ((exists j, isSpinning (ui w) !! j = Some true) ->
      forall i, isSpinning (ui w) !! i = Some false ->
                exists s, reels (ui w) !! i = Some (Sym s))
  /\ (forall spin, spin ∈ allSpinResults (ui w) -> settledSlots spin)
  /\ (forall spin, SpinSettled spin ∈ trace w -> settledSlots spin)
  /\ (forall record spin,
        RoundCompleted record ∈ trace w -> spin ∈ record -> settledSlots spin).
Proof.
  intros Hr. apply reachable_Wired in Hr as (L1 & L2 & H3 & H4 & H5 & _ & H7).
  rewrite Forall_forall in H5. rewrite Forall_forall in H7.
  do 4 (split; [assumption|]). split; [exact H5|]. split.
  - intros spin Hin. apply (H7 _ Hin).
  - intros record spin Hin Hs. destruct (H7 _ Hin) as (_ & _ & _ & _ & Hall).
    rewrite Forall_forall in Hall. by apply Hall.
Qed.

Lemma reels_and_record_wired_witness :
  let w := run (7 # 10) mounted [StopClicked 1 (1 # 2)] in
  reels (ui w) !! 0%nat = Some Placeholder
  /\ exists s, reels (ui w) !! 1%nat = Some (Sym s).
Proof.
  cbv zeta.
  destruct (reels_and_record_wired (7 # 10)
              (run (7 # 10) mounted [StopClicked 1 (1 # 2)])
              (reachable_run _ _ _ (reachable_mounted _)))
    as (_ & _ & H3 & H4 & _).
  split; [apply H3; reflexivity|].
  apply H4; [exists 0%nat; reflexivity | reflexivity].
Defined.

(** ** A spin stopped reel by reel *)

Lemma stop_all_reels (continueRate : Q) (i j k : nat) (u0 u1 u2 : Q) (w : World) :
  [i; j; k] ≡ₚ [0; 1; 2]%nat ->
  isSpinning (ui w) = [true; true; true] ->
  length (reels (ui w)) = 3%nat ->
  let draw (reel : nat) :=
    match reel with 0%nat => u0 | 1%nat => u1 | _ => u2 end in
  let spin := [Sym (generateWeightedSymbol u0); Sym (generateWeightedSymbol u1);
               Sym (generateWeightedSymbol u2)] in
  let s := ui w in
  run continueRate w
    [StopClicked i (draw i); StopClicked j (draw j); StopClicked k (draw k)]
  = mkWorld
      (mkState (remainingStops s - 1 - 1 - 1) (continueCount s) spin allStopped
         (currentSpinIndex s) (showDrinkModal s) (drinkCount s)
         (showRushEffect s) (rushNumber s) (allSpinResults s ++ [spin])
         (showGameOver s) (showPremiumModal s))
      (timeouts w ++
         [if qualifies spin then TCheckRound (allSpinResults s ++ [spin])
          else TNextSpinOrCheck (currentSpinIndex s) (allSpinResults s ++ [spin])])
      (premiumModal w) (SpinSettled spin :: trace w).
Proof.
  intros Hperm Hsp Hlen.
  assert ((i, j, k) = (0, 1, 2) \/ (i, j, k) = (0, 2, 1) \/ (i, j, k) = (1, 0, 2)
          \/ (i, j, k) = (1, 2, 0) \/ (i, j, k) = (2, 0, 1)
          \/ (i, j, k) = (2, 1, 0))%nat as Hcases.
  { assert (i ∈ [0; 1; 2]%nat) as Hi by (rewrite <- Hperm; apply list_elem_of_here).
    assert (j ∈ [0; 1; 2]%nat) as Hj
      by (rewrite <- Hperm; apply list_elem_of_further, list_elem_of_here).
    assert (k ∈ [0; 1; 2]%nat) as Hk
      by (rewrite <- Hperm; do 2 apply list_elem_of_further; apply list_elem_of_here).
    assert (NoDup [i; j; k]) as Hnd.
    { rewrite Hperm. by apply (bool_decide_unpack _). }
    rewrite !elem_of_cons in Hi, Hj, Hk.
    rewrite !NoDup_cons in Hnd. rewrite !not_elem_of_cons in Hnd.
    destruct Hnd as ((? & ? & _) & (? & _) & _).
    destruct Hi as [->|[->|[->|Hi]]]; [| | |by apply elem_of_nil in Hi];
      destruct Hj as [->|[->|[->|Hj]]]; try congruence;
      try (by apply elem_of_nil in Hj);
      destruct Hk as [->|[->|[->|Hk]]]; try congruence;
      try (by apply elem_of_nil in Hk); auto 10. }
  destruct w as [[rs cc rl sp idx sdm dc sre rn asr sgo spm] tos pm tr].
  simpl in Hsp, Hlen. subst sp.
  destruct rl as [|r0 [|r1 [|r2 [|r3 rl]]]]; try discriminate.
  cbv zeta.
  destruct Hcases as [E|[E|[E|[E|[E|E]]]]]; injection E as -> -> ->;
    unfold run; cbn [fold_left step];
    rewrite stopReel_spinning by reflexivity; cbv zeta;
    cbn [ui isSpinning reels forallb negb andb insert list_insert];
    rewrite stopReel_spinning by reflexivity; cbv zeta;
    cbn [ui isSpinning reels forallb negb andb insert list_insert];
    rewrite stopReel_spinning by reflexivity; cbv zeta;
    cbn [ui isSpinning reels forallb negb andb insert list_insert
         timeouts trace allSpinResults remainingStops currentSpinIndex
         continueCount showDrinkModal drinkCount showRushEffect rushNumber
         showGameOver showPremiumModal premiumModal];
    reflexivity.
Qed.

(** X10.  When the three reels of a spin are stopped, in any order, the
    spin that settles holds for each reel the symbol generated from the draw
    that reel's stop read, and the state reached is the same as when the
    reels are stopped from left to right: record, remaining stops (three
    fewer), trace and pending timeout do not depend on the order. *)
Theorem settled_spin_independent_of_stop_order (continueRate : Q) (i j k : nat)
    (u0 u1 u2 : Q) (w : World) :
  [i; j; k] ≡ₚ [0; 1; 2]%nat ->
  isSpinning (ui w) = [true; true; true] ->
  length (reels (ui w)) = 3%nat ->
  let draw (reel : nat) :=
    match reel with 0%nat => u0 | 1%nat => u1 | _ => u2 end in
  let spin := [Sym (generateWeightedSymbol u0); Sym (generateWeightedSymbol u1);
               Sym (generateWeightedSymbol u2)] in
  let w' := run continueRate w
              [StopClicked i (draw i); StopClicked j (draw j); StopClicked k (draw k)] in
  w' = run continueRate w [StopClicked 0 u0; StopClicked 1 u1; StopClicked 2 u2]
  /\ reels (ui w') = spin
  /\ isSpinning (ui w') = allStopped
  /\ allSpinResults (ui w') = allSpinResults (ui w) ++ [spin]
  /\ remainingStops (ui w') = remainingStops (ui w) - 3
  /\ trace w' = SpinSettled spin :: trace w.
Proof.
  intros Hperm Hsp Hlen. cbv beta zeta.
  pose proof (stop_all_reels continueRate i j k u0 u1 u2 w Hperm Hsp Hlen) as Hijk.
  pose proof (stop_all_reels continueRate 0 1 2 u0 u1 u2 w (Permutation_refl _) Hsp Hlen)
    as H012.
  cbv beta iota zeta in Hijk, H012. rewrite Hijk, H012.
  split; [reflexivity|]. simpl. repeat split. lia.
Qed.

Lemma settled_spin_independent_of_stop_order_witness :
  run (7 # 10) mounted [StopClicked 2 (3 # 4); StopClicked 0 (1 # 4); StopClicked 1 (1 # 2)]
  = run (7 # 10) mounted [StopClicked 0 (1 # 4); StopClicked 1 (1 # 2); StopClicked 2 (3 # 4)].
Proof.
  apply (settled_spin_independent_of_stop_order (7 # 10) 2 0 1
           (1 # 4) (1 # 2) (3 # 4) mounted); [|reflexivity|reflexivity].
  change [2; 0; 1]%nat with ([2]%nat ++ [0; 1]%nat).
  rewrite Permutation_app_comm. reflexivity.
Defined.

Lemma space_presses_are_stops (continueRate : Q) (u0 u1 u2 : Q) (w : World) :
  isSpinning (ui w) = [true; true; true] ->
  run continueRate w [SpacePressed u0; SpacePressed u1; SpacePressed u2]
  = run continueRate w [StopClicked 0 u0; StopClicked 1 u1; StopClicked 2 u2].
Proof.
  intros Hsp. unfold run. cbn [fold_left step].
  assert (handleKeyPress continueRate u0 w = stopReel continueRate 0 u0 w) as E0.
  { unfold handleKeyPress. rewrite Hsp. reflexivity. }
  rewrite E0.
  assert (isSpinning (ui (stopReel continueRate 0 u0 w)) = [false; true; true]) as Hs1.
  { destruct (stopReel_arrays continueRate 0 u0 w) as (-> & _); by rewrite Hsp. }
  assert (handleKeyPress continueRate u1 (stopReel continueRate 0 u0 w)
          = stopReel continueRate 1 u1 (stopReel continueRate 0 u0 w)) as E1.
  { unfold handleKeyPress. rewrite Hs1. reflexivity. }
  rewrite E1.
  assert (isSpinning (ui (stopReel continueRate 1 u1 (stopReel continueRate 0 u0 w)))
          = [false; false; true]) as Hs2.
  { destruct (stopReel_arrays continueRate 1 u1 (stopReel continueRate 0 u0 w))
      as (-> & _); by rewrite Hs1. }
  unfold handleKeyPress. rewrite Hs2. reflexivity.
Qed.

(** X11.  Pressing the space key three times in a spin whose reels all spin
    settles the spin that [generateSpinResult()] returns when it reads the
    same three values: the reels are stopped from left to right, each with
    the symbol generated from the next value. *)
Theorem space_presses_generate_spin (continueRate : Q) (draws : nat -> Q)
    (sortRandomly : list (option Symbol) -> Rand (list (option Symbol)))
    (n : nat) (w : World) :
  isSpinning (ui w) = [true; true; true] ->
  length (reels (ui w)) = 3%nat ->
  let w' := run continueRate w
              [SpacePressed (draws n); SpacePressed (draws (S n));
               SpacePressed (draws (S (S n)))] in
  exists symbols,
    generateSpinResult draws sortRandomly false false n
      = (map Some symbols, S (S (S n)))
    /\ reels (ui w') = slotsOf symbols
    /\ allSpinResults (ui w') = allSpinResults (ui w) ++ [slotsOf symbols]
    /\ trace w' = SpinSettled (slotsOf symbols) :: trace w
    /\ isSpinning (ui w') = allStopped.
Proof.
  intros Hsp Hlen. cbv zeta.
  rewrite (space_presses_are_stops _ _ _ _ _ Hsp).
  pose proof (stop_all_reels continueRate 0 1 2 (draws n) (draws (S n))
                (draws (S (S n))) w (Permutation_refl _) Hsp Hlen) as H012.
  cbv beta iota zeta in H012. rewrite H012.
  exists [generateWeightedSymbol (draws n); generateWeightedSymbol (draws (S n));
          generateWeightedSymbol (draws (S (S n)))].
  repeat split.
Qed.

Lemma space_presses_generate_spin_witness :
  exists symbols,
    generateSpinResult (fun _ => 1 # 2) (fun l => ret l) false false 0%nat
      = (map Some symbols, 3%nat)
    /\ reels (ui (run (7 # 10) mounted
                    [SpacePressed (1 # 2); SpacePressed (1 # 2); SpacePressed (1 # 2)]))
       = slotsOf symbols.
Proof.
  destruct (space_presses_generate_spin (7 # 10) (fun _ => 1 # 2) (fun l => ret l)
              0%nat mounted eq_refl eq_refl) as (symbols & Hg & Hr & _).
  exists symbols. split; [exact Hg | exact Hr].
Defined.

(** ** The remaining-stops counter *)

Lemma Counted_frame (w w' : World) :
  remainingStops (ui w') = remainingStops (ui w) ->
  isSpinning (ui w') = isSpinning (ui w) ->
  allSpinResults (ui w') = allSpinResults (ui w) ->
  Counted w -> Counted w'.
Proof. intros Hr Hs Ha. unfold Counted. by rewrite Hr, Hs, Ha. Qed.

Lemma Counted_stopReel (continueRate : Q) (i : nat) (u : Q) (w : World) :
  length (isSpinning (ui w)) = 3%nat ->
  Counted w -> Counted (stopReel continueRate i u w).
Proof.
  intros Ls HC.
  destruct (decide (isSpinning (ui w) !! i = Some true)) as [Hs|Hs];
    [|by rewrite stopReel_idle].
  rewrite (stopReel_spinning _ _ _ _ Hs). cbv zeta.
  destruct HC as (H1 & H2 & H3).
  destruct w as [[rs cc rl sp idx sdm dc sre rn asr sgo spm] tos pm tr].
  simpl in *.
  destruct sp as [|b0 [|b1 [|b2 [|b3 sp]]]]; try discriminate.
  destruct i as [|[|[|i]]]; try discriminate; injection Hs as ->;
    destruct_all bool; unfold Counted, stoppedInSpin in *; simpl in *;
    rewrite ?length_app; simpl; specialize (H3 eq_refl);
    (split; [lia|]); (split; [lia|]); intros; try lia; discriminate.
Qed.

Lemma Counted_startSpin (k : nat) (w : World) :
  isSpinning (ui w) = allStopped ->
  (k < 3 -> length (allSpinResults (ui w)) <= 2)%nat ->
  Counted w -> Counted (startSpin k w).
Proof.
  intros Hst Hk (H1 & H2 & H3). unfold startSpin.
  destruct (3 <=? k)%nat eqn:E; [by repeat split|].
  apply Nat.leb_gt in E. specialize (Hk E).
  destruct w as [[rs cc rl sp idx sdm dc sre rn asr sgo spm] tos pm tr].
  simpl in *. subst sp. unfold Counted, stoppedInSpin in *. simpl in *.
  repeat split; auto; lia.
Qed.

Lemma Counted_step (continueRate : Q) (w : World) (e : Event) :
  Inv w -> Counted w -> Counted (step continueRate w e).
Proof.
  intros HI HC. pose proof HI as (_ & Ls & _ & current & past & _ & _ & Hphase).
  destruct e as [i u|u|k u| | |u|]; cbv beta iota delta [step].
  - by apply Counted_stopReel.
  - unfold handleKeyPress.
    destruct (list_find _ _) as [[j b]|]; [by apply Counted_stopReel | exact HC].
  - destruct (timeouts w !! k) as [t|] eqn:Hk; [|exact HC].
    set (w0 := {| ui := ui w; timeouts := delete k (timeouts w);
                  premiumModal := premiumModal w; trace := trace w |}).
    assert (Counted w0) as HC0 by (by apply (Counted_frame w)).
    destruct t as [record|n record| |c]; cbn [runTimeout].
    + destruct (checkRoundResult_fields continueRate record u w0)
        as (_ & Hs & Ha & Hr & _).
      by apply (Counted_frame w0).
    + destruct (n <? 2)%nat eqn:En.
      * apply Nat.ltb_lt in En.
        destruct Hphase as [Hph|[Hph|[Hph|Hph]]].
        -- destruct Hph as (? & _ & _ & _ & Hto & _). rewrite Hto in Hk. discriminate.
        -- destruct Hph as (m & rec & s & before & Ho & _ & _ & Hst & Hall & _ & _ & Hcase).
           apply Counted_startSpin; [exact Hst| |exact HC0].
           intros _. simpl. rewrite Hall, length_app. simpl.
           apply openRound_facts in Ho as (Hl & _).
           destruct Hcase as [[_ Hto]|[_ Hto]]; rewrite Hto in Hk;
             destruct k; try discriminate; injection Hk as [= <-]; lia.
        -- destruct Hph as (_ & _ & Hcase).
           destruct Hcase as [(_ & _ & Hto)|[(_ & _ & Hto)|[(_ & _ & Hto)|(_ & _ & Hto)]]];
             rewrite Hto in Hk; destruct k; discriminate.
        -- destruct Hph as (? & _ & _ & _ & Hto & _). rewrite Hto in Hk. discriminate.
      * destruct (checkRoundResult_fields continueRate record u w0)
          as (_ & Hs & Ha & Hr & _).
        by apply (Counted_frame w0).
    + destruct w as [[rs cc rl sp idx sdm dc sre rn asr sgo spm] tos pm tr].
      unfold Counted, stoppedInSpin. run_events. simpl. repeat split; lia.
    + apply (Counted_frame w); try exact HC;
        destruct w as [[rs cc rl sp idx sdm dc sre rn asr sgo spm] tos pm tr];
        reflexivity.
  - destruct (showDrinkModal (ui w)); [|exact HC].
    apply (Counted_frame w); try exact HC;
      destruct w as [[rs cc rl sp idx sdm dc sre rn asr sgo spm] tos pm tr];
      reflexivity.
  - destruct (premiumModal w) as [[[| |] o]|]; exact HC.
  - destruct (premiumModal w) as [[[| |] o]|]; exact HC.
  - destruct (premiumModal w) as [[[| |] o]|]; exact HC.
Qed.

Lemma reachable_Counted (continueRate : Q) (w : World) :
  reachable continueRate w -> Counted w.
Proof.
  induction 1 as [|w e Hr IH].
  - unfold Counted, stoppedInSpin. simpl. repeat split; lia.
  - apply Counted_step; [by apply (reachable_Inv continueRate) | exact IH].
Qed.

(** X12.  In every reachable state the remaining-stops counter is 9 minus
    three for each spin in the record minus one for each reel already
    stopped in the spin under way; it stays between 0 and 9, and it is 0
    exactly when the record holds three spins. *)
Theorem remainingStops_counts_stops (continueRate : Q) (w : World) :
  reachable continueRate w ->
  remainingStops (ui w)
    = 9 - 3 * Z.of_nat (length (allSpinResults (ui w)))
      - Z.of_nat (stoppedInSpin (isSpinning (ui w)))
  /\ 0 <= remainingStops (ui w) <= 9
  /\ (remainingStops (ui w) = 0 <-> length (allSpinResults (ui w)) = 3%nat)
  /\ (stoppedInSpin (isSpinning (ui w)) <= 2)%nat.
Proof.
  intros Hr. pose proof (reachable_Inv _ _ Hr) as (_ & Ls & _).
  apply reachable_Counted in Hr as (H1 & H2 & H3).
  assert (stoppedInSpin (isSpinning (ui w)) <= 2
          /\ (length (allSpinResults (ui w)) = 3
              -> stoppedInSpin (isSpinning (ui w)) = 0))%nat as [Hs Hz].
  { unfold stoppedInSpin in *.
    destruct (isSpinning (ui w)) as [|b0 [|b1 [|b2 [|b3 sp]]]]; try discriminate.
    destruct b0, b1, b2; simpl in *; split; try lia;
      intros; specialize (H3 eq_refl); lia. }
  split; [exact H1|]. split; [lia|]. split; [|exact Hs].
  split; [lia|]. intros H. specialize (Hz H). lia.
Qed.

Lemma remainingStops_counts_stops_witness :
  let w := run (7 # 10) mounted
             [StopClicked 0 (1 # 4); StopClicked 1 (1 # 2); StopClicked 2 (3 # 4);
              TimeoutFired 0 0; StopClicked 2 (1 # 2)] in
  remainingStops (ui w)
    = 9 - 3 * Z.of_nat (length (allSpinResults (ui w)))
      - Z.of_nat (stoppedInSpin (isSpinning (ui w)))
  /\ 0 <= remainingStops (ui w) <= 9
  /\ (remainingStops (ui w) = 0 <-> length (allSpinResults (ui w)) = 3%nat)
  /\ (stoppedInSpin (isSpinning (ui w)) <= 2)%nat.
Proof.
  cbv zeta. apply (remainingStops_counts_stops (7 # 10)).
  apply reachable_run, reachable_mounted.
Defined.

(** ** The records handed to the resolver *)

Lemma clean_spins (before : list (list Slot)) :
  Forall (fun s => qualifies s = false) before ->
  Forall (fun s => checkSmallYakuMatch s = false) before
  /\ existsb checkSmallYakuMatch before = false.
Proof.
  induction 1 as [|s before Hs _ [IH1 IH2]]; [by split|].
  rewrite qualifies_smallYaku in Hs.
  split; [by constructor|]. simpl. by rewrite Hs, IH2.
Qed.

Lemma handedOver_classify (record : list (list Slot)) :
  handedOver record ->
  exists before s,
    record = before ++ [s]
    /\ Forall (fun s => checkSmallYakuMatch s = false) before
    /\ settledSlots s
    /\ cherryCount (classify record) = 0%nat
    /\ hasSmallYaku (classify record) = checkSmallYakuMatch s.
Proof.
  intros (before & s & -> & Hb & Hs). exists before, s.
  pose proof (proj1 (Forall_app _ _ _) Hs) as [_ Hs'].
  inversion Hs' as [|? ? Hs1 _]; subst. clear Hs Hs'. rename Hs1 into Hs.
  destruct (clean_spins before Hb) as [Hc Hy].
  rewrite classify_no_cherry, classify_hasSmallYaku.
  rewrite existsb_app, Hy. simpl. rewrite orb_false_r. auto 10.
Qed.

(** The resolver on a classification without cherries. *)
Lemma resolve_no_cherry (continueRate : Q) (c : Classification) (u : Q) :
  cherryCount c = 0%nat ->
  resolve continueRate c u =
    if hasPremiumFlag c then PremiumSubEvent
    else if hasSmallYaku c then
      if Qltb u (1 # 5) then ContinueWithBonusReveal 1 else Continue
    else if Qltb u continueRate then Continue else Terminate.
Proof. intros E. unfold resolve. by rewrite E. Qed.

Lemma resolve_drinks (continueRate : Q) (c : Classification) (u : Q) (n : nat) :
  resolve continueRate c u = ContinueWithBonusReveal n ->
  hasPremiumFlag c = false
  /\ ((n = 1%nat /\ cherryCount c = 0%nat /\ hasSmallYaku c = true)
      \/ (n = cherryCount c /\ (2 <= n)%nat)).
Proof.
  unfold resolve.
  destruct (hasPremiumFlag c); [discriminate|].
  intros H. split; [reflexivity|]. revert H.
  destruct (0 <? cherryCount c)%nat eqn:E0.
  - destruct (3 <=? cherryCount c)%nat eqn:E3.
    + intros [= <-]. apply Nat.leb_le in E3. right. split; [reflexivity | lia].
    + destruct (2 <=? cherryCount c)%nat eqn:E2; [|discriminate].
      destruct (Qltb u (3 # 10)); [|discriminate].
      intros [= <-]. apply Nat.leb_le in E2. auto.
  - apply Nat.ltb_ge in E0. destruct (hasSmallYaku c).
    + destruct (Qltb u (1 # 5)); [|discriminate]. intros [= <-].
      left. repeat split; lia.
    + destruct (Qltb u continueRate); discriminate.
Qed.

(** ** What the component shows *)

Lemma isProceed_delete (tos : list Timeout) (k : nat) (t : Timeout) :
  tos !! k = Some t ->
  length (List.filter isProceed tos)
  = (length (List.filter isProceed (delete k tos))
     + (if isProceed t then 1 else 0))%nat.
Proof.
  revert k. induction tos as [|x tos IH]; intros [|k] H; try discriminate;
    simpl in *.
  - injection H as ->. destruct (isProceed t); simpl; lia.
  - specialize (IH _ H). destruct (isProceed x); simpl; lia.
Qed.

Lemma Shown_frame (w w' : World) :
  continueCount (ui w') = continueCount (ui w) ->
  showRushEffect (ui w') = showRushEffect (ui w) ->
  rushNumber (ui w') = rushNumber (ui w) ->
  showGameOver (ui w') = showGameOver (ui w) ->
  showDrinkModal (ui w') = showDrinkModal (ui w) ->
  drinkCount (ui w') = drinkCount (ui w) ->
  showPremiumModal (ui w') = showPremiumModal (ui w) ->
  premiumModal w' = premiumModal w ->
  List.filter isRoundStart (trace w') = List.filter isRoundStart (trace w) ->
  List.filter isProceed (timeouts w') = List.filter isProceed (timeouts w) ->
  Shown w -> Shown w'.
Proof.
  intros H1 H2 H3 H4 H5 H6 H7 H8 H9 H10.
  unfold Shown, RushInv, RoundsInv, ModalInv.
  by rewrite H1, H2, H3, H4, H5, H6, H7, H8, H9, H10.
Qed.

Lemma Shown_mounted : Shown mounted.
Proof.
  unfold Shown, RushInv, RoundsInv, ModalInv. simpl.
  repeat split; try lia; try discriminate.
  intros [? ?]. discriminate.
Qed.

Lemma Shown_stopReel (continueRate : Q) (i : nat) (u : Q) (w : World) :
  Shown w -> Shown (stopReel continueRate i u w).
Proof.
  intros HS.
  destruct (decide (isSpinning (ui w) !! i = Some true)) as [Hs|Hs];
    [|by rewrite stopReel_idle].
  rewrite (stopReel_spinning _ _ _ _ Hs). cbv zeta.
  destruct (forallb negb _); apply (Shown_frame w); try exact HS;
    try reflexivity.
  simpl. rewrite List.filter_app. simpl.
  destruct (qualifies _); simpl; apply app_nil_r.
Qed.

Lemma Shown_startSpin (k : nat) (w : World) :
  Shown w -> Shown (startSpin k w).
Proof.
  intros HS. unfold startSpin. destruct (3 <=? k)%nat; [exact HS|].
  apply (Shown_frame w); try exact HS; reflexivity.
Qed.

Lemma Shown_showBlackoutAndProceed (w : World) :
  Shown w -> Shown (showBlackoutAndProceed w).
Proof.
  intros ((Hc & Hr) & HN & (HM1 & HM2 & HM3)).
  destruct w as [[rs cc rl sp idx sdm dc sre rn asr sgo spm] tos pm tr].
  unfold Shown, RushInv, RoundsInv, ModalInv in *. run_handlers. simpl in *.
  rewrite List.filter_app, length_app. simpl.
  repeat split; try lia; try tauto; try apply HM2; auto.
Qed.

Lemma Shown_observe (o : Obs) (w : World) :
  o <> RoundStarted -> Shown w ->
  Shown (mkWorld (ui w) (timeouts w) (premiumModal w) (o :: trace w)).
Proof.
  intros Ho. apply (Shown_frame w); try reflexivity.
  destruct o; simpl; congruence.
Qed.

Lemma Shown_checkRoundResult (continueRate : Q) (record : list (list Slot)) (u : Q)
    (w : World) :
  handedOver record -> Shown w ->
  Shown (checkRoundResult continueRate record u w).
Proof.
  intros Hrec HS. rewrite checkRoundResult_run. cbv zeta.
  pose proof (resolve_drinks continueRate (classify record) u) as Hd.
  destruct (handedOver_classify record Hrec) as (? & ? & _ & _ & _ & H3 & _).
  destruct (resolve _ _ _) as [|n| |].
  - destruct HS as (HR & HN & (HM1 & HM2 & HM3)).
    destruct w as [[rs cc rl sp idx sdm dc sre rn asr sgo spm] tos pm tr].
    unfold Shown, RushInv, RoundsInv, ModalInv in *. simpl in *.
    split; [exact HR|]. split; [exact HN|]. split; [split; eauto|].
    split; [|exact HM3]. intros m [= <-]. simpl.
    split; [discriminate | intros [? ?]; discriminate].
  - destruct HS as (HR & HN & (HM1 & HM2 & HM3)).
    destruct w as [[rs cc rl sp idx sdm dc sre rn asr sgo spm] tos pm tr].
    unfold Shown, RushInv, RoundsInv, ModalInv in *. simpl in *.
    do 4 (split; [assumption|]). intros _.
    destruct (Hd n eq_refl) as [_ [(-> & _) | [-> ?]]]; lia.
  - apply Shown_showBlackoutAndProceed. by apply Shown_observe.
  - destruct HS as ((Hc & Hr) & HN & (HM1 & HM2 & HM3)).
    destruct w as [[rs cc rl sp idx sdm dc sre rn asr sgo spm] tos pm tr].
    unfold Shown, RushInv, RoundsInv, ModalInv in *. run_handlers. simpl in *.
    rewrite List.filter_app, length_app. simpl.
    repeat split; try lia; try tauto; try apply HM2; auto.
Qed.

Lemma Shown_step (continueRate : Q) (w : World) (e : Event) :
  Wired w -> Shown w -> Shown (step continueRate w e).
Proof.
  intros HW HS.
  destruct e as [i u|u|k u| | |u|]; cbv beta iota delta [step].
  - by apply Shown_stopReel.
  - unfold handleKeyPress.
    destruct (list_find _ _) as [[j b]|]; [by apply Shown_stopReel | exact HS].
  - destruct (timeouts w !! k) as [t|] eqn:Hk; [|exact HS].
    pose proof (isProceed_delete _ _ _ Hk) as Hdel.
    destruct HW as (_ & _ & _ & _ & _ & HT & _).
    rewrite Forall_forall in HT.
    assert (timeoutWired t) as Ht
      by (apply HT, list_elem_of_lookup; eauto).
    set (w0 := {| ui := ui w; timeouts := delete k (timeouts w);
                  premiumModal := premiumModal w; trace := trace w |}).
    assert (isProceed t = false -> Shown w0) as HS0.
    { intros Hp. rewrite Hp, Nat.add_0_r in Hdel.
      destruct HS as (HR & HN & HM). unfold Shown, RushInv, RoundsInv in *.
      unfold w0. cbn [ui timeouts premiumModal trace]. rewrite <- Hdel. auto. }
    destruct t as [record|n record| |c]; cbn [runTimeout].
    + apply Shown_checkRoundResult; [exact Ht | by apply HS0].
    + destruct (n <? 2)%nat.
      * apply Shown_startSpin. by apply HS0.
      * apply Shown_checkRoundResult; [exact Ht | by apply HS0].
    + destruct HS as ((Hc & Hr) & HN & (HM1 & HM2 & HM3)).
      subst w0. clear HS0. simpl in Hdel.
      remember (delete k (timeouts w)) as d eqn:Hd. clear Hd.
      destruct w as [[rs cc rl sp idx sdm dc sre rn asr sgo spm] tos pm tr].
      unfold Shown, RushInv, RoundsInv, ModalInv in *. run_events. simpl in *.
      repeat split; try lia; try tauto; try apply HM2; auto; discriminate.
    + specialize (HS0 eq_refl). clear HS Hdel.
      subst w0. remember (delete k (timeouts w)) as d eqn:Hd. clear Hd.
      destruct HS0 as ((Hc & Hr) & HN & (HM1 & HM2 & HM3)).
      destruct w as [[rs cc rl sp idx sdm dc sre rn asr sgo spm] tos pm tr].
      unfold Shown, RushInv, RoundsInv, ModalInv in *. run_handlers. simpl in *.
      repeat split; try lia; try tauto; try apply HM2; auto; discriminate.
  - destruct (showDrinkModal (ui w)) eqn:Hdm; [|exact HS].
    apply Shown_showBlackoutAndProceed.
    destruct HS as (HR & HN & (HM1 & HM2 & HM3)).
    destruct w as [[rs cc rl sp idx sdm dc sre rn asr sgo spm] tos pm tr].
    unfold Shown, RushInv, RoundsInv, ModalInv in *. run_handlers. simpl in *.
    repeat split; try lia; try tauto; try apply HM2; auto; discriminate.
  - destruct (premiumModal w) as [[[| |] o]|] eqn:Hpm; try exact HS.
    destruct HS as (HR & HN & (HM1 & HM2 & HM3)).
    split; [exact HR|]. split; [exact HN|].
    unfold ModalInv in *. simpl. rewrite Hpm in HM1.
    split; [split; eauto; intros _; by apply HM1|]. split; [|exact HM3].
    intros m [= <-]. simpl. specialize (HM2 _ Hpm). simpl in HM2.
    split; [discriminate|]. intros Ho. apply HM2 in Ho. discriminate.
  - destruct (premiumModal w) as [[[| |] o]|] eqn:Hpm; try exact HS.
    destruct HS as (HR & HN & (HM1 & HM2 & HM3)).
    split; [exact HR|]. split; [exact HN|].
    unfold ModalInv in *. simpl. rewrite Hpm in HM1.
    split; [split; eauto; intros _; by apply HM1|]. split; [|exact HM3].
    intros m [= <-]. simpl. split; eauto.
  - destruct (premiumModal w) as [[[| |] o]|] eqn:Hpm; try exact HS.
    apply Shown_showBlackoutAndProceed.
    destruct HS as (HR & HN & (HM1 & HM2 & HM3)).
    destruct w as [[rs cc rl sp idx sdm dc sre rn asr sgo spm] tos pm tr].
    unfold Shown, RushInv, RoundsInv, ModalInv in *. run_handlers. simpl in *.
    repeat split; try lia; try tauto; try discriminate.
    intros [? ?]; discriminate.
Qed.

Lemma reachable_Shown (continueRate : Q) (w : World) :
  reachable continueRate w -> Shown w.
Proof.
  induction 1 as [|w e Hr IH].
  - apply Shown_mounted.
  - apply Shown_step; [by apply (reachable_Wired continueRate) | exact IH].
Qed.

Lemma rounds_length (tr : list Obs) :
  length (rounds tr) = length (List.filter isRoundStart tr).
Proof.
  induction tr as [|o tr IH]; [reflexivity|].
  destruct o; simpl; rewrite <- ?IH; try reflexivity; by destruct (rounds tr).
Qed.

Lemma Inv_timeouts (w : World) :
  Inv w -> timeouts w = [] \/ exists t, timeouts w = [t].
Proof.
  intros (_ & _ & _ & current & past & _ & _ & Hphase).
  destruct Hphase as [Hph|[Hph|[Hph|Hph]]].
  - destruct Hph as (? & _ & _ & _ & Hto & _). auto.
  - destruct Hph as (? & ? & ? & ? & _ & _ & _ & _ & _ & _ & _ & Hcase).
    destruct Hcase as [[_ Hto]|[_ Hto]]; eauto.
  - destruct Hph as (_ & _ & Hcase).
    destruct Hcase as [(_ & _ & Hto)|[(_ & _ & Hto)|[(_ & _ & Hto)|(_ & _ & Hto)]]];
      eauto.
  - destruct Hph as (? & _ & _ & _ & Hto & _). auto.
Qed.

(** X13.  Whenever the overlay is rendered in a reachable state it shows
    either the game-over text, with the game-over cell set, or RUSH n; in
    the latter case the restart is the one pending timeout, n is the
    continue count plus one, n is also one more than the number of rounds
    started so far, and n is at least 2.  The fallback branch of the
    overlay (a rush number that is not positive) is never taken. *)
Theorem rushOverlay_announces_next_round (continueRate : Q) (w : World) :
  reachable continueRate w ->
  match rushOverlay (ui w) with
  | Some (RushText n) =>
      showGameOver (ui w) = false
      /\ timeouts w = [TProceed]
      /\ n = continueCount (ui w) + 1
      /\ n = Z.of_nat (length (rounds (trace w))) + 1
      /\ 2 <= n
  | Some GameOverText => showGameOver (ui w) = true
  | None => showRushEffect (ui w) = false
  end.
Proof.
  intros Hr. pose proof (reachable_Inv _ _ Hr) as HI.
  apply Inv_timeouts in HI as Hto.
  apply reachable_Shown in Hr as ((Hc & Hrush) & HN & _).
  unfold rushOverlay, RoundsInv in *. rewrite <- rounds_length in HN.
  destruct (showRushEffect (ui w)); [|reflexivity].
  destruct (showGameOver (ui w)); [reflexivity|].
  destruct (Hrush eq_refl) as [?|(Hn & H1 & Hp)]; [discriminate|].
  replace (0 <? rushNumber (ui w)) with true by (symmetry; apply Z.ltb_lt; lia).
  assert (timeouts w = [TProceed]) as Hto'.
  { destruct Hto as [Hto|[t Hto]]; rewrite Hto in Hp; simpl in Hp; [lia|].
    destruct t; simpl in Hp; try lia. exact Hto. }
  rewrite Hto' in HN. simpl in HN. repeat split; try lia. exact Hto'.
Qed.

Lemma rushOverlay_announces_next_round_witness :
  let w := run (7 # 10) mounted
             [StopClicked 0 (1 # 2); StopClicked 1 (1 # 2); StopClicked 2 (1 # 2);
              TimeoutFired 0 (1 # 2)] in
  rushOverlay (ui w) = Some (RushText 2)
  /\ match rushOverlay (ui w) with
     | Some (RushText n) =>
         showGameOver (ui w) = false
         /\ timeouts w = [TProceed]
         /\ n = continueCount (ui w) + 1
         /\ n = Z.of_nat (length (rounds (trace w))) + 1
         /\ 2 <= n
     | Some GameOverText => showGameOver (ui w) = true
     | None => showRushEffect (ui w) = false
     end.
Proof.
  cbv zeta. split; [vm_compute; reflexivity|].
  apply (rushOverlay_announces_next_round (7 # 10)).
  apply reachable_run, reachable_mounted.
Defined.

(** X14.  In every reachable state the number of rounds started so far is
    the continue count plus one, except during the blackout before a
    restart, when the continue count already counts the round about to
    start. *)
Theorem rounds_started_counts (continueRate : Q) (w : World) :
  reachable continueRate w ->
  Z.of_nat (length (rounds (trace w)))
  = continueCount (ui w) + (if existsb isProceed (timeouts w) then 0 else 1).
Proof.
  intros Hr. pose proof (reachable_Inv _ _ Hr) as HI.
  apply Inv_timeouts in HI as Hto.
  apply reachable_Shown in Hr as (_ & HN & _).
  unfold RoundsInv in HN. rewrite <- rounds_length in HN.
  destruct Hto as [Hto|[t Hto]]; rewrite Hto in *; simpl in *; [lia|].
  destruct t; simpl in *; lia.
Qed.

Lemma rounds_started_counts_witness :
  let w := run (7 # 10) mounted
             [StopClicked 0 (1 # 2); StopClicked 1 (1 # 2); StopClicked 2 (1 # 2);
              TimeoutFired 0 (1 # 2); TimeoutFired 0 0] in
  Z.of_nat (length (rounds (trace w)))
  = continueCount (ui w) + (if existsb isProceed (timeouts w) then 0 else 1).
Proof.
  cbv zeta. apply (rounds_started_counts (7 # 10)).
  apply reachable_run, reachable_mounted.
Defined.

(** ** The end of the session *)

Lemma Inv_ended (w : World) (c : Z) (tr : list Obs) :
  Inv w -> trace w = SessionTerminated c :: tr ->
  c = continueCount (ui w)
  /\ isSpinning (ui w) = allStopped /\ timeouts w = []
  /\ premiumModal w = None /\ showDrinkModal (ui w) = false.
Proof.
  intros (_ & _ & _ & current & past & Hr & _ & Hphase) Htr.
  rewrite Htr in Hr. simpl in Hr.
  destruct (rounds tr) as [|cur past']; [discriminate|].
  injection Hr as <- <-.
  destruct Hphase as [Hph|[Hph|[Hph|Hph]]].
  - destruct Hph as (k & Ho & _). inversion Ho.
  - destruct Hph as (? & ? & ? & ? & _ & _ & [=] & _).
  - destruct Hph as ((? & ? & ? & ? & [=] & _) & _).
  - destruct Hph as (round & [= -> _] & _ & Hst & Hto & Hpm & Hdm). auto.
Qed.

Lemma idle_absorbing (continueRate : Q) (w : World) (e : Event) :
  isSpinning (ui w) = allStopped -> timeouts w = [] ->
  premiumModal w = None -> showDrinkModal (ui w) = false ->
  step continueRate w e = w.
Proof.
  intros Hst Hto Hpm Hdm.
  destruct e as [i u|u|k u| | |u|]; cbv beta iota delta [step].
  - apply stopReel_idle. rewrite Hst. apply allStopped_lookup.
  - unfold handleKeyPress. by rewrite Hst.
  - by rewrite Hto.
  - by rewrite Hdm.
  - by rewrite Hpm.
  - by rewrite Hpm.
  - by rewrite Hpm.
Qed.

Ltac not_in_new :=
  let Hc := fresh in
  intros ? Hc;
  repeat (apply elem_of_cons in Hc as [Hc|Hc]; [discriminate|]);
  by apply elem_of_nil in Hc.

(** What an event does to the drink modal and to the trace: either it hands
    a record to [checkRoundResult], or it leaves the drink modal closed if
    it was, and it reports nothing but possibly the end of the session. *)
Lemma step_cases (continueRate : Q) (w : World) (e : Event) :
  (exists k u t record,
      e = TimeoutFired k u /\ timeouts w !! k = Some t
      /\ completing t record
      /\ step continueRate w e
         = checkRoundResult continueRate record u
             (mkWorld (ui w) (delete k (timeouts w)) (premiumModal w) (trace w)))
  \/ ((showDrinkModal (ui (step continueRate w e)) = true ->
       showDrinkModal (ui w) = true)
      /\ ((exists new, trace (step continueRate w e) = new ++ trace w
                       /\ (forall c, SessionTerminated c ∉ new))
          \/ (exists k u c,
                 e = TimeoutFired k u /\ timeouts w !! k = Some (TEnd c)
                 /\ trace (step continueRate w e)
                    = SessionTerminated c :: trace w))).
Proof.
  destruct e as [i u|u|k u| | |u|]; cbv beta iota delta [step].
  - right. destruct (decide (isSpinning (ui w) !! i = Some true)) as [Hs|Hs].
    + rewrite (stopReel_spinning _ _ _ _ Hs). cbv zeta.
      destruct (forallb negb _); (split; [intros H; exact H|]); left.
      * eexists [_]. split; [reflexivity | not_in_new].
      * exists []. split; [reflexivity | not_in_new].
    + rewrite stopReel_idle by exact Hs. split; [auto|]. left.
      exists []. split; [reflexivity | not_in_new].
  - right. unfold handleKeyPress. destruct (list_find _ _) as [[i b]|].
    + destruct (decide (isSpinning (ui w) !! i = Some true)) as [Hs|Hs].
      * rewrite (stopReel_spinning _ _ _ _ Hs). cbv zeta.
        destruct (forallb negb _); (split; [intros H; exact H|]); left.
        -- eexists [_]. split; [reflexivity | not_in_new].
        -- exists []. split; [reflexivity | not_in_new].
      * rewrite stopReel_idle by exact Hs. split; [auto|]. left.
        exists []. split; [reflexivity | not_in_new].
    + split; [auto|]. left. exists []. split; [reflexivity | not_in_new].
  - destruct (timeouts w !! k) as [t|] eqn:Hk.
    + destruct t as [record|n record| |c]; cbn [runTimeout].
      * left. exists k, u, (TCheckRound record), record.
        repeat split; auto. by left.
      * destruct (n <? 2)%nat eqn:En.
        -- right. unfold startSpin. destruct (3 <=? n + 1)%nat.
           ++ split; [auto|]. left. exists []. split; [reflexivity | not_in_new].
           ++ split; [intros H; exact H|]. left.
              eexists [_]. split; [reflexivity | not_in_new].
        -- left. exists k, u, (TNextSpinOrCheck n record), record.
           apply Nat.ltb_ge in En as En'.
           split; [reflexivity|]. split; [exact Hk|].
           split; [right; eauto | reflexivity].
      * right. split; [intros H; exact H|]. left.
        exists [SpinStarted 0; RoundStarted]. split; [reflexivity | not_in_new].
      * right. split; [intros H; exact H|]. right. exists k, u, c. auto.
    + right. split; [auto|]. left. exists []. split; [reflexivity | not_in_new].
  - right. destruct (showDrinkModal (ui w)) eqn:Hdm.
    + split; [auto|]. left.
      exists []. split; [reflexivity | not_in_new].
    + split; [intros H; cbv iota in H; congruence|]. left.
      exists []. split; [reflexivity | not_in_new].
  - right. destruct (premiumModal w) as [[[| |] o]|];
      (split; [intros H; exact H|]); left;
      exists []; (split; [reflexivity | not_in_new]).
  - right. destruct (premiumModal w) as [[[| |] o]|];
      (split; [intros H; exact H|]); left;
      exists []; (split; [reflexivity | not_in_new]).
  - right. destruct (premiumModal w) as [[[| |] o]|];
      (split; [intros H; exact H|]); left;
      exists []; (split; [reflexivity | not_in_new]).
Qed.

Lemma endsOnce_head (w : World) :
  endsOnce (trace w) ->
  (exists c tr, trace w = SessionTerminated c :: tr)
  \/ (forall c, SessionTerminated c ∉ trace w).
Proof.
  intros HE.
  assert (forall c, SessionTerminated c ∈ trace w ->
                    exists c' tr, trace w = SessionTerminated c' :: tr) as H.
  { intros c Hc. apply list_elem_of_split in Hc as (newer & older & Heq).
    destruct (HE _ _ _ Heq) as [-> _]. eauto. }
  destruct (trace w) as [|o tr] eqn:Htr.
  - right. intros c Hc. by apply elem_of_nil in Hc.
  - destruct o; eauto; right; intros c' Hc';
      destruct (H _ Hc') as (? & ? & [=]).
Qed.

Lemma endsOnce_step (continueRate : Q) (w : World) (e : Event) :
  Inv w -> endsOnce (trace w) -> endsOnce (trace (step continueRate w e)).
Proof.
  intros HI HE. destruct (endsOnce_head w HE) as [(c0 & tr0 & Htr)|Hno].
  - destruct (Inv_ended w c0 tr0 HI Htr) as (_ & Hst & Hto & Hpm & Hdm).
    by rewrite idle_absorbing.
  - assert (forall new, (forall c, SessionTerminated c ∉ new) ->
                        endsOnce (new ++ trace w)) as Hnew.
    { intros new Hn c newer older Heq. exfalso.
      assert (SessionTerminated c ∈ new ++ trace w) as Hc
        by (rewrite Heq, elem_of_app, elem_of_cons; auto).
      apply elem_of_app in Hc as [Hc|Hc]; [by apply Hn in Hc | by apply Hno in Hc]. }
    destruct (step_cases continueRate w e)
      as [(k & u & t & record & _ & _ & _ & ->)|[_ [(new & -> & Hn)|(k & u & c & _ & _ & ->)]]].
    + destruct (checkRoundResult_fields continueRate record u
                  (mkWorld (ui w) (delete k (timeouts w)) (premiumModal w) (trace w)))
        as (_ & _ & _ & _ & _ & -> & _).
      apply (Hnew [_]). not_in_new.
    + by apply Hnew.
    + intros c' newer older Heq. destruct newer as [|o newer].
      * injection Heq as _ <-. auto.
      * injection Heq as _ Heq. exfalso. apply (Hno c').
        rewrite Heq, elem_of_app, elem_of_cons. auto.
Qed.

Lemma reachable_endsOnce (continueRate : Q) (w : World) :
  reachable continueRate w -> endsOnce (trace w).
Proof.
  induction 1 as [|w e Hr IH].
  - intros c newer older Heq. exfalso.
    assert (SessionTerminated c ∈ trace mounted) as Hc
      by (rewrite Heq, elem_of_app, elem_of_cons; auto).
    simpl in Hc.
    repeat (apply elem_of_cons in Hc as [Hc|Hc]; [discriminate|]).
    by apply elem_of_nil in Hc.
  - apply endsOnce_step; [by apply (reachable_Inv continueRate) | exact IH].
Qed.

(** X15.  Once the end of the session has been reported in a reachable
    state, it is the newest entry of the trace and the only report; the
    count reported is the continue count, which is one less than the number
    of rounds started; and every event leaves the component as it is. *)
Theorem session_ends_once (continueRate : Q) (w : World) (c : Z)
    (newer older : list Obs) :
  reachable continueRate w ->
  trace w = newer ++ SessionTerminated c :: older ->
  newer = []
  /\ (forall c', SessionTerminated c' ∉ older)
  /\ c = continueCount (ui w)
  /\ Z.of_nat (length (rounds (trace w))) = c + 1
  /\ (forall e, step continueRate w e = w).
Proof.
  intros Hr Heq.
  destruct (reachable_endsOnce _ _ Hr _ _ _ Heq) as [-> Hno].
  split; [reflexivity|]. split; [exact Hno|].
  destruct (Inv_ended w c older (reachable_Inv _ _ Hr) Heq)
    as (-> & Hst & Hto & Hpm & Hdm).
  split; [reflexivity|].
  apply reachable_Shown in Hr as (_ & HN & _).
  unfold RoundsInv in HN. rewrite <- rounds_length, Hto in HN. simpl in HN.
  split; [lia|]. intros e. by apply idle_absorbing.
Qed.

Lemma session_ends_once_witness :
  trace sessionEnded = [] ++ SessionTerminated 0 :: tail (trace sessionEnded)
  /\ Z.of_nat (length (rounds (trace sessionEnded))) = 0 + 1
  /\ (forall e, step (29 # 100) sessionEnded e = sessionEnded).
Proof.
  assert (trace sessionEnded = [] ++ SessionTerminated 0 :: tail (trace sessionEnded))
    as Heq by (vm_compute; reflexivity).
  split; [exact Heq|].
  destruct (session_ends_once (29 # 100) sessionEnded 0 [] _
              (reachable_run _ _ _ (reachable_mounted _)) Heq)
    as (_ & _ & _ & H4 & H5).
  split; [exact H4 | exact H5].
Defined.

(** ** Input while nothing spins *)

(** X16.  In every reachable state at most one timeout is pending; while
    one is pending or a modal is open, no reel spins, and the STOP buttons
    and the space key leave the component as it is. *)
Theorem input_ignored_unless_spinning (continueRate : Q) (w : World) :
  reachable continueRate w ->
  (length (timeouts w) <= 1)%nat
  /\ (timeouts w <> [] \/ showDrinkModal (ui w) = true
      \/ is_Some (premiumModal w) ->
      isSpinning (ui w) = allStopped
      /\ (forall i u, step continueRate w (StopClicked i u) = w)
      /\ (forall u, step continueRate w (SpacePressed u) = w)).
Proof.
  intros Hr. apply reachable_Inv in Hr as HI. split.
  { destruct (Inv_timeouts w HI) as [->|[t ->]]; simpl; lia. }
  intros Hbusy.
  assert (isSpinning (ui w) = allStopped) as Hst.
  { destruct HI as (_ & _ & _ & current & past & _ & _ & Hphase).
    destruct Hphase as [Hph|[Hph|[Hph|Hph]]].
    - destruct Hph as (? & _ & _ & _ & Hto & Hpm & Hdm & _).
      rewrite Hto, Hpm, Hdm in Hbusy.
      destruct Hbusy as [?|[?|[? ?]]]; congruence.
    - destruct Hph as (? & ? & ? & ? & _ & _ & _ & Hst & _). exact Hst.
    - destruct Hph as (_ & Hst & _). exact Hst.
    - destruct Hph as (? & _ & _ & Hst & _). exact Hst. }
  split; [exact Hst|]. split.
  - intros i u. apply stopReel_idle. rewrite Hst. apply allStopped_lookup.
  - intros u. cbv beta iota delta [step]. unfold handleKeyPress. by rewrite Hst.
Qed.

Lemma input_ignored_unless_spinning_witness :
  timeouts premiumRoundSettled <> []
  /\ (forall i u, step (29 # 100) premiumRoundSettled (StopClicked i u)
                  = premiumRoundSettled).
Proof.
  assert (timeouts premiumRoundSettled <> []) as Hto by (vm_compute; discriminate).
  split; [exact Hto|].
  destruct (input_ignored_unless_spinning (29 # 100) premiumRoundSettled
              (reachable_run _ _ _ (reachable_mounted _))) as [_ H].
  destruct (H (or_introl Hto)) as (_ & H2 & _). exact H2.
Defined.

(** ** The modals *)

(** X17.  In every reachable state the premium modal is mounted exactly
    while its cell is set; it is in its result phase exactly when its coin
    flip has selected an option; the two modals are never open together;
    and while either is open no timeout is pending and the round on display
    has been handed to the resolver. *)
Theorem modals_consistent (continueRate : Q) (w : World) :
  reachable continueRate w ->
  (showPremiumModal (ui w) = true <-> is_Some (premiumModal w))
  /\ (forall m, premiumModal w = Some m ->
        (phase m = Result <-> is_Some (selectedOption m)))
  /\ ~ (showDrinkModal (ui w) = true /\ showPremiumModal (ui w) = true)
  /\ (showDrinkModal (ui w) = true \/ showPremiumModal (ui w) = true ->
      timeouts w = []
      /\ exists current past,
           rounds (trace w) = current :: past /\ completions current = 1%nat).
Proof.
  intros Hr. apply reachable_Inv in Hr as HI.
  apply reachable_Shown in Hr as (_ & _ & (HM1 & HM2 & _)).
  split; [exact HM1|]. split; [exact HM2|]. split.
  - intros [Hd Hp]. apply HM1 in Hp.
    destruct (Inv_modal_open w HI (or_introl Hd)) as (? & ? & _ & _ & _ & _ & _ & H & _).
    rewrite (H Hd) in Hp. destruct Hp as [? ?]. discriminate.
  - intros Hopen.
    assert (showDrinkModal (ui w) = true \/ is_Some (premiumModal w)) as Hopen'
      by (destruct Hopen as [?|?]; [by left | right; by apply HM1]).
    destruct (Inv_modal_open w HI Hopen')
      as (current & past & Hrounds & _ & Hcl & _ & Hto & _).
    split; [exact Hto|]. exists current, past. split; [exact Hrounds|].
    by apply closedRound_facts in Hcl as (? & _).
Qed.

Lemma modals_consistent_witness :
  showDrinkModal (ui drinkModalOpen) = true
  /\ (showPremiumModal (ui drinkModalOpen) = true
      <-> is_Some (premiumModal drinkModalOpen))
  /\ ~ (showDrinkModal (ui drinkModalOpen) = true
        /\ showPremiumModal (ui drinkModalOpen) = true)
  /\ timeouts drinkModalOpen = [].
Proof.
  assert (showDrinkModal (ui drinkModalOpen) = true) as Hdm
    by (vm_compute; reflexivity).
  split; [exact Hdm|].
  destruct (modals_consistent (1 # 2) drinkModalOpen
              (reachable_run _ _ _ (reachable_mounted _))) as (H1 & _ & H3 & H4).
  split; [exact H1|]. split; [exact H3|].
  exact (proj1 (H4 (or_introl Hdm))).
Defined.

(** ** The drink modal *)

Lemma DrinkInv_checkRoundResult (continueRate : Q) (record : list (list Slot))
    (u : Q) (w : World) :
  handedOver record -> showDrinkModal (ui w) = false ->
  DrinkInv (checkRoundResult continueRate record u w).
Proof.
  intros Hrec Hdm. rewrite checkRoundResult_run. cbv zeta.
  destruct (resolve _ _ _) as [|n| |] eqn:E; intros Hd.
  - simpl in Hd. congruence.
  - apply resolve_drinks in E as [Hp E].
    destruct (handedOver_classify record Hrec)
      as (before & s & -> & _ & Hs & Hc & Hy).
    rewrite classify_hasPremiumFlag in Hp. rewrite Hc, Hy in E.
    exists (before ++ [s]), before, s, (trace w). simpl.
    do 4 (split; [auto|]).
    destruct E as [(-> & _ & E2)|[-> E2]]; [auto | lia].
  - change (showDrinkModal (ui w) = true) in Hd. congruence.
  - change (showDrinkModal (ui w) = true) in Hd. congruence.
Qed.

Lemma DrinkInv_step (continueRate : Q) (w : World) (e : Event) :
  Inv w -> Wired w -> DrinkInv w -> DrinkInv (step continueRate w e).
Proof.
  intros HI HW HD.
  destruct (showDrinkModal (ui w)) eqn:Hdm.
  - destruct (Inv_modal_open w HI (or_introl Hdm))
      as (? & ? & _ & _ & _ & Hst & Hto & Hpm & _).
    specialize (Hpm Hdm).
    assert (e = DrinkModalClosed \/ step continueRate w e = w) as [-> | ->].
    { destruct e as [i u|u|k u| | |u|]; auto; right; cbv beta iota delta [step].
      - apply stopReel_idle. rewrite Hst. apply allStopped_lookup.
      - unfold handleKeyPress. by rewrite Hst.
      - by rewrite Hto.
      - by rewrite Hpm.
      - by rewrite Hpm.
      - by rewrite Hpm. }
    + intros Hd. exfalso. revert Hd. cbv beta iota delta [step]. rewrite Hdm.
      intros Hd. change (false = true) in Hd. discriminate.
    + exact HD.
  - destruct (step_cases continueRate w e)
      as [(k & u & t & record & _ & Hk & Hc & ->)|[Hsame _]].
    + apply DrinkInv_checkRoundResult; [|exact Hdm].
      destruct HW as (_ & _ & _ & _ & _ & HT & _).
      rewrite Forall_forall in HT.
      assert (timeoutWired t) as Ht by (apply HT, list_elem_of_lookup; eauto).
      destruct Hc as [->|(? & _ & ->)]; exact Ht.
    + intros Hd. apply Hsame in Hd. congruence.
Qed.

Lemma reachable_DrinkInv (continueRate : Q) (w : World) :
  reachable continueRate w -> DrinkInv w.
Proof.
  induction 1 as [|w e Hr IH].
  - intros [=].
  - apply DrinkInv_step; [by apply (reachable_Inv continueRate)
                         | by apply (reachable_Wired continueRate) | exact IH].
Qed.

(** X18.  While the drink modal is open in a reachable state, the newest
    entry of the trace is the completion of the round; the record handed
    over holds no premium flag and its last spin is a small yaku; the
    number of drinks is 1; and the modal shows the plain message.  The
    branches of [checkRoundResult] that set two or three drinks are never
    taken, so that the jackpot message is never shown. *)
Theorem drink_modal_shows_last_spin (continueRate : Q) (w : World) :
  reachable continueRate w ->
  showDrinkModal (ui w) = true ->
  exists record before s tr,
    trace w = RoundCompleted record :: tr
    /\ record = before ++ [s] /\ settledSlots s
    /\ existsb isPremiumFlag record = false
    /\ checkSmallYakuMatch s = true
    /\ drinkCount (ui w) = 1%nat
    /\ drinkMessage (drinkCount (ui w)) = ContinueConfirmed.
Proof.
  intros Hr Hdm.
  destruct (reachable_DrinkInv _ _ Hr Hdm)
    as (record & before & s & tr & Htr & Hrec & Hs & Hp & Hy & Hd).
  exists record, before, s, tr. do 6 (split; [assumption|]).
  by rewrite Hd.
Qed.

Lemma drink_modal_shows_last_spin_witness :
  showDrinkModal (ui drinkModalOpen) = true
  /\ exists record before s tr,
       trace drinkModalOpen = RoundCompleted record :: tr
       /\ record = before ++ [s] /\ settledSlots s
       /\ existsb isPremiumFlag record = false
       /\ checkSmallYakuMatch s = true
       /\ drinkCount (ui drinkModalOpen) = 1%nat
       /\ drinkMessage (drinkCount (ui drinkModalOpen)) = ContinueConfirmed.
Proof.
  assert (showDrinkModal (ui drinkModalOpen) = true) as Hdm
    by (vm_compute; reflexivity).
  split; [exact Hdm|].
  exact (drink_modal_shows_last_spin (1 # 2) drinkModalOpen
           (reachable_run _ _ _ (reachable_mounted _)) Hdm).
Defined.

(** ** The records the resolver sees *)

(** X19.  Every record handed to the resolver in a reachable state ends
    with a spin of three symbols, and none of its earlier spins is a small
    yaku.  The cherry count computed for it is 0 and the small-yaku flag
    computed is that of its last spin, so that the resolver never takes a
    cherry branch: it gives the premium sub-event when the record holds a
    premium flag; otherwise, on a small yaku, one drink when the draw is
    below 0.2 and the plain continuation when it is not; otherwise the
    continuation or the termination on the continue rate. *)
Theorem completed_record_classification (continueRate : Q) (w : World)
    (record : list (list Slot)) :
  reachable continueRate w ->
  RoundCompleted record ∈ trace w ->
  exists before s,
    record = before ++ [s]
    /\ Forall (fun s => checkSmallYakuMatch s = false) before
    /\ settledSlots s
    /\ cherryCount (classify record) = 0%nat
    /\ hasSmallYaku (classify record) = checkSmallYakuMatch s
    /\ (forall rate u,
          resolve rate (classify record) u =
            if existsb isPremiumFlag record then PremiumSubEvent
            else if checkSmallYakuMatch s then
              if Qltb u (1 # 5) then ContinueWithBonusReveal 1 else Continue
            else if Qltb u rate then Continue else Terminate).
Proof.
  intros Hr Hin. apply reachable_Wired in Hr as (_ & _ & _ & _ & _ & _ & HO).
  rewrite Forall_forall in HO. apply HO in Hin.
  destruct (handedOver_classify record Hin) as (before & s & Hrec & Hb & Hs & Hc & Hy).
  exists before, s. do 5 (split; [assumption|]).
  intros rate u. rewrite (resolve_no_cherry _ _ _ Hc), Hy.
  by rewrite classify_hasPremiumFlag.
Qed.

Lemma completed_record_classification_witness :
  RoundCompleted [[Sym Diamond; Sym Diamond; Sym Diamond]] ∈ trace drinkModalOpen
  /\ cherryCount (classify [[Sym Diamond; Sym Diamond; Sym Diamond]]) = 0%nat
  /\ hasSmallYaku (classify [[Sym Diamond; Sym Diamond; Sym Diamond]]) = true.
Proof.
  assert (RoundCompleted [[Sym Diamond; Sym Diamond; Sym Diamond]]
            ∈ trace drinkModalOpen)
    as Hin by (vm_compute; apply list_elem_of_here).
  split; [exact Hin|].
  destruct (completed_record_classification (1 # 2) drinkModalOpen _
              (reachable_run _ _ _ (reachable_mounted _)) Hin)
    as (before & s & Hrec & _ & _ & Hc & Hy & _).
  split; [exact Hc|]. rewrite Hy.
  destruct before as [|b [|b' before]]; try discriminate Hrec.
  injection Hrec as <-. reflexivity.
Defined.

(** ** The result screen *)

(** X20.  The count reported at the end of a session gets exactly one of
    the four messages of the result screen: the first for 0, the second
    for 1 to 5, the third for 6 to 10, the fourth above 10. *)
Theorem reported_count_gets_one_message (continueRate : Q) (w : World) (c : Z)
    (tr : list Obs) :
  reachable continueRate w ->
  trace w = SessionTerminated c :: tr ->
  exists m,
    resultMessages c = [m]
    /\ (m = TryAgain <-> c = 0)
    /\ (m = PrettyGood <-> 1 <= c <= 5)
    /\ (m = WellDone <-> 6 <= c <= 10)
    /\ (m = Excellent <-> 11 <= c).
Proof.
  intros Hr Htr. pose proof (reachable_Inv _ _ Hr) as HI.
  destruct (Inv_ended w c tr HI Htr) as (-> & _).
  destruct HI as (_ & _ & Hc & _). revert Hc.
  generalize (continueCount (ui w)). intros c Hc. unfold resultMessages.
  destruct (Z.eqb_spec c 0), (Z.ltb_spec 0 c), (Z.leb_spec c 5),
    (Z.ltb_spec 5 c), (Z.leb_spec c 10), (Z.ltb_spec 10 c); try lia; simpl;
    eexists; (split; [reflexivity|]); repeat split; intros; try lia;
    try discriminate; try reflexivity.
Qed.

Lemma reported_count_gets_one_message_witness :
  trace sessionEnded = SessionTerminated 0 :: tail (trace sessionEnded)
  /\ resultMessages 0 = [TryAgain].
Proof.
  assert (trace sessionEnded = SessionTerminated 0 :: tail (trace sessionEnded))
    as Heq by (vm_compute; reflexivity).
  split; [exact Heq|].
  destruct (reported_count_gets_one_message (29 # 100) sessionEnded 0 _
              (reachable_run _ _ _ (reachable_mounted _)) Heq)
    as (m & Hm & H0 & _).
  rewrite Hm. f_equal. by apply H0.
Defined.

(** ** The STOP buttons *)

Lemma stopReel_takes_one (continueRate : Q) (i : nat) (u : Q) (w : World) :
  isSpinning (ui w) !! i = Some true ->
  remainingStops (ui (stopReel continueRate i u w)) = remainingStops (ui w) - 1.
Proof.
  intros Hs. rewrite (stopReel_spinning _ _ _ _ Hs). cbv zeta.
  by destruct (forallb negb _).
Qed.

(** X21.  A STOP button is enabled ([isSpinning[reelIndex]] is true)
    exactly when a click on it changes the state of the component; the
    click then takes one off the remaining stops. *)
Theorem stop_enabled_iff_effective (continueRate : Q) (i : nat) (u : Q) (w : World) :
  (isSpinning (ui w) !! i = Some true <-> stopReel continueRate i u w <> w)
  /\ (isSpinning (ui w) !! i = Some true ->
      remainingStops (ui (stopReel continueRate i u w)) = remainingStops (ui w) - 1).
Proof.
  split; [|apply stopReel_takes_one]. split.
  - intros Hs Heq. apply (stopReel_takes_one continueRate i u) in Hs.
    rewrite Heq in Hs. lia.
  - intros Hne. destruct (decide (isSpinning (ui w) !! i = Some true)) as [Hs|Hs];
      [exact Hs|]. exfalso. apply Hne. by apply stopReel_idle.
Qed.

(** ** Progress *)

Lemma rounds_head (tr : list Obs) (o : Obs) (current : list Obs)
    (past : list (list Obs)) :
  rounds tr = (o :: current) :: past -> exists older, tr = o :: older.
Proof.
  destruct tr as [|o' tr]; [discriminate|].
  destruct o'; simpl; destruct (rounds tr); intros [=]; subst; eauto.
Qed.

Lemma fire_changes (continueRate : Q) (w : World) (t : Timeout) (k : nat) :
  timeouts w = [t] ->
  match t with TNextSpinOrCheck n _ => n = k /\ (k <= 2)%nat | _ => True end ->
  step continueRate w (TimeoutFired 0 0) <> w.
Proof.
  intros Hto Hk. cbv beta iota delta [step]. rewrite Hto.
  cbn [lookup list_lookup delete list_delete].
  destruct t as [record|n record| |c]; cbn [runTimeout].
  - destruct (checkRoundResult_fields continueRate record 0
                (mkWorld (ui w) [] (premiumModal w) (trace w)))
      as (_ & _ & _ & _ & _ & Htr & _).
    intros Heq. rewrite Heq in Htr. apply (f_equal length) in Htr.
    simpl in Htr. lia.
  - destruct Hk as [-> Hk]. destruct (k <? 2)%nat eqn:E.
    + apply Nat.ltb_lt in E. unfold startSpin.
      replace (3 <=? k + 1)%nat with false by (symmetry; apply Nat.leb_gt; lia).
      intros Heq. apply (f_equal trace) in Heq. apply (f_equal length) in Heq.
      simpl in Heq. lia.
    + destruct (checkRoundResult_fields continueRate record 0
                  (mkWorld (ui w) [] (premiumModal w) (trace w)))
        as (_ & _ & _ & _ & _ & Htr & _).
      intros Heq. rewrite Heq in Htr. apply (f_equal length) in Htr.
      simpl in Htr. lia.
  - intros Heq. apply (f_equal trace) in Heq. apply (f_equal length) in Heq.
    simpl in Heq. lia.
  - intros Heq. apply (f_equal trace) in Heq. apply (f_equal length) in Heq.
    simpl in Heq. lia.
Qed.

(** X22.  A reachable state is left unchanged by every event exactly when
    the end of the session has been reported: until then some event (a
    stop, the pending timeout, the button of the drink modal or the next
    timer of the premium modal) changes the state, so the game cannot get
    stuck. *)
Theorem quiescent_iff_ended (continueRate : Q) (w : World) :
  reachable continueRate w ->
  (exists c tr, trace w = SessionTerminated c :: tr)
  <-> (forall e, step continueRate w e = w).
Proof.
  intros Hr. apply reachable_Inv in Hr as HI. split.
  - intros (c & tr & Htr) e.
    destruct (Inv_ended w c tr HI Htr) as (_ & Hst & Hto & Hpm & Hdm).
    by apply idle_absorbing.
  - intros Hq. destruct HI as (_ & _ & _ & current & past & Hrounds & _ & Hphase).
    destruct Hphase as [Hph|[Hph|[Hph|Hph]]].
    + destruct Hph as (? & _ & _ & _ & _ & _ & _ & i & Hi). exfalso.
      pose proof (stopReel_takes_one continueRate i 0 w Hi) as H.
      change (stopReel continueRate i 0 w)
        with (step continueRate w (StopClicked i 0)) in H.
      rewrite Hq in H. lia.
    + destruct Hph as (k & ? & ? & ? & _ & Hk & _ & _ & _ & _ & _ & Hcase).
      exfalso.
      destruct Hcase as [[_ Hto]|[_ Hto]];
        by apply (fire_changes continueRate w _ k Hto).
    + destruct Hph as (_ & _ & Hcase). exfalso.
      destruct Hcase as [(Hdm & _)|[(_ & Hpm & _)|[(_ & _ & Hto)|(_ & _ & Hto)]]].
      * specialize (Hq DrinkModalClosed). apply (f_equal (fun w => showDrinkModal (ui w))) in Hq.
        revert Hq. cbv beta iota delta [step]. rewrite Hdm.
        change (false = true -> False). discriminate.
      * destruct Hpm as [[[| |] o] Hpm].
        -- specialize (Hq PremiumBlackout). apply (f_equal premiumModal) in Hq.
           revert Hq. cbv beta iota delta [step]. rewrite Hpm. simpl. discriminate.
        -- specialize (Hq (PremiumResult 0)). apply (f_equal premiumModal) in Hq.
           revert Hq. cbv beta iota delta [step]. rewrite Hpm. simpl. discriminate.
        -- specialize (Hq PremiumClosed). apply (f_equal premiumModal) in Hq.
           revert Hq. cbv beta iota delta [step]. rewrite Hpm. simpl. discriminate.
      * by apply (fire_changes continueRate w _ 0%nat Hto).
      * by apply (fire_changes continueRate w _ 0%nat Hto).
    + destruct Hph as (round & -> & _).
      apply rounds_head in Hrounds as (older & Htr). eauto.
Qed.

Lemma quiescent_iff_ended_witness :
  (exists c tr, trace sessionEnded = SessionTerminated c :: tr)
  <-> (forall e, step (29 # 100) sessionEnded e = sessionEnded).
Proof.
  apply (quiescent_iff_ended (29 # 100)), reachable_run, reachable_mounted.
Defined.
